(** * Processador Inteligente de Comunicados: ingestion, scoring, merge, export

    A shallow embedding of [App.tsx], [FileUploader.tsx] and [types.ts].

    - JavaScript strings are sequences of UTF-16 code units ([list N]).
    - JavaScript numbers are IEEE 754 binary64 values (Rocq's primitive
      [float]); an absent property ([undefined]) is [None].
    - React state is passed explicitly; the external scoring service, the
      JSON parser, the DOM and the clock are parameters of the run. *)

From Stdlib Require Import ZArith NArith QArith Qround Qpower Qabs Lia Lqa.
From Stdlib Require Import List Bool Floats String Ascii.
From stdpp Require Import gmap list.
Import ListNotations.

Set Warnings "-inexact-float,-register-all".
Local Open Scope N_scope.
Local Open Scope nat_scope.

(** ** JavaScript strings *)

Abbreviation jsstring := (list N).

(** A string literal of the source, for the ASCII range. *)
Definition js (s : string) : jsstring := map N_of_ascii (list_ascii_of_string s).

Definition SPACE : N := 32%N.
Definition NBSP : N := 160%N.
Definition QUOTE : N := 34%N.
Definition COMMA : N := 44%N.
Definition LF : N := 10%N.
Definition CR : N := 13%N.
Definition LBRACE : N := 123%N.
Definition RBRACE : N := 125%N.
Definition LBRACKET : N := 91%N.
Definition RBRACKET : N := 93%N.

(** The characters matched by the regular expression class [\s] and removed
    by [String.prototype.trim]: WhiteSpace and LineTerminator of ECMA-262. *)
Definition is_space (c : N) : bool :=
  ((9 <=? c) && (c <=? 13) || (c =? 32) || (c =? 160) || (c =? 5760)
   || (8192 <=? c) && (c <=? 8202) || (c =? 8232) || (c =? 8233)
   || (c =? 8239) || (c =? 8287) || (c =? 12288) || (c =? 65279))%N.

(** *** String operations *)

(** [s.startsWith(search)] *)
Fixpoint startsWith (s search : jsstring) : bool :=
  match search, s with
  | [], _ => true
  | _ :: _, [] => false
  | c :: search', d :: s' => (c =? d)%N && startsWith s' search'
  end.

(** [s.includes(search)]: [search] occurs at some position of [s]. *)
Fixpoint includes (s search : jsstring) : bool :=
  startsWith s search
  || match s with
     | [] => false
     | _ :: s' => includes s' search
     end.

Fixpoint dropWhile (p : N -> bool) (s : jsstring) : jsstring :=
  match s with
  | [] => []
  | c :: rest => if p c then dropWhile p rest else s
  end.

(** [s.trimStart()] and [s.trimEnd()]; [s.trim()] does both. *)
Definition trimStart (s : jsstring) : jsstring := dropWhile is_space s.

Fixpoint trimEnd (s : jsstring) : jsstring :=
  match s with
  | [] => []
  | c :: rest =>
      match trimEnd rest with
      | [] => if is_space c then [] else [c]
      | kept => c :: kept
      end
  end.

Definition trim (s : jsstring) : jsstring := trimEnd (trimStart s).

(** The global [replace] of every run of [\s] characters by one space;
    [in_run] says that the previous character was part of a run. *)
Fixpoint replace_space_runs (in_run : bool) (s : jsstring) : jsstring :=
  match s with
  | [] => []
  | c :: rest =>
      if is_space c then
        if in_run then replace_space_runs true rest
        else SPACE :: replace_space_runs true rest
      else c :: replace_space_runs false rest
  end.

(** The global [replace] of every [\xa0] by a space. *)
Definition replace_nbsp (s : jsstring) : jsstring :=
  map (fun c => if (c =? NBSP)%N then SPACE else c) s.

(** The pieces of [s] between the characters that satisfy [sep]. *)
Fixpoint split_where (sep : N -> bool) (s : jsstring) : list jsstring :=
  match s with
  | [] => [[]]
  | c :: rest =>
      if sep c then [] :: split_where sep rest
      else match split_where sep rest with
           | piece :: pieces => (c :: piece) :: pieces
           | [] => [[c]]
           end
  end.

(** [s.split(c)] for a separator of one character. *)
Definition split (sep : N) (s : jsstring) : list jsstring :=
  split_where (N.eqb sep) s.

(** [s.lastIndexOf(c)] for one character: the last position of [c], or -1. *)
Fixpoint lastIndexOf_from (position : Z) (s : jsstring) (c : N) (found : Z) : Z :=
  match s with
  | [] => found
  | d :: rest =>
      lastIndexOf_from (position + 1) rest c (if (d =? c)%N then position else found)
  end.

Definition lastIndexOf (s : jsstring) (c : N) : Z := lastIndexOf_from 0 s c (-1).

(** [s.substring(0, finish)] *)
Definition substring0 (s : jsstring) (finish : Z) : jsstring := take (Z.to_nat finish) s.

(** The global [replace] of every closing brace, spaces, opening brace by
    closing brace, comma, opening brace.  [pending] holds the spaces read
    after a closing brace that is not written yet. *)
Fixpoint join_objects (pending : option jsstring) (s : jsstring) : jsstring :=
  match s with
  | [] =>
      match pending with
      | None => []
      | Some spaces => RBRACE :: spaces
      end
  | c :: rest =>
      match pending with
      | None =>
          if (c =? RBRACE)%N then join_objects (Some []) rest
          else c :: join_objects None rest
      | Some spaces =>
          if (c =? LBRACE)%N then RBRACE :: COMMA :: LBRACE :: join_objects None rest
          else if is_space c then join_objects (Some (spaces ++ [c])) rest
          else if (c =? RBRACE)%N then RBRACE :: spaces ++ join_objects (Some []) rest
          else RBRACE :: spaces ++ c :: join_objects None rest
      end
  end.

(** The [replace] of a comma, spaces and the closing bracket that ends the
    text by the closing bracket alone. *)
Definition strip_trailing_comma (s : jsstring) : jsstring :=
  match rev s with
  | c :: before =>
      if (c =? RBRACKET)%N then
        match dropWhile is_space before with
        | d :: before' => if (d =? COMMA)%N then rev before' ++ [RBRACKET] else s
        | [] => s
        end
      else s
  | [] => s
  end.

(** ** JavaScript numbers *)

Module JsNumber.

(** [ToNumber] of a numeric property that may be absent:
    [undefined * w] is [NaN]. *)
Definition ToNumber (v : option float) : float :=
  match v with Some x => x | None => nan end.

(** What [x.toFixed(2)] denotes.  The result of [toFixed] is a string; the
    model keeps what the string says instead of its characters. *)
Inductive FixedNotation :=
| FixNaN                               (* "NaN" *)
| FixInfinity (negative : bool)        (* "Infinity", "-Infinity" *)
| FixDigits (negative : bool) (n : Z)  (* sign, then n / 100 with two decimals *)
| FixExponent (x : float).             (* from 1e21 on: Number::toString *)

(** The integer [n] for which [n / 100 - m * 2^e] is closest to zero,
    the larger one when there are two. *)
Definition hundredths (m : positive) (e : Z) : Z :=
  (if 0 <=? e then 100 * Zpos m * 2 ^ e
   else (200 * Zpos m + 2 ^ (- e)) / 2 ^ (1 - e))%Z.

Definition at_least_1e21 (m : positive) (e : Z) : bool :=
  (10 ^ 21 * 2 ^ Z.max 0 (- e) <=? Zpos m * 2 ^ Z.max 0 e)%Z.

(** Number.prototype.toFixed with fractionDigits = 2. *)
Definition toFixed2 (x : float) : FixedNotation :=
  match Prim2SF x with
  | S754_nan => FixNaN
  | S754_infinity s => FixInfinity s
  | S754_zero _ => FixDigits false 0
  | S754_finite s m e =>
      if at_least_1e21 m e then FixExponent x
      else FixDigits s (hundredths m e)
  end.

(** [parseFloat] on the strings [toFixed] produces: the binary64 value
    nearest to the decimal, which is the correctly rounded quotient of
    the digits by 100. *)
Definition parseFloat (t : FixedNotation) : float :=
  match t with
  | FixNaN => nan
  | FixInfinity s => if s then neg_infinity else infinity
  | FixExponent x => x
  | FixDigits s n =>
      match n with
      | Zpos p => SF2Prim (SF64div (S754_finite s p 0) (S754_finite false 100 0))
      | _ => if s then (-0)%float else 0%float
      end
  end.

(** Equal as numbers up to the sign of zero. *)
Definition same_or_zeros (x y : float) : Prop :=
  x = y \/ (exists s t, Prim2SF x = S754_zero s /\ Prim2SF y = S754_zero t).

End JsNumber.
Import JsNumber.

(** ** Data model ([types.ts]) *)

(** [ParsedRecord]: a [CleanedRecord] without analysis, score and status. *)
Record ParsedRecord := mkParsed {
  _id : jsstring;
  title : jsstring;
  community : jsstring;
  author : jsstring;
  text_clean : jsstring;
  word_count : nat
}.

(** [Partial<AnalysisResult>]: each property may be absent. *)
Record PartialAnalysis := mkAnalysis {
  clareza : option float;
  empatia : option float;
  coerencia : option float;
  formalidade : option float;
  eficacia : option float;
  linguistica : option float;
  comentario : option jsstring
}.

Definition no_analysis : PartialAnalysis :=
  mkAnalysis None None None None None None None.

Inductive Status :=
| Aguardando_IA      (* 'Aguardando IA...' *)
| Analisado          (* 'Analisado' *)
| Falha_na_Analise.  (* 'Falha na Análise' *)

(** [word_count] is declared a number.  [processFile] writes a length,
    kept in [parsed]; a response item may carry another number, which the
    spread of [analyzeQualityBatch] writes over the length: it is kept in
    [word_count_given], and where present it is the record's [word_count]. *)
Record CleanedRecord := mkCleaned {
  parsed :> ParsedRecord;
  analysis :> PartialAnalysis;
  status : Status;
  QualityScore : option float;
  word_count_given : option float
}.

(** The properties of a record that an object of the response may carry
    besides those of [ApiResponseItem]: [JSON.parse] keeps whatever the
    service wrote and nothing checks the object against the interface.
    Each is read at the type [CleanedRecord] declares for it. *)
Module Carried.
Record t := mk {
  _id : option jsstring;
  title : option jsstring;
  community : option jsstring;
  author : option jsstring;
  text_clean : option jsstring;
  word_count : option float
}.
End Carried.

Definition no_properties : Carried.t :=
  Carried.mk None None None None None None.

(** [ApiResponseItem]: the interface declares every property, the parsed
    response is not checked against it, so each one may be absent, and the
    object may carry properties of a record as well.  An [id] that is no
    text equals no identifier, like an absent one. *)
Record ApiResponseItem := mkItem {
  id : option jsstring;
  item_analysis :> PartialAnalysis;
  carried : Carried.t
}.

(** ** Ingestion ([processFile]) *)

(** [RawRecord] of [types.ts]: every property is optional.  The source
    casts the parsed array to [RawRecord[]]; a property is read here at its
    declared type. *)
Module Raw.
Record Id := mkId { oid : option jsstring }.            (* [$oid] *)
Record Author := mkAuthor { name : option jsstring }.
Record t := mk {
  _id : option Id;
  title : option jsstring;
  community : option jsstring;
  author : option Author;
  description : option jsstring
}.
Definition empty : t := mk None None None None None.
End Raw.

(** An element of the parsed array.  The source types the array as
    [RawRecord[]] and tests each element with [typeof]. *)
Inductive Element :=
| ENull
| EBoolean (b : bool)
| ENumber (x : float)
| EString (s : jsstring)
| EArray                    (* an array: [typeof] is 'object', no property of a record *)
| EObject (item : Raw.t).

(** What [JSON.parse] returned. *)
Inductive JsonValue :=
| NotAnArray
| JsonArray (data : list Element).

(** [typeof item !== 'object' || item === null] is false. *)
Definition object_shaped (e : Element) : bool :=
  match e with
  | EArray | EObject _ => true
  | ENull | EBoolean _ | ENumber _ | EString _ => false
  end.

Definition as_record (e : Element) : option Raw.t :=
  match e with
  | EObject item => Some item
  | EArray => Some Raw.empty
  | ENull | EBoolean _ | ENumber _ | EString _ => None
  end.

(** [value || fallback] for a text that may be absent: [undefined] and the
    empty text are falsy. *)
Definition or_else (value : option jsstring) (fallback : jsstring) : jsstring :=
  match value with
  | Some (c :: s) => c :: s
  | Some [] | None => fallback
  end.

(** The nodes under the element whose [innerHTML] was set. *)
Inductive Node :=
| TextNode (data : jsstring)
| CommentNode (data : jsstring)
| ElementNode (tag : jsstring) (attributes : list (jsstring * jsstring))
    (children : list Node).

(** [node.textContent]: the data of the text nodes below, in tree order. *)
Fixpoint textContent (node : Node) : jsstring :=
  match node with
  | TextNode data => data
  | CommentNode _ => []
  | ElementNode _ _ children => flat_map textContent children
  end.

Inductive Outcome (A : Type) :=
| Resolved (value : A)
| Rejected (message : jsstring).
Arguments Resolved {A} value.
Arguments Rejected {A} message.

Inductive FileRead :=
| ReadFails                        (* [reader.onerror] *)
| FileContent (content : jsstring).

Definition syntax_error_message : jsstring :=
  js "Erro de sintaxe: O arquivo n" ++ [227%N] ++ js "o " ++ [233%N]
  ++ js " um JSON v" ++ [225%N] ++ js "lido.".

Definition not_array_message : jsstring :=
  js "Erro ao processar o arquivo: O JSON fornecido n" ++ [227%N] ++ js "o "
  ++ [233%N] ++ js " um array. O arquivo deve conter um array de objetos.".

Definition read_error_message : jsstring :=
  js "N" ++ [227%N] ++ js "o foi poss" ++ [237%N] ++ js "vel ler o arquivo.".

(** The repair of a content that did not parse. *)
Definition repair (content : jsstring) : jsstring :=
  let fixedContent := trim content in
  let fixedContent :=
    if startsWith fixedContent [LBRACE] then
      [LBRACKET] ++ join_objects None fixedContent ++ [RBRACKET]
    else if startsWith fixedContent [LBRACKET] then
      let lastBrace := lastIndexOf fixedContent RBRACE in
      let lastBracket := lastIndexOf fixedContent RBRACKET in
      if (lastBracket <? lastBrace)%Z then
        substring0 fixedContent (lastBrace + 1) ++ [RBRACKET]
      else if (-1 <? lastBracket)%Z then
        substring0 fixedContent (lastBracket + 1)
      else fixedContent
    else fixedContent in
  strip_trailing_comma fixedContent.

Section Ingestion.

(** [JSON.parse]; [None] when it throws. *)
Variable JSON_parse : jsstring -> option JsonValue.

(** The HTML parser behind [tempDiv.innerHTML = htmlString]; [None] when
    the assignment throws. *)
Variable parse_fragment : jsstring -> option (list Node).

(** The text of [Date.now()], a dash and [Math.random()] as evaluated for
    the array element at a position. *)
Variable fresh_id : nat -> jsstring.

Definition cleanHtmlAndNormalize (htmlString : jsstring) : jsstring :=
  match parse_fragment htmlString with
  | Some children =>
      let textContent := flat_map textContent children in
      (* the element is not rendered: [innerText] is [textContent] *)
      let innerText := textContent in
      let text := or_else (Some textContent) (or_else (Some innerText) []) in
      trim (replace_nbsp (replace_space_runs false text))
  | None => []
  end.

(** The record built from an object-shaped element. *)
Definition to_record (position : nat) (item : Raw.t) : ParsedRecord :=
  let descriptionRaw := or_else (Raw.description item) [] in
  let cleanText := cleanHtmlAndNormalize descriptionRaw in
  {| _id := or_else (Raw._id item ≫= Raw.oid) (fresh_id position);
     title := or_else (Raw.title item) [];
     community := or_else (Raw.community item) [];
     author := or_else (Raw.author item ≫= Raw.name) [];
     text_clean := cleanText;
     word_count :=
       match cleanText with
       | [] => 0
       | _ :: _ => length (split SPACE cleanText)
       end |}.

(** [data.map(...).filter(record => record !== null)] *)
Definition processedRecords (data : list Element) : list ParsedRecord :=
  omap (fun record => record)
       (imap (fun position item => to_record position <$> as_record item) data).

(** The two attempts at parsing: the value obtained ([None] when the last
    attempt throws) and the texts handed to [JSON.parse], in order. *)
Definition parse_content (content : jsstring) : option JsonValue * list jsstring :=
  match JSON_parse content with
  | Some data => (Some data, [content])
  | None =>
      let fixedContent := repair content in
      (JSON_parse fixedContent, [content; fixedContent])
  end.

Definition parse_attempts (content : jsstring) : list jsstring :=
  snd (parse_content content).

Definition processFile (file : FileRead) : Outcome (list ParsedRecord) :=
  match file with
  | ReadFails => Rejected read_error_message
  | FileContent content =>
      match fst (parse_content content) with
      | None => Rejected syntax_error_message
      | Some NotAnArray => Rejected not_array_message
      | Some (JsonArray data) => Resolved (processedRecords data)
      end
  end.

End Ingestion.

(** The maximal runs of characters other than spaces. *)
Definition whitespace_tokens (s : jsstring) : list jsstring :=
  List.filter (fun piece => negb (bool_decide (piece = []))) (split_where is_space s).

(** The words with one space between a word and the next. *)
Definition join_words (words : list jsstring) : jsstring :=
  match words with
  | [] => []
  | word :: rest => word ++ flat_map (fun next => SPACE :: next) rest
  end.

(** The characters before the first space, and the words after it. *)
Definition first_piece (s : jsstring) : jsstring := hd [] (split_where is_space s).

Definition later_tokens (s : jsstring) : list jsstring :=
  List.filter (fun piece => negb (bool_decide (piece = []))) (tl (split_where is_space s)).

(** *** Shapes of a normalized text *)

Definition starts_clean (s : jsstring) : bool :=
  match s with
  | c :: _ => negb (is_space c)
  | [] => true
  end.

(** No two neighbours are both spaces. *)
Fixpoint single_spaced (s : jsstring) : bool :=
  match s with
  | c :: rest => (negb (is_space c) || starts_clean rest) && single_spaced rest
  | [] => true
  end.

(** The only space character that occurs is the ordinary space. *)
Definition only_plain_spaces (s : jsstring) : bool :=
  forallb (fun c => implb (is_space c) (c =? SPACE)%N) s.

(** ** Scoring one batch ([analyzeQualityBatch]) *)

Inductive Dimension :=
| Clareza | Empatia | Coerencia | Formalidade | Eficacia | Linguistica.

(** [result[key]] for a key of [weights]. *)
Definition dimension (key : Dimension) (a : PartialAnalysis) : option float :=
  match key with
  | Clareza => clareza a
  | Empatia => empatia a
  | Coerencia => coerencia a
  | Formalidade => formalidade a
  | Eficacia => eficacia a
  | Linguistica => linguistica a
  end.

(** [Object.entries(weights)], in insertion order. *)
Definition weights : list (Dimension * float) :=
  [ (Clareza, 0.20%float); (Empatia, 0.20%float); (Coerencia, 0.20%float);
    (Formalidade, 0.15%float); (Eficacia, 0.15%float); (Linguistica, 0.10%float) ].

(** The [reduce] over the entries of [weights], starting from 0. *)
Definition qualityScore (result : PartialAnalysis) : float :=
  fold_left
    (fun acc '(key, weight) => (acc + ToNumber (dimension key result) * weight)%float)
    weights 0%float.

(** What happened to the request of one batch. *)
Inductive ScoringOutcome :=
| CallThrows                 (* [generateContent] rejects *)
| ResponseMalformed          (* [response.text] is unusable: [trim], [JSON.parse]
                                or [analysisResults.map] throws *)
| ResponseItems (items : list ApiResponseItem).

(** [new Map(analysisResults.map(res => [res.id, res]))]: a later entry
    with the same key replaces an earlier one. *)
Definition resultMap (analysisResults : list ApiResponseItem)
  : gmap (option jsstring) ApiResponseItem :=
  fold_left (fun m res => <[ id res := res ]> m) analysisResults ∅.

(** [{ ...record, ...result }] on the properties that [processFile] gave
    the record: one that the response item carries replaces the record's.
    A carried [word_count] is kept beside the length, in
    [word_count_given]. *)
Definition overwrite (record : ParsedRecord) (result : Carried.t) : ParsedRecord :=
  {| _id := default (_id record) (Carried._id result);
     title := default (title record) (Carried.title result);
     community := default (community record) (Carried.community result);
     author := default (author record) (Carried.author result);
     text_clean := default (text_clean record) (Carried.text_clean result);
     word_count := word_count record |}.

(** [{ ...record, ...result, QualityScore, status: 'Analisado' }].  The
    one caller passes records without analysis (a slice of
    [cleanedResults]), so the properties of the analysis are those of
    [result]; the properties of a record that [result] carries replace
    those of [record]; [QualityScore] and [status] are written after the
    spread; the [id] of [result] is copied too and read by nothing. *)
Definition scored (record : ParsedRecord) (result : ApiResponseItem) : CleanedRecord :=
  {| parsed := overwrite record (carried result);
     analysis := item_analysis result;
     QualityScore := Some (parseFloat (toFixed2 (qualityScore result)));
     status := Analisado;
     word_count_given := Carried.word_count (carried result) |}.

(** [{ ...record, status: 'Falha na Análise', QualityScore: 0 }] *)
Definition failed (record : ParsedRecord) : CleanedRecord :=
  {| parsed := record;
     analysis := no_analysis;
     status := Falha_na_Analise;
     QualityScore := Some 0%float;
     word_count_given := None |}.

(** The request payload: [{ id: r._id, text: r.text_clean.substring(0, 2000) }]. *)
Definition recordsToAnalyze (batch : list ParsedRecord) : list (jsstring * jsstring) :=
  map (fun r => (_id r, take 2000 (text_clean r))) batch.

Definition analyzeQualityBatch (batch : list ParsedRecord) (outcome : ScoringOutcome)
  : list CleanedRecord :=
  match outcome with
  | ResponseItems analysisResults =>
      let results := resultMap analysisResults in
      map (fun record =>
             match results !! Some (_id record) with
             | Some result => scored record result
             | None => failed record
             end) batch
  | CallThrows | ResponseMalformed => map failed batch
  end.

(** The aggregate as the specification writes it: the six weighted terms
    added from left to right, in binary64. *)
Definition weighted_sum (a : PartialAnalysis) : float :=
  (0.20 * ToNumber (clareza a) + 0.20 * ToNumber (empatia a)
   + 0.20 * ToNumber (coerencia a) + 0.15 * ToNumber (formalidade a)
   + 0.15 * ToNumber (eficacia a) + 0.10 * ToNumber (linguistica a))%float.

Definition round2 (x : float) : float := parseFloat (toFixed2 x).

(** *** The aggregate in exact arithmetic

    The score as the specification words it, to compare with
    [qualityScore]: the numbers that the scores stand for, their weighted
    sum over the rationals, and the roundings of a rational to an
    integer. *)

(** The number a binary64 value stands for: the sign, the mantissa and the
    power of two; none for NaN and the infinities. *)
Definition exact (x : float) : option Q :=
  match Prim2SF x with
  | S754_zero _ => Some 0%Q
  | S754_finite s m e =>
      Some (Qred ((if s then -1 else 1) * inject_Z (Zpos m) * 2 ^ e))%Q
  | S754_infinity _ | S754_nan => None
  end.

Definition specified_sum (c e co f ef l : Q) : Q :=
  (0.20 * c + 0.20 * e + 0.20 * co + 0.15 * f + 0.15 * ef + 0.10 * l)%Q.

(** The specified sum of six finite scores, in hundredths. *)
Definition specified_hundredths (a : PartialAnalysis) : option Q :=
  c ← clareza a ≫= exact; e ← empatia a ≫= exact; co ← coerencia a ≫= exact;
  f ← formalidade a ≫= exact; ef ← eficacia a ≫= exact; l ← linguistica a ≫= exact;
  Some (Qred (100 * specified_sum c e co f ef l)).

(** The nearest integer, with the three usual rules for a value halfway
    between two integers. *)
Definition half_up (q : Q) : Z := Qfloor (q + (1 # 2)).
Definition half_down (q : Q) : Z := Qceiling (q - (1 # 2)).
Definition half_even (q : Q) : Z :=
  if Z.even (half_up q) then half_up q else half_down q.

(** ** The run ([handleProcessClick]) *)

Inductive ProcessingStep := idle | cleaning | analyzing | done.

Record Progress := mkProgress { processed : nat; total : nat }.

(** The state of [App] that the run reads and writes. *)
Record AppState := mkApp {
  inputFile : option FileRead;       (* the selected file and what reading it gives *)
  cleanedData : list CleanedRecord;
  processingStep : ProcessingStep;
  progress : Progress;
  error : option jsstring
}.

(** What the run does to the outside. *)
Inductive Event :=
| ScoringCall (request : list (jsstring * jsstring))
| Delay (milliseconds : nat).

Definition BATCH_SIZE : nat := 10.

(** [list.slice(start, finish)] *)
Definition slice {A} (start finish : nat) (l : list A) : list A :=
  take (finish - start) (drop start l).

(** [{ ...record, status: 'Aguardando IA...' }] *)
Definition pending (record : ParsedRecord) : CleanedRecord :=
  {| parsed := record; analysis := no_analysis; status := Aguardando_IA;
     QualityScore := None; word_count_given := None |}.

(** The optional properties of [{ ...below, ...above }]: a property of
    [above] wins, one that [above] lacks is kept from [below]. *)
Definition overlay (below above : PartialAnalysis) : PartialAnalysis :=
  {| clareza := clareza above ∪ clareza below;
     empatia := empatia above ∪ empatia below;
     coerencia := coerencia above ∪ coerencia below;
     formalidade := formalidade above ∪ formalidade below;
     eficacia := eficacia above ∪ eficacia below;
     linguistica := linguistica above ∪ linguistica below;
     comentario := comentario above ∪ comentario below |}.

(** [{ ...item, ...analyzedRecord }]: [analyzedRecord] has every property
    of a record, [word_count] among them, and a [status]. *)
Definition spread (item analyzedRecord : CleanedRecord) : CleanedRecord :=
  {| parsed := parsed analyzedRecord;
     analysis := overlay item analyzedRecord;
     status := status analyzedRecord;
     QualityScore := QualityScore analyzedRecord ∪ QualityScore item;
     word_count_given := word_count_given analyzedRecord |}.

(** [newData.findIndex(item => item._id === analyzedRecord._id)] with the
    element found; [None] is -1. *)
Definition findIndex (newData : list CleanedRecord) (analyzedRecord : CleanedRecord)
  : option (nat * CleanedRecord) :=
  list_find (fun item : CleanedRecord => _id item = _id analyzedRecord) newData.

(** One turn of the [forEach] in the updater of [setCleanedData]. *)
Definition merge_record (newData : list CleanedRecord) (analyzedRecord : CleanedRecord)
  : list CleanedRecord :=
  match findIndex newData analyzedRecord with
  | Some (index, item) => <[ index := spread item analyzedRecord ]> newData
  | None => newData
  end.

(** The updater: [prevData] with the analysed batch merged in. *)
Definition merge_batch (prevData : list CleanedRecord) (analyzedBatch : list CleanedRecord)
  : list CleanedRecord :=
  fold_left merge_record analyzedBatch prevData.

(** The positions assigned by the updater, in order. *)
Fixpoint merge_writes (newData : list CleanedRecord) (analyzedBatch : list CleanedRecord)
  : list nat :=
  match analyzedBatch with
  | [] => []
  | analyzedRecord :: rest =>
      match findIndex newData analyzedRecord with
      | Some (index, _) => index :: merge_writes (merge_record newData analyzedRecord) rest
      | None => merge_writes newData rest
      end
  end.

(** The loop as it stands after some turns. *)
Record Scheduler := mkScheduler {
  data : list CleanedRecord;            (* [cleanedData] *)
  counter : Progress;                   (* [progress] *)
  events : list Event;
  renders : list (list CleanedRecord);  (* the values [cleanedData] has taken *)
  writes : list nat                     (* the positions the updater assigned *)
}.

Definition select_file_message : jsstring :=
  js "Por favor, selecione um arquivo JSON primeiro.".

Definition no_record_message : jsstring :=
  js "Nenhum registro v" ++ [225%N] ++ js "lido encontrado no arquivo.".

Section Run.

Variable JSON_parse : jsstring -> option JsonValue.
Variable parse_fragment : jsstring -> option (list Node).
Variable fresh_id : nat -> jsstring.

(** The outcome of the request made for the batch that starts at a
    position. *)
Variable scoring : nat -> ScoringOutcome.

(** The body of the [for] loop at [i]. *)
Definition batch_turn (cleanedResults : list ParsedRecord) (i : nat) (s : Scheduler)
  : Scheduler :=
  let batch := slice i (i + BATCH_SIZE) cleanedResults in
  let analyzedBatch := analyzeQualityBatch batch (scoring i) in
  let newData := merge_batch (data s) analyzedBatch in
  {| data := newData;
     counter :=
       {| processed := Nat.min (processed (counter s) + length batch) (length cleanedResults);
          total := total (counter s) |};
     events :=
       events s ++ [ScoringCall (recordsToAnalyze batch)]
       ++ (if i + BATCH_SIZE <? length cleanedResults then [Delay 5000] else []);
     renders := renders s ++ [newData];
     writes := writes s ++ merge_writes (data s) analyzedBatch |}.

(** [for (let i = ...; i < cleanedResults.length; i += BATCH_SIZE)]; every
    turn moves [i] forward, so [length cleanedResults] turns are enough. *)
Fixpoint batch_loop (fuel : nat) (cleanedResults : list ParsedRecord) (i : nat)
    (s : Scheduler) : Scheduler :=
  match fuel with
  | 0 => s
  | S fuel' =>
      if i <? length cleanedResults
      then batch_loop fuel' cleanedResults (i + BATCH_SIZE) (batch_turn cleanedResults i s)
      else s
  end.

(** What a run leaves: the final state, and what it did on the way. *)
Record Run := mkRun {
  final : AppState;
  run_events : list Event;
  run_renders : list (list CleanedRecord);
  run_writes : list nat
}.

(** The run started from [state].  The client of the scoring service is
    taken to be constructed without an error, so that the only rejection
    the [catch] sees is the one of [processFile]. *)
Definition handleProcessClick (state : AppState) : Run :=
  match inputFile state with
  | None =>
      {| final := mkApp (inputFile state) (cleanedData state) (processingStep state)
                    (progress state) (Some select_file_message);
         run_events := []; run_renders := []; run_writes := [] |}
  | Some file =>
      (* state after the resets: no error, no data, step cleaning, 0 of 0 *)
      match processFile JSON_parse parse_fragment fresh_id file with
      | Rejected message =>
          {| final := mkApp (inputFile state) [] idle (mkProgress 0 0) (Some message);
             run_events := []; run_renders := [[]]; run_writes := [] |}
      | Resolved cleanedResults =>
          match cleanedResults with
          | [] =>
              {| final := mkApp (inputFile state) [] done (mkProgress 0 0)
                            (Some no_record_message);
                 run_events := []; run_renders := [[]]; run_writes := [] |}
          | _ :: _ =>
              let initialData := map pending cleanedResults in
              let s :=
                batch_loop (length cleanedResults) cleanedResults 0
                  {| data := initialData;
                     counter := mkProgress 0 (length cleanedResults);
                     events := [];
                     renders := [[]; initialData];
                     writes := [] |} in
              {| final := mkApp (inputFile state) (data s) done (counter s) None;
                 run_events := events s;
                 run_renders := renders s;
                 run_writes := writes s |}
          end
      end
  end.

End Run.

(** The state before a run, with a file selected or not. *)
Definition initial_state (file : option FileRead) : AppState :=
  mkApp file [] idle (mkProgress 0 0) None.

(** What one record becomes under the outcome of its batch. *)
Definition settle (outcome : ScoringOutcome) (record : ParsedRecord) : CleanedRecord :=
  match outcome with
  | ResponseItems analysisResults =>
      match resultMap analysisResults !! Some (_id record) with
      | Some result => scored record result
      | None => failed record
      end
  | CallThrows | ResponseMalformed => failed record
  end.

(** The position at which the batch of position [j] starts. *)
Definition batch_start (j : nat) : nat := j / BATCH_SIZE * BATCH_SIZE.

(** No record is given another identifier by the response item that
    settles it: that item carries no [_id], or the record's own. *)
Definition identifiers_kept (scoring : nat -> ScoringOutcome)
    (cleanedResults : list ParsedRecord) : Prop :=
  forall j record,
    cleanedResults !! j = Some record ->
    _id (settle (scoring (batch_start j)) record) = _id record.

Definition scoring_calls (log : list Event) : list (list (jsstring * jsstring)) :=
  omap (fun e => match e with ScoringCall request => Some request | Delay _ => None end) log.

(** *** The loop in closed form *)

Section ClosedForm.

Variable scoring : nat -> ScoringOutcome.
Variable cleanedResults : list ParsedRecord.

(** The collection once the batches that start below [i] are merged. *)
Definition collection_after (i : nat) : list CleanedRecord :=
  imap (fun j record =>
          if j <? i then settle (scoring (batch_start j)) record else pending record)
       cleanedResults.

Definition batch_events (i : nat) : list Event :=
  [ScoringCall (recordsToAnalyze (slice i (i + BATCH_SIZE) cleanedResults))]
  ++ (if i + BATCH_SIZE <? length cleanedResults then [Delay 5000] else []).

(** The number of batches. *)
Definition batches : nat := (length cleanedResults + (BATCH_SIZE - 1)) / BATCH_SIZE.

(** The loop after [k] turns, in closed form. *)
Definition scheduler_after (k : nat) : Scheduler :=
  {| data := collection_after (k * BATCH_SIZE);
     counter := mkProgress (Nat.min (k * BATCH_SIZE) (length cleanedResults))
                  (length cleanedResults);
     events := flat_map (fun k' => batch_events (k' * BATCH_SIZE)) (seq 0 k);
     renders := [] :: map (fun k' => collection_after (k' * BATCH_SIZE)) (seq 0 (S k));
     writes := seq 0 (Nat.min (k * BATCH_SIZE) (length cleanedResults)) |}.

End ClosedForm.

(** ** Filtering the displayed records (the [useEffect] of [App]) *)

Module Filters.
Record t := mk { title : jsstring; community : jsstring; author : jsstring }.
End Filters.

(** The initial state of [filters]. *)
Definition no_filters : Filters.t := Filters.mk [] [] [].

Section Display.

(** [String.prototype.toLowerCase], a function of the platform. *)
Variable toLowerCase : jsstring -> jsstring.

Definition displayedData (filters : Filters.t) (cleanedData : list CleanedRecord)
  : list CleanedRecord :=
  let lowercased_title := toLowerCase (Filters.title filters) in
  let lowercased_community := toLowerCase (Filters.community filters) in
  let lowercased_author := toLowerCase (Filters.author filters) in
  List.filter
    (fun item : CleanedRecord =>
       includes (toLowerCase (title item)) lowercased_title
       && includes (toLowerCase (community item)) lowercased_community
       && includes (toLowerCase (author item)) lowercased_author)
    cleanedData.

End Display.

(** Lower case for the letters A to Z only; an instance of [toLowerCase]
    on ASCII text. *)
Definition ascii_toLowerCase (s : jsstring) : jsstring :=
  map (fun c => if (65 <=? c)%N && (c <=? 90)%N then (c + 32)%N else c) s.

(** ** CSV export ([convertToCsv]) *)

Module Csv.

(** The value of a property read from a record. *)
Inductive Value :=
| VString (s : jsstring)
| VNumber (x : float)
| VCount (n : nat).      (* [word_count], a length *)

Definition status_text (st : Status) : jsstring :=
  match st with
  | Aguardando_IA => js "Aguardando IA..."
  | Analisado => js "Analisado"
  | Falha_na_Analise => js "Falha na An" ++ [225%N] ++ js "lise"
  end.

Definition headers : list jsstring :=
  [ js "title"; js "community"; js "author"; js "text_clean"; js "word_count";
    js "clareza"; js "empatia"; js "coerencia"; js "formalidade"; js "eficacia";
    js "linguistica"; js "QualityScore"; js "comentario"; js "status" ].

(** [row[header]]; [None] is [undefined]. *)
Definition property (row : CleanedRecord) (header : jsstring) : option Value :=
  if decide (header = js "title") then Some (VString (title row))
  else if decide (header = js "community") then Some (VString (community row))
  else if decide (header = js "author") then Some (VString (author row))
  else if decide (header = js "text_clean") then Some (VString (text_clean row))
  else if decide (header = js "word_count")
  then Some (match word_count_given row with
             | Some number => VNumber number
             | None => VCount (word_count row)
             end)
  else if decide (header = js "clareza") then VNumber <$> clareza row
  else if decide (header = js "empatia") then VNumber <$> empatia row
  else if decide (header = js "coerencia") then VNumber <$> coerencia row
  else if decide (header = js "formalidade") then VNumber <$> formalidade row
  else if decide (header = js "eficacia") then VNumber <$> eficacia row
  else if decide (header = js "linguistica") then VNumber <$> linguistica row
  else if decide (header = js "QualityScore") then VNumber <$> QualityScore row
  else if decide (header = js "comentario") then VString <$> comentario row
  else if decide (header = js "status") then Some (VString (status_text (status row)))
  else None.

Fixpoint digits (fuel n : nat) (acc : jsstring) : jsstring :=
  match fuel with
  | 0 => acc
  | S fuel' =>
      let acc' := N.of_nat (48 + n mod 10) :: acc in
      if n / 10 =? 0 then acc' else digits fuel' (n / 10) acc'
  end.

(** The decimal digits of a natural number. *)
Definition count_toString (n : nat) : jsstring := digits (S n) n [].

(** [list.join(sep)] *)
Fixpoint join (sep : jsstring) (l : list jsstring) : jsstring :=
  match l with
  | [] => []
  | [x] => x
  | x :: rest => x ++ sep ++ join sep rest
  end.

(** The global [replace] of the source: every quote becomes two quotes. *)
Definition escape_quotes (s : jsstring) : jsstring :=
  flat_map (fun c => if (c =? QUOTE)%N then [QUOTE; QUOTE] else [c]) s.

Section Serialization.

(** [Number::toString], a function of the platform. *)
Variable Number_toString : float -> jsstring.

(** ['' + value] *)
Definition to_string (v : Value) : jsstring :=
  match v with
  | VString s => s
  | VNumber x => Number_toString x
  | VCount n => count_toString n
  end.

(** ['' + (row[header] ?? '')] *)
Definition field_text (row : CleanedRecord) (header : jsstring) : jsstring :=
  match property row header with
  | Some v => to_string v
  | None => []
  end.

Definition quoted (text : jsstring) : jsstring :=
  [QUOTE] ++ escape_quotes text ++ [QUOTE].

Definition csv_row (row : CleanedRecord) : jsstring :=
  join [COMMA] (map (fun header => quoted (field_text row header)) headers).

Definition convertToCsv (data : list CleanedRecord) : jsstring :=
  match data with
  | [] => []
  | _ :: _ => join [LF] (join [COMMA] headers :: map csv_row data)
  end.

(** The texts of the properties of a record, in the order of the columns. *)
Definition row_texts (row : CleanedRecord) : list jsstring :=
  map (field_text row) headers.

End Serialization.

(** *** Reading quoted CSV back (RFC 4180)

    The reference reader of the round trip: fields are separated by commas
    and records by line breaks; a field that opens with a quote extends to
    its closing quote, and a doubled quote inside it stands for one quote. *)

Inductive ReaderState := FieldStart | Unquoted | Quoted | AfterQuote.

Definition add_char (c : N) (rows : list (list jsstring)) : list (list jsstring) :=
  match rows with
  | (field :: fields) :: rows' => ((c :: field) :: fields) :: rows'
  | [] :: rows' => [[c]] :: rows'
  | [] => [[[c]]]
  end.

Definition new_field (rows : list (list jsstring)) : list (list jsstring) :=
  match rows with
  | fields :: rows' => ([] :: fields) :: rows'
  | [] => [[[]]]
  end.

Definition new_row (rows : list (list jsstring)) : list (list jsstring) :=
  [[]] :: rows.

(** The records from [text] on; the first field of the first record is
    the one being read. *)
Fixpoint read (st : ReaderState) (text : jsstring) : list (list jsstring) :=
  match text with
  | [] => [[[]]]
  | c :: rest =>
      match st with
      | Quoted =>
          if (c =? QUOTE)%N then read AfterQuote rest
          else add_char c (read Quoted rest)
      | FieldStart | Unquoted | AfterQuote =>
          if (c =? QUOTE)%N then
            match st with
            | FieldStart => read Quoted rest
            | AfterQuote => add_char QUOTE (read Quoted rest)
            | _ => add_char c (read Unquoted rest)
            end
          else if (c =? COMMA)%N then new_field (read FieldStart rest)
          else if (c =? LF)%N then
            match rest with
            | [] => [[[]]]
            | _ :: _ => new_row (read FieldStart rest)
            end
          else if (c =? CR)%N && startsWith rest [LF] then read st rest
          else add_char c (read Unquoted rest)
      end
  end.

Definition parse_csv (text : jsstring) : list (list jsstring) :=
  match text with
  | [] => []
  | _ :: _ => read FieldStart text
  end.

(** *** Notions used to state the round trip *)

(** Characters that need no quoting. *)
Definition plain (c : N) : bool :=
  negb ((c =? QUOTE)%N || (c =? COMMA)%N || (c =? LF)%N || (c =? CR)%N).

Definition prepend (text : jsstring) (rows : list (list jsstring)) : list (list jsstring) :=
  fold_right add_char rows text.

(** What may follow a record: the end of the text, or a line break and
    more text.  [rows] are the records read from there on. *)
Inductive record_end : jsstring -> list (list jsstring) -> Prop :=
| end_of_text : record_end [] []
| end_of_line (c : N) (more : jsstring) :
    record_end (LF :: c :: more) (read FieldStart (c :: more)).

End Csv.

(** ** The rest of the component tree *)

(** [s.endsWith(search)] *)
Definition endsWith (s search : jsstring) : bool := startsWith (rev s) (rev search).

(** [isProcessing] of [App]. *)
Definition isProcessing (step : ProcessingStep) : bool :=
  match step with
  | cleaning | analyzing => true
  | idle | done => false
  end.

(** The updater of [handleFilterChange]: [{ ...prev, [name]: value }].  The
    three inputs are named title, community and author; under any other
    name the object gains a property that no filter reads. *)
Definition handleFilterChange (name value : jsstring) (prev : Filters.t) : Filters.t :=
  if decide (name = js "title") then
    Filters.mk value (Filters.community prev) (Filters.author prev)
  else if decide (name = js "community") then
    Filters.mk (Filters.title prev) value (Filters.author prev)
  else if decide (name = js "author") then
    Filters.mk (Filters.title prev) (Filters.community prev) value
  else prev.

(** *** The download ([handleDownloadClick]) *)

(** What the click hands to the browser: the [download] attribute of the
    link and the text and type of the blob behind it. *)
Record Download := mkDownload {
  download : jsstring;
  blob : jsstring;
  blob_type : jsstring
}.

(** [outputFileName.endsWith('.csv') ? outputFileName : `${outputFileName}.csv`] *)
Definition download_name (outputFileName : jsstring) : jsstring :=
  if endsWith outputFileName (js ".csv") then outputFileName
  else outputFileName ++ js ".csv".

Section DownloadClick.

Variable Number_toString : float -> jsstring.

(** [None]: the handler returns before it builds a link. *)
Definition handleDownloadClick (displayedData : list CleanedRecord)
    (outputFileName : jsstring) : option Download :=
  match displayedData with
  | [] => None
  | _ :: _ =>
      Some {| download := download_name outputFileName;
              blob := Csv.convertToCsv Number_toString displayedData;
              blob_type := js "text/csv;charset=utf-8;" |}
  end.

End DownloadClick.

(** *** Selecting the file ([FileUploader]) *)

Module FileUploader.

(** A [File]: its name, and what reading it gives. *)
Record File := mkFile { name : jsstring; read : FileRead }.

(** The state of the component.  Its [disabled] property goes to the input
    element and to the class name; no handler reads it. *)
Record State := mkState { dragActive : bool; selectedFile : option File }.

Definition initial : State := mkState false None.

(** [files && files[0]] for a list of files that may be null. *)
Definition first_file (files : option (list File)) : option File := files ≫= head.

Inductive Event :=
| Drag (type : jsstring)                  (* [handleDrag], with [e.type] *)
| Drop (files : option (list File))       (* [handleDrop], with [e.dataTransfer.files] *)
| Change (files : option (list File)).    (* [handleChange], with [e.target.files] *)

Section Handlers.

(** The state of the parent, and the [onFileSelect] it passes down. *)
Context {Parent : Type}.
Variable onFileSelect : File -> Parent -> Parent.

Definition handleDrag (type : jsstring) (s : State) : State :=
  if bool_decide (type = js "dragenter") || bool_decide (type = js "dragover") then
    mkState true (selectedFile s)
  else if bool_decide (type = js "dragleave") then mkState false (selectedFile s)
  else s.

Definition handleDrop (files : option (list File)) (s : State) (p : Parent)
  : State * Parent :=
  match first_file files with
  | Some file => (mkState false (Some file), onFileSelect file p)
  | None => (mkState false (selectedFile s), p)
  end.

Definition handleChange (files : option (list File)) (s : State) (p : Parent)
  : State * Parent :=
  match first_file files with
  | Some file => (mkState (dragActive s) (Some file), onFileSelect file p)
  | None => (s, p)
  end.

Definition handle (sp : State * Parent) (e : Event) : State * Parent :=
  match e with
  | Drag type => (handleDrag type (fst sp), snd sp)
  | Drop files => handleDrop files (fst sp) (snd sp)
  | Change files => handleChange files (fst sp) (snd sp)
  end.

End Handlers.

(** The file an event selects, if it selects one. *)
Definition chosen (e : Event) : option File :=
  match e with
  | Drag _ => None
  | Drop files | Change files => first_file files
  end.

End FileUploader.

(** [setInputFile], which [App] passes as [onFileSelect]. *)
Definition setInputFile (file : FileUploader.File) (state : AppState) : AppState :=
  mkApp (Some (FileUploader.read file)) (cleanedData state) (processingStep state)
        (progress state) (error state).

(** ** An instance of [JSON.parse]

    The JSON grammar of ECMA-404 as [JSON.parse] reads it, and the view of
    the parsed value at the types of [types.ts].  The properties below hold
    for every parser; this one runs the ingestion on the sample files. *)

Module Json.

Inductive Token :=
| LeftBrace | RightBrace | LeftBracket | RightBracket | Colon | Comma
| Text (s : jsstring)
| Number (lexeme : jsstring)
| Word (letters : jsstring).

Inductive Value :=
| Null
| Bool (b : bool)
| Num (x : float)
| Str (s : jsstring)
| Arr (elements : list Value)
| Obj (members : list (jsstring * Value)).

(** Where the reader of tokens stands; the characters read are kept last
    first. *)
Inductive Lexing :=
| Between
| InText (read : jsstring)
| InEscape (read : jsstring)
| InUnicode (read : jsstring) (digits : list N)
| InNumber (read : jsstring)
| InWord (read : jsstring).

Definition is_json_space (c : N) : bool :=
  ((c =? 32) || (c =? 9) || (c =? 10) || (c =? 13))%N.

Definition is_digit (c : N) : bool := ((48 <=? c) && (c <=? 57))%N.

Definition is_letter (c : N) : bool := ((97 <=? c) && (c <=? 122))%N.

(** The characters a number is written with. *)
Definition is_number_char (c : N) : bool :=
  (is_digit c || (c =? 45) || (c =? 43) || (c =? 46) || (c =? 101) || (c =? 69))%N.

Definition punctuation (c : N) : option Token :=
  if (c =? LBRACE)%N then Some LeftBrace
  else if (c =? RBRACE)%N then Some RightBrace
  else if (c =? LBRACKET)%N then Some LeftBracket
  else if (c =? RBRACKET)%N then Some RightBracket
  else if (c =? 58)%N then Some Colon
  else if (c =? COMMA)%N then Some Comma
  else None.

(** The character an escape of one letter stands for. *)
Definition escaped (c : N) : option N :=
  if ((c =? 34) || (c =? 92) || (c =? 47))%N then Some c
  else if (c =? 98)%N then Some 8%N
  else if (c =? 102)%N then Some 12%N
  else if (c =? 110)%N then Some 10%N
  else if (c =? 114)%N then Some 13%N
  else if (c =? 116)%N then Some 9%N
  else None.

Definition hex_digit (c : N) : option N :=
  if is_digit c then Some (c - 48)%N
  else if ((97 <=? c) && (c <=? 102))%N then Some (c - 87)%N
  else if ((65 <=? c) && (c <=? 70))%N then Some (c - 55)%N
  else None.

(** What a character starts between two tokens. *)
Definition start_token (c : N) (out : list Token) : option (Lexing * list Token) :=
  if is_json_space c then Some (Between, out)
  else match punctuation c with
       | Some t => Some (Between, t :: out)
       | None =>
           if (c =? QUOTE)%N then Some (InText [], out)
           else if (c =? 45)%N || is_digit c then Some (InNumber [c], out)
           else if is_letter c then Some (InWord [c], out)
           else None
       end.

(** The tokens of a text; [None] when it has a character or a string that
    JSON does not allow. *)
Fixpoint lex (st : Lexing) (out : list Token) (s : jsstring) : option (list Token) :=
  match s with
  | [] =>
      match st with
      | Between => Some (rev out)
      | InNumber read => Some (rev (Number (rev read) :: out))
      | InWord read => Some (rev (Word (rev read) :: out))
      | InText _ | InEscape _ | InUnicode _ _ => None
      end
  | c :: rest =>
      match st with
      | Between =>
          match start_token c out with
          | Some (st', out') => lex st' out' rest
          | None => None
          end
      | InText read =>
          if (c =? QUOTE)%N then lex Between (Text (rev read) :: out) rest
          else if (c =? 92)%N then lex (InEscape read) out rest
          else if (c <? 32)%N then None
          else lex (InText (c :: read)) out rest
      | InEscape read =>
          match escaped c with
          | Some d => lex (InText (d :: read)) out rest
          | None => if (c =? 117)%N then lex (InUnicode read []) out rest else None
          end
      | InUnicode read digits =>
          match hex_digit c with
          | Some d =>
              match digits with
              | [d1; d2; d3] =>
                  lex (InText ((((d1 * 16 + d2) * 16 + d3) * 16 + d)%N :: read)) out rest
              | _ => lex (InUnicode read (digits ++ [d])) out rest
              end
          | None => None
          end
      | InNumber read =>
          if is_number_char c then lex (InNumber (c :: read)) out rest
          else match start_token c (Number (rev read) :: out) with
               | Some (st', out') => lex st' out' rest
               | None => None
               end
      | InWord read =>
          if is_letter c then lex (InWord (c :: read)) out rest
          else match start_token c (Word (rev read) :: out) with
               | Some (st', out') => lex st' out' rest
               | None => None
               end
      end
  end.

(** The digits at the start of a text and what follows them. *)
Fixpoint span_digits (s : jsstring) : jsstring * jsstring :=
  match s with
  | c :: rest =>
      if is_digit c then let (digits, after) := span_digits rest in (c :: digits, after)
      else ([], s)
  | [] => ([], [])
  end.

Definition digits_value (digits : jsstring) : Z :=
  fold_left (fun acc c => (10 * acc + (Z.of_N c - 48))%Z) digits 0%Z.

(** The binary64 value nearest to [mantissa * 10 ^ exponent]. *)
Definition decimal_value (negative : bool) (mantissa exponent : Z) : float :=
  match mantissa with
  | Zpos m =>
      if (0 <=? exponent)%Z then
        SF2Prim (binary_normalize prec emax
                   ((if negative then -1 else 1) * mantissa * 10 ^ exponent)%Z 0 false)
      else
        SF2Prim (SF64div (S754_finite negative m 0)
                   (S754_finite false (Z.to_pos (10 ^ (- exponent))) 0))
  | _ => if negative then (-0)%float else 0%float
  end.

(** The value of a lexeme that follows the grammar of numbers: a sign, an
    integer without a leading zero, a fraction, an exponent. *)
Definition number_value (lexeme : jsstring) : option float :=
  let (negative, unsigned) :=
    match lexeme with
    | c :: rest => if (c =? 45)%N then (true, rest) else (false, lexeme)
    | [] => (false, [])
    end in
  let (integer, after_integer) := span_digits unsigned in
  let integer_ok :=
    match integer with
    | [] => false
    | c :: more => negb ((c =? 48)%N && negb (bool_decide (more = [])))
    end in
  let '(fraction, fraction_ok, after_fraction) :=
    match after_integer with
    | c :: rest =>
        if (c =? 46)%N then
          let (digits, after) := span_digits rest in
          (digits, negb (bool_decide (digits = [])), after)
        else ([], true, after_integer)
    | [] => ([], true, [])
    end in
  let '(exponent, exponent_ok) :=
    match after_fraction with
    | [] => (0%Z, true)
    | c :: rest =>
        if ((c =? 101) || (c =? 69))%N then
          let (minus, rest') :=
            match rest with
            | d :: more =>
                if (d =? 45)%N then (true, more)
                else if (d =? 43)%N then (false, more) else (false, rest)
            | [] => (false, [])
            end in
          let (digits, after) := span_digits rest' in
          ((if minus then - digits_value digits else digits_value digits)%Z,
           negb (bool_decide (digits = [])) && bool_decide (after = []))
        else (0%Z, false)
    end in
  if integer_ok && fraction_ok && exponent_ok then
    Some (decimal_value negative (digits_value (integer ++ fraction))
            (exponent - Z.of_nat (length fraction)))
  else None.

Definition literal (letters : jsstring) : option Value :=
  if decide (letters = js "true") then Some (Bool true)
  else if decide (letters = js "false") then Some (Bool false)
  else if decide (letters = js "null") then Some Null
  else None.

(** The value at the start of the tokens and the tokens after it; the
    elements of an array after its opening bracket or a comma; the members
    of an object likewise. *)
Fixpoint parse_value (fuel : nat) (tokens : list Token) : option (Value * list Token) :=
  match fuel with
  | 0 => None
  | S fuel' =>
      match tokens with
      | Text s :: rest => Some (Str s, rest)
      | Number lexeme :: rest => (fun x => (Num x, rest)) <$> number_value lexeme
      | Word letters :: rest => (fun v => (v, rest)) <$> literal letters
      | LeftBracket :: RightBracket :: rest => Some (Arr [], rest)
      | LeftBracket :: rest =>
          match parse_elements fuel' rest with
          | Some (elements, rest') => Some (Arr elements, rest')
          | None => None
          end
      | LeftBrace :: RightBrace :: rest => Some (Obj [], rest)
      | LeftBrace :: rest =>
          match parse_members fuel' rest with
          | Some (members, rest') => Some (Obj members, rest')
          | None => None
          end
      | _ => None
      end
  end
with parse_elements (fuel : nat) (tokens : list Token)
  : option (list Value * list Token) :=
  match fuel with
  | 0 => None
  | S fuel' =>
      match parse_value fuel' tokens with
      | Some (v, Comma :: rest) =>
          match parse_elements fuel' rest with
          | Some (elements, rest') => Some (v :: elements, rest')
          | None => None
          end
      | Some (v, RightBracket :: rest) => Some ([v], rest)
      | _ => None
      end
  end
with parse_members (fuel : nat) (tokens : list Token)
  : option (list (jsstring * Value) * list Token) :=
  match fuel with
  | 0 => None
  | S fuel' =>
      match tokens with
      | Text key :: Colon :: rest =>
          match parse_value fuel' rest with
          | Some (v, Comma :: rest') =>
              match parse_members fuel' rest' with
              | Some (members, rest'') => Some ((key, v) :: members, rest'')
              | None => None
              end
          | Some (v, RightBrace :: rest') => Some ([(key, v)], rest')
          | _ => None
          end
      | _ => None
      end
  end.

(** [JSON.parse(text)]; [None] is the syntax error.  A value nests no
    deeper than it has tokens, and every nesting takes two turns. *)
Definition parse (text : jsstring) : option Value :=
  match lex Between [] text with
  | Some tokens =>
      match parse_value (2 * length tokens + 2) tokens with
      | Some (v, []) => Some v
      | _ => None
      end
  | None => None
  end.

(** [object[key]]: of two members with the same key the later one counts. *)
Definition member (members : list (jsstring * Value)) (key : jsstring) : option Value :=
  snd <$> List.find (fun m => bool_decide (fst m = key)) (rev members).

Definition text_member (members : list (jsstring * Value)) (key : jsstring)
  : option jsstring :=
  match member members key with
  | Some (Str s) => Some s
  | _ => None
  end.

(** The members of the object [object[key]], when it is one. *)
Definition object_member (members : list (jsstring * Value)) (key : jsstring)
  : option (list (jsstring * Value)) :=
  match member members key with
  | Some (Obj inner) => Some inner
  | _ => None
  end.

(** An object read as a [RawRecord]. *)
Definition as_raw (members : list (jsstring * Value)) : Raw.t :=
  {| Raw._id := (fun inner => Raw.mkId (text_member inner (js "$oid")))
                <$> object_member members (js "_id");
     Raw.title := text_member members (js "title");
     Raw.community := text_member members (js "community");
     Raw.author := (fun inner => Raw.mkAuthor (text_member inner (js "name")))
                   <$> object_member members (js "author");
     Raw.description := text_member members (js "description") |}.

Definition as_element (v : Value) : Element :=
  match v with
  | Null => ENull
  | Bool b => EBoolean b
  | Num x => ENumber x
  | Str s => EString s
  | Arr _ => EArray
  | Obj members => EObject (as_raw members)
  end.

Definition as_data (v : Value) : JsonValue :=
  match v with
  | Arr elements => JsonArray (map as_element elements)
  | _ => NotAnArray
  end.

End Json.

(** ** Sample data *)

Definition sample_record (ident : string) : ParsedRecord :=
  {| _id := js ident; title := js "Aviso"; community := js "Norte";
     author := js "Ana"; text_clean := js "Reuniao amanha"; word_count := 2 |}.

Definition sample_analysis : PartialAnalysis :=
  mkAnalysis (Some 8%float) (Some 7%float) (Some 9%float) (Some 6%float)
             (Some 8%float) (Some 10%float) (Some (js "Bom")).

Definition sample_item (ident : string) : ApiResponseItem :=
  {| id := Some (js ident); item_analysis := sample_analysis;
     carried := no_properties |}.

(** A response item without its [clareza] property. *)
Definition incomplete_item (ident : string) : ApiResponseItem :=
  {| id := Some (js ident);
     item_analysis :=
       mkAnalysis None (Some 7%float) (Some 9%float) (Some 6%float)
                  (Some 8%float) (Some 10%float) (Some (js "Bom"));
     carried := no_properties |}.

(** Two response items whose specified sums, 0.075 and 0.125, lie halfway
    between two hundredths. *)
Definition formalidade_half (ident : string) : ApiResponseItem :=
  {| id := Some (js ident);
     item_analysis :=
       mkAnalysis (Some 0%float) (Some 0%float) (Some 0%float) (Some 0.5%float)
                  (Some 0%float) (Some 0%float) None;
     carried := no_properties |}.

Definition clareza_five_eighths (ident : string) : ApiResponseItem :=
  {| id := Some (js ident);
     item_analysis :=
       mkAnalysis (Some 0.625%float) (Some 0%float) (Some 0%float) (Some 0%float)
                  (Some 0%float) (Some 0%float) None;
     carried := no_properties |}.

(** *** Sample inputs of the ingestion *)

Definition in_quotes (s : string) : jsstring := [QUOTE] ++ js s ++ [QUOTE].

Definition hello_markup : jsstring := js "<p>Hello&nbsp;world</p>".

(** The text of the array with the one object of title A and description
    [hello_markup]. *)
Definition hello_file : jsstring :=
  js "[{" ++ in_quotes "title" ++ js ":" ++ in_quotes "A" ++ js ","
  ++ in_quotes "description" ++ js ":" ++ in_quotes "<p>Hello&nbsp;world</p>"
  ++ js "}]".

Definition hello_item : Raw.t :=
  Raw.mk None (Some (js "A")) None None (Some hello_markup).

Definition hello_nodes : list Node :=
  [ElementNode (js "p") [] [TextNode (js "Hello" ++ [NBSP] ++ js "world")]].

(** A description whose markup is written with character references, and
    the array with the one object of title A and this description. *)
Definition escaped_markup : jsstring := js "&lt;b&gt;bold&lt;/b&gt;".

Definition escaped_file : jsstring :=
  js "[{" ++ in_quotes "title" ++ js ":" ++ in_quotes "A" ++ js ","
  ++ in_quotes "description" ++ js ":" ++ in_quotes "&lt;b&gt;bold&lt;/b&gt;"
  ++ js "}]".

Definition titled (name : string) : Raw.t :=
  Raw.mk None (Some (js name)) None None None.

(** Two objects one after the other, without an array around them. *)
Definition two_objects : jsstring :=
  js "{" ++ in_quotes "title" ++ js ":" ++ in_quotes "A" ++ js "}"
  ++ js "{" ++ in_quotes "title" ++ js ":" ++ in_quotes "B" ++ js "}".

Definition two_objects_repaired : jsstring :=
  js "[{" ++ in_quotes "title" ++ js ":" ++ in_quotes "A" ++ js "},"
  ++ js "{" ++ in_quotes "title" ++ js ":" ++ in_quotes "B" ++ js "}]".

(** An array whose elements are a number, null, an object, a text, an
    array and a boolean. *)
Definition mixed_file : jsstring :=
  js "[1,null,{" ++ in_quotes "title" ++ js ":" ++ in_quotes "A" ++ js "},"
  ++ in_quotes "x" ++ js ",[],true]".

Definition mixed_data : list Element :=
  [ENumber 1%float; ENull; EObject (titled "A"); EString (js "x"); EArray; EBoolean true].

(** Files of objects that carry nothing but an identifier. *)
Definition identified (ident : string) : Raw.t :=
  Raw.mk (Some (Raw.mkId (Some (js ident)))) None None None None.

Definition identified_text (ident : string) : jsstring :=
  js "{" ++ in_quotes "_id" ++ js ":{" ++ in_quotes "$oid" ++ js ":"
  ++ in_quotes ident ++ js "}}".

Definition file_of_ids (idents : list string) : jsstring :=
  js "[" ++ Csv.join [COMMA] (map identified_text idents) ++ js "]".

Definition data_of_ids (idents : list string) : list Element :=
  map (fun ident => EObject (identified ident)) idents.

(** Two records with the same identifier. *)
Definition twin_ids : list string := ["x"; "x"]%string.

(** Eleven records, the first and the last with the same identifier. *)
Definition eleven_ids : list string :=
  ["x"; "b"; "c"; "d"; "e"; "f"; "g"; "h"; "i"; "j"; "x"]%string.

(** Twelve records with distinct identifiers. *)
Definition twelve_ids : list string :=
  ["a"; "b"; "c"; "d"; "e"; "f"; "g"; "h"; "i"; "j"; "k"; "l"]%string.

(** The platform on the sample inputs: [JSON.parse] is the parser above,
    read at the types of [types.ts]. *)
Definition sample_JSON_parse (text : jsstring) : option JsonValue :=
  Json.as_data <$> Json.parse text.

(** Printable ASCII other than the two characters that start a tag or a
    character reference. *)
Definition plain_text_char (c : N) : bool :=
  (32 <=? c)%N && (c <=? 126)%N && negb (c =? 60)%N && negb (c =? 38)%N.

(** The sample markup gives its paragraph, the escaped markup gives one
    text node with its character references decoded, nothing gives no
    node, a text of plain characters gives one text node; any other input
    is not in this instance and counts as an assignment that throws. *)
Definition sample_parse_fragment (html : jsstring) : option (list Node) :=
  if decide (html = hello_markup) then Some hello_nodes
  else if decide (html = escaped_markup) then Some [TextNode (js "<b>bold</b>")]
  else if decide (html = []) then Some []
  else if forallb plain_text_char html then Some [TextNode html]
  else None.

(** Every request is rejected. *)
Definition every_call_throws (i : nat) : ScoringOutcome := CallThrows.

(** A response item for an identifier that carries another [_id]. *)
Definition renaming_item (ident renamed : string) : ApiResponseItem :=
  {| id := Some (js ident); item_analysis := sample_analysis;
     carried := Carried.mk (Some (js renamed)) None None None None None |}.

(** The one batch is answered for a and b; the item for a carries the
    [_id] b. *)
Definition first_item_renames (i : nat) : ScoringOutcome :=
  ResponseItems [renaming_item "a" "b"; sample_item "b"].

(** The first batch is answered for the identifier x, the second request
    is rejected. *)
Definition first_answered_then_throws (i : nat) : ScoringOutcome :=
  if i =? 0 then ResponseItems [sample_item "x"] else CallThrows.

(** The first request is rejected, the second batch is answered for the
    identifiers k and l. *)
Definition first_throws_then_answered (i : nat) : ScoringOutcome :=
  if i =? 0 then CallThrows else ResponseItems [sample_item "k"; sample_item "l"].

Definition sample_fresh_id (position : nat) : jsstring :=
  js "1700000000000-0." ++ Csv.count_toString (S position).

(** The records of a file of identified objects, and the run on it. *)
Definition records_of_ids (idents : list string) : list ParsedRecord :=
  map (fun ident => mkParsed (js ident) [] [] [] [] 0) idents.

Definition selected (idents : list string) : AppState :=
  initial_state (Some (FileContent (file_of_ids idents))).

Definition sample_run (idents : list string) (scoring : nat -> ScoringOutcome) : Run :=
  handleProcessClick sample_JSON_parse sample_parse_fragment sample_fresh_id scoring
    (selected idents).

(** ** Notions used to state further properties *)

(** [search] occurs in [s] as a run of neighbouring characters. *)
Definition occurs_in (search s : jsstring) : Prop :=
  exists before after, s = before ++ search ++ after.

(** The number a whole score is: 0, 1, 2, ... as a binary64 value. *)
Definition whole (k : nat) : float :=
  SF2Prim (binary_normalize prec emax (Z.of_nat k) 0 false).

(** An analysis whose six scores are whole numbers. *)
Definition whole_scores (a b c d e f : nat) (comment : option jsstring) : PartialAnalysis :=
  mkAnalysis (Some (whole a)) (Some (whole b)) (Some (whole c)) (Some (whole d))
             (Some (whole e)) (Some (whole f)) comment.

(** The weighted sum of whole scores, in hundredths. *)
Definition hundredths_of (a b c d e f : nat) : Z :=
  (20 * Z.of_nat a + 20 * Z.of_nat b + 20 * Z.of_nat c
   + 15 * Z.of_nat d + 15 * Z.of_nat e + 10 * Z.of_nat f)%Z.

(** The weight of a dimension, in hundredths. *)
Definition weight_hundredths (key : Dimension) : Z :=
  match key with
  | Clareza | Empatia | Coerencia => 20
  | Formalidade | Eficacia => 15
  | Linguistica => 10
  end.

(** The same binary64 value, bit for bit. *)
Definition same_float (x y : float) : bool :=
  match Prim2SF x, Prim2SF y with
  | S754_zero s, S754_zero t | S754_infinity s, S754_infinity t => Bool.eqb s t
  | S754_nan, S754_nan => true
  | S754_finite s m e, S754_finite t n f => Bool.eqb s t && (m =? n)%positive && (e =? f)%Z
  | _, _ => false
  end.

(** A set of sums, each with its exact value in hundredths, kept as a list
    without repetition. *)
Definition same_sum (p q : Z * float) : bool :=
  if (fst p =? fst q)%Z then same_float (snd p) (snd q) else false.

Fixpoint add_sum (p : Z * float) (sums : list (Z * float)) : list (Z * float) :=
  match sums with
  | [] => [p]
  | q :: rest => if same_sum p q then sums else q :: add_sum p rest
  end.

(** The terms a score from 0 to 10 can add under a weight. *)
Definition terms (key : Dimension) (weight : float) : list (Z * float) :=
  map (fun k => ((Z.of_nat k * weight_hundredths key)%Z, (whole k * weight)%float))
      (seq 0 11).

(** The sums one turn of the [reduce] can make of the sums before it. *)
Definition next_sums (key : Dimension) (weight : float) (sums : list (Z * float))
  : list (Z * float) :=
  let added := terms key weight in
  fold_right add_sum []
    (flat_map
       (fun p => map (fun t => ((fst p + fst t)%Z, (snd p + snd t)%float)) added)
       sums).

(** The sums that the [reduce] of the score can reach on whole scores from
    0 to 10. *)
Definition reachable_sums : list (Z * float) :=
  fold_left (fun sums '(key, weight) => next_sums key weight sums) weights
            [(0%Z, 0%float)].

(** [x.toFixed(2)] writes [n] hundredths. *)
Definition prints_hundredths (p : Z * float) : bool :=
  match toFixed2 (snd p) with
  | FixDigits false m => (m =? fst p)%Z
  | _ => false
  end.

(** The pauses of a run, in milliseconds. *)
Definition delays (log : list Event) : list nat :=
  omap (fun e => match e with Delay milliseconds => Some milliseconds
                         | ScoringCall _ => None end) log.

(** A collection holds the records of the file when it has their
    identifiers, in their order. *)
Definition same_identifiers (cleanedResults : list ParsedRecord)
    (render : list CleanedRecord) : Prop :=
  (fun x : CleanedRecord => _id x) <$> render
  = (fun r : ParsedRecord => _id r) <$> cleanedResults.

(** The loop stands where the closed form says, as far as the counter, the
    events and the identifiers go. *)
Definition on_schedule (scoring : nat -> ScoringOutcome)
    (cleanedResults : list ParsedRecord) (k : nat) (s : Scheduler) : Prop :=
  counter s = counter (scheduler_after scoring cleanedResults k)
  /\ events s = events (scheduler_after scoring cleanedResults k)
  /\ same_identifiers cleanedResults (data s)
  /\ exists shown,
       renders s = [] :: shown
       /\ last shown = Some (data s)
       /\ length shown = S k
       /\ Forall (same_identifiers cleanedResults) shown.

(** The requests of a run with a pause of five seconds between one and the
    next. *)
Fixpoint paced (requests : list (list (jsstring * jsstring))) : list Event :=
  match requests with
  | [] => []
  | [request] => [ScoringCall request]
  | request :: rest => ScoringCall request :: Delay 5000 :: paced rest
  end.

(** The last value typed into the input of a name, the empty text when
    nothing was typed there. *)
Definition typed_into (name : jsstring) (changes : list (jsstring * jsstring)) : jsstring :=
  default []
    (last (omap (fun change : jsstring * jsstring =>
                   if decide (fst change = name) then Some (snd change) else None)
                changes)).

(** An earlier record carries the identifier of the record at [j]. *)
Definition repeats_an_identifier (cleanedResults : list ParsedRecord) (j : nat) : Prop :=
  exists i, i < j
            /\ (fun r : ParsedRecord => _id r) <$> cleanedResults !! i
               = (fun r : ParsedRecord => _id r) <$> cleanedResults !! j.

(** *** Sample data for the properties above *)

(** An array with a comma left before its closing bracket. *)
Definition trailing_comma_file : jsstring :=
  js " [{" ++ in_quotes "title" ++ js ":" ++ in_quotes "A" ++ js "}, ]" ++ [LF].

(** An array cut off inside its second object. *)
Definition truncated_file : jsstring :=
  js "[{" ++ in_quotes "title" ++ js ":" ++ in_quotes "A" ++ js "},{" ++ [QUOTE]
  ++ js "tit".

Definition one_object_array : jsstring :=
  js "[{" ++ in_quotes "title" ++ js ":" ++ in_quotes "A" ++ js "}]".

(** Two response items for one identifier, the first one incomplete. *)
Definition repeated_response : list ApiResponseItem :=
  [incomplete_item "a"; sample_item "a"; sample_item "b"].

Definition sample_records : list CleanedRecord :=
  [ failed (sample_record "a");
    scored (mkParsed (js "b") (js "Festa") (js "Sul") (js "Bia") (js "Ola") 1)
           (sample_item "b") ].

Definition report_file : FileUploader.File :=
  FileUploader.mkFile (js "report.json") (FileContent one_object_array).

Definition broken_file : FileUploader.File :=
  FileUploader.mkFile (js "broken.json") ReadFails.

Definition sample_events : list FileUploader.Event :=
  [ FileUploader.Drag (js "dragenter");
    FileUploader.Drop (Some [broken_file]);
    FileUploader.Change (Some [report_file; broken_file]);
    FileUploader.Drag (js "dragover");
    FileUploader.Drop (Some []);
    FileUploader.Change None ].

(** Two records with one identifier and different titles. *)
Definition titled_twins_file : jsstring :=
  js "[{" ++ in_quotes "_id" ++ js ":{" ++ in_quotes "$oid" ++ js ":" ++ in_quotes "x"
  ++ js "}," ++ in_quotes "title" ++ js ":" ++ in_quotes "first" ++ js "},{"
  ++ in_quotes "_id" ++ js ":{" ++ in_quotes "$oid" ++ js ":" ++ in_quotes "x"
  ++ js "}," ++ in_quotes "title" ++ js ":" ++ in_quotes "second" ++ js "}]".

Definition titled_twins : list ParsedRecord :=
  [ mkParsed (js "x") (js "first") [] [] [] 0;
    mkParsed (js "x") (js "second") [] [] [] 0 ].

Definition titled_twins_run : Run :=
  handleProcessClick sample_JSON_parse sample_parse_fragment sample_fresh_id
    every_call_throws (initial_state (Some (FileContent titled_twins_file))).

(** * Properties *)

(** ** Normalizing a description *)

Section Spaces.

Lemma single_spaced_lookup (s : jsstring) (i : nat) (c d : N) :
  single_spaced s = true ->
  s !! i = Some c -> s !! S i = Some d ->
  is_space c = true -> is_space d = false.
Proof.
  revert i. induction s as [|x s IH]; intros i Hs Hc Hd Hsp; [done|].
  simpl in Hs. apply andb_true_iff in Hs as [Hhead Hs].
  destruct i as [|i].
  - simpl in Hc. injection Hc as ->. rewrite Hsp in Hhead. simpl in Hhead.
    destruct s as [|y s]; [done|]. simpl in Hd. injection Hd as ->.
    by apply negb_true_iff.
  - by apply (IH i).
Qed.

Lemma replace_space_runs_plain (in_run : bool) (s : jsstring) :
  only_plain_spaces (replace_space_runs in_run s) = true.
Proof.
  revert in_run. induction s as [|c s IH]; intros in_run; simpl; [done|].
  destruct (is_space c) eqn:Hc.
  - destruct in_run; simpl; by rewrite ?IH.
  - simpl. by rewrite Hc, IH.
Qed.

Lemma replace_space_runs_single (in_run : bool) (s : jsstring) :
  single_spaced (replace_space_runs in_run s) = true
  /\ (in_run = true -> starts_clean (replace_space_runs in_run s) = true).
Proof.
  revert in_run. induction s as [|c s IH]; intros in_run; simpl; [done|].
  destruct (is_space c) eqn:Hc.
  - destruct in_run.
    + apply IH.
    + split; [|done]. simpl. by destruct (IH true) as [-> ->].
  - simpl. rewrite Hc. simpl. split; [apply IH|done].
Qed.

(** After the runs are replaced no non-breaking space is left. *)
Lemma replace_nbsp_plain (s : jsstring) :
  only_plain_spaces s = true -> replace_nbsp s = s.
Proof.
  induction s as [|c s IH]; simpl; [done|].
  intros [Hc Hs]%andb_true_iff. rewrite IH by done. f_equal.
  destruct (c =? NBSP)%N eqn:Hnb; [|done].
  apply N.eqb_eq in Hnb as ->. by vm_compute in Hc.
Qed.

Lemma dropWhile_suffix (p : N -> bool) (s : jsstring) :
  exists dropped, s = dropped ++ dropWhile p s.
Proof.
  induction s as [|c s [dropped IH]]; simpl; [by exists []|].
  destruct (p c); [|by exists []].
  exists (c :: dropped). simpl. by f_equal.
Qed.

Lemma single_spaced_app_r (s1 s2 : jsstring) :
  single_spaced (s1 ++ s2) = true -> single_spaced s2 = true.
Proof.
  induction s1 as [|c s1 IH]; simpl; [done|].
  intros [_ H]%andb_true_iff. by apply IH.
Qed.

Lemma only_plain_spaces_app_r (s1 s2 : jsstring) :
  only_plain_spaces (s1 ++ s2) = true -> only_plain_spaces s2 = true.
Proof.
  unfold only_plain_spaces. rewrite forallb_app. by intros [_ H]%andb_true_iff.
Qed.

Lemma trimStart_clean (s : jsstring) : starts_clean (trimStart s) = true.
Proof.
  unfold trimStart. induction s as [|c s IH]; simpl; [done|].
  destruct (is_space c) eqn:Hc; [done|]. simpl. by rewrite Hc.
Qed.

Lemma trimStart_single (s : jsstring) :
  single_spaced s = true -> single_spaced (trimStart s) = true.
Proof.
  intros H. destruct (dropWhile_suffix is_space s) as [dropped Hs].
  rewrite Hs in H. by apply single_spaced_app_r in H.
Qed.

Lemma trimStart_plain (s : jsstring) :
  only_plain_spaces s = true -> only_plain_spaces (trimStart s) = true.
Proof.
  intros H. destruct (dropWhile_suffix is_space s) as [dropped Hs].
  rewrite Hs in H. by apply only_plain_spaces_app_r in H.
Qed.

(** [trimEnd] keeps a first character that is not a space. *)
Lemma trimEnd_head (c : N) (s : jsstring) :
  is_space c = false -> exists kept, trimEnd (c :: s) = c :: kept.
Proof.
  intros Hc. simpl. destruct (trimEnd s); rewrite ?Hc; by eexists.
Qed.

Lemma trimEnd_clean_start (s : jsstring) :
  starts_clean s = true -> starts_clean (trimEnd s) = true.
Proof.
  destruct s as [|c s]; [done|]. simpl starts_clean at 1.
  intros Hc%negb_true_iff. destruct (trimEnd_head c s Hc) as [kept ->].
  simpl. by rewrite Hc.
Qed.

Lemma trimEnd_single (s : jsstring) :
  single_spaced s = true -> single_spaced (trimEnd s) = true.
Proof.
  induction s as [|c s IH]; [done|].
  intros [Hhead Hs]%andb_true_iff. specialize (IH Hs). simpl.
  destruct (trimEnd s) as [|d kept] eqn:Hkept.
  - by destruct (is_space c) eqn:Hc; simpl; rewrite ?Hc.
  - change (single_spaced (c :: d :: kept))
      with ((negb (is_space c) || starts_clean (d :: kept)) && single_spaced (d :: kept)).
    rewrite IH, andb_true_r.
    destruct (is_space c); [|done]. simpl in Hhead.
    rewrite <- Hkept. by apply trimEnd_clean_start.
Qed.

Lemma trimEnd_plain (s : jsstring) :
  only_plain_spaces s = true -> only_plain_spaces (trimEnd s) = true.
Proof.
  induction s as [|c s IH]; [done|].
  intros [Hc Hs]%andb_true_iff. specialize (IH Hs). simpl.
  destruct (trimEnd s) as [|d kept].
  - destruct (is_space c) eqn:Hsp; [done|]. simpl. by rewrite Hsp.
  - change (only_plain_spaces (c :: d :: kept))
      with (implb (is_space c) (c =? SPACE)%N && only_plain_spaces (d :: kept)).
    by rewrite Hc, IH.
Qed.

Lemma trimEnd_clean_end (s : jsstring) (c : N) :
  last (trimEnd s) = Some c -> is_space c = false.
Proof.
  induction s as [|x s IH]; [done|]. simpl.
  destruct (trimEnd s) as [|d kept].
  - destruct (is_space x) eqn:Hx; [done|]. simpl. by intros [= <-].
  - intros H. by apply IH.
Qed.

(** The pieces between the spaces of a single-spaced text that does not
    end with a space are non-empty, except for a first piece that is empty
    when the text starts with a space. *)
Lemma split_where_pieces (s : jsstring) :
  single_spaced s = true ->
  (forall c, last s = Some c -> is_space c = false) ->
  s <> [] ->
  if starts_clean s then Forall (fun piece => piece <> []) (split_where is_space s)
  else exists pieces, split_where is_space s = [] :: pieces
                      /\ Forall (fun piece => piece <> []) pieces.
Proof.
  induction s as [|c s IH]; [done|].
  intros [Hhead Hs]%andb_true_iff Hlast _.
  destruct s as [|d s].
  - pose proof (Hlast c eq_refl) as Hc. simpl. rewrite Hc. simpl.
    by repeat constructor.
  - specialize (IH Hs (fun x H => Hlast x H) ltac:(done)).
    change (starts_clean (c :: d :: s)) with (negb (is_space c)).
    change (split_where is_space (c :: d :: s))
      with (if is_space c then [] :: split_where is_space (d :: s)
            else match split_where is_space (d :: s) with
                 | piece :: pieces => (c :: piece) :: pieces
                 | [] => [[c]]
                 end).
    destruct (is_space c); simpl negb; cbv iota.
    + cbn [negb orb] in Hhead. rewrite Hhead in IH. by eexists.
    + destruct (starts_clean (d :: s)).
      * destruct (split_where is_space (d :: s)) as [|piece pieces]; [by repeat constructor|].
        apply Forall_cons in IH as [_ IH]. by constructor.
      * destruct IH as (pieces & -> & IH). by constructor.
Qed.

Lemma split_where_ext (p q : N -> bool) (s : jsstring) :
  Forall (fun c => p c = q c) s -> split_where p s = split_where q s.
Proof.
  induction 1 as [|c s Hc _ IH]; simpl; [done|]. by rewrite Hc, IH.
Qed.

Lemma only_plain_spaces_split (s : jsstring) :
  only_plain_spaces s = true -> split SPACE s = split_where is_space s.
Proof.
  intros H. apply split_where_ext. unfold only_plain_spaces in H.
  rewrite forallb_forall in H. apply Forall_forall. intros c Hin.
  apply list_elem_of_In, H in Hin.
  destruct (SPACE =? c)%N eqn:Heq.
  - apply N.eqb_eq in Heq as <-. reflexivity.
  - destruct (is_space c); [|done]. simpl in Hin.
    rewrite N.eqb_sym in Hin. congruence.
Qed.

Lemma filter_nonempty_pieces (pieces : list jsstring) :
  Forall (fun piece => piece <> []) pieces ->
  List.filter (fun piece => negb (bool_decide (piece = []))) pieces = pieces.
Proof.
  induction 1 as [|piece pieces Hp _ IH]; simpl; [done|].
  by rewrite bool_decide_eq_false_2, IH.
Qed.

(** The count of the source, taken on a trimmed single-spaced text, is the
    number of its tokens. *)
Lemma split_length_tokens (s : jsstring) :
  only_plain_spaces s = true -> single_spaced s = true ->
  starts_clean s = true -> (forall c, last s = Some c -> is_space c = false) ->
  match s with
  | [] => 0
  | _ :: _ => length (split SPACE s)
  end = length (whitespace_tokens s).
Proof.
  intros Hplain Hsingle Hstart Hend. destruct s as [|c s]; [done|].
  rewrite only_plain_spaces_split by done. unfold whitespace_tokens.
  pose proof (split_where_pieces (c :: s) Hsingle Hend ltac:(done)) as Hpieces.
  rewrite Hstart in Hpieces. by rewrite filter_nonempty_pieces.
Qed.

End Spaces.

(** ** Ingestion *)

Section IngestionProperties.

Variable JSON_parse : jsstring -> option JsonValue.
Variable parse_fragment : jsstring -> option (list Node).
Variable fresh_id : nat -> jsstring.

Lemma or_else_same (text : jsstring) :
  or_else (Some text) (or_else (Some text) []) = text.
Proof. by destruct text. Qed.

(** The clean text is the text content of the parsed description with its
    spaces normalized, or empty when the parser throws. *)
Lemma cleanHtmlAndNormalize_text (htmlString : jsstring) :
  cleanHtmlAndNormalize parse_fragment htmlString
  = match parse_fragment htmlString with
    | Some children =>
        trim (replace_nbsp (replace_space_runs false (flat_map textContent children)))
    | None => []
    end.
Proof.
  unfold cleanHtmlAndNormalize.
  destruct (parse_fragment htmlString); [|done]. by rewrite or_else_same.
Qed.

Lemma cleanHtmlAndNormalize_shape (htmlString : jsstring) :
  let text := cleanHtmlAndNormalize parse_fragment htmlString in
  only_plain_spaces text = true /\ single_spaced text = true
  /\ starts_clean text = true /\ (forall c, last text = Some c -> is_space c = false).
Proof.
  simpl. rewrite cleanHtmlAndNormalize_text.
  destruct (parse_fragment htmlString) as [children|]; [|done].
  set (text := flat_map textContent children).
  rewrite replace_nbsp_plain by apply replace_space_runs_plain.
  unfold trim. repeat split.
  - apply trimEnd_plain, trimStart_plain, replace_space_runs_plain.
  - apply trimEnd_single, trimStart_single, replace_space_runs_single.
  - apply trimEnd_clean_start, trimStart_clean.
  - apply trimEnd_clean_end.
Qed.

(** *** The words of a text *)

Lemma split_where_first_piece (s : jsstring) :
  split_where is_space s = first_piece s :: tl (split_where is_space s).
Proof.
  unfold first_piece. destruct s as [|c s]; [done|]. simpl.
  destruct (is_space c); [done|]. by destruct (split_where is_space s).
Qed.

Lemma whitespace_tokens_pieces (s : jsstring) :
  whitespace_tokens s
  = (if bool_decide (first_piece s = []) then [] else [first_piece s]) ++ later_tokens s.
Proof.
  unfold whitespace_tokens, later_tokens. rewrite split_where_first_piece at 1. simpl.
  by destruct (bool_decide (first_piece s = [])).
Qed.

Lemma pieces_space (c : N) (s : jsstring) :
  is_space c = true ->
  first_piece (c :: s) = [] /\ later_tokens (c :: s) = whitespace_tokens s.
Proof. intros Hc. unfold first_piece, later_tokens, whitespace_tokens. simpl. by rewrite Hc. Qed.

Lemma pieces_other (c : N) (s : jsstring) :
  is_space c = false ->
  first_piece (c :: s) = c :: first_piece s /\ later_tokens (c :: s) = later_tokens s.
Proof.
  intros Hc. unfold first_piece, later_tokens. simpl. rewrite Hc.
  by destruct (split_where is_space s).
Qed.

Lemma same_pieces_tokens (s t : jsstring) :
  first_piece s = first_piece t -> later_tokens s = later_tokens t ->
  whitespace_tokens s = whitespace_tokens t.
Proof. intros H1 H2. by rewrite !whitespace_tokens_pieces, H1, H2. Qed.

Lemma replace_space_runs_pieces (s : jsstring) :
  (first_piece (replace_space_runs false s) = first_piece s
   /\ later_tokens (replace_space_runs false s) = later_tokens s)
  /\ whitespace_tokens (replace_space_runs true s) = whitespace_tokens s.
Proof.
  induction s as [|c s [[IHfirst IHlater] IHrun]]; [done|].
  cbn [replace_space_runs]. destruct (is_space c) eqn:Hc.
  - destruct (pieces_space c s Hc) as [Hfirst Hlater].
    assert (is_space SPACE = true) as Hspace by done.
    destruct (pieces_space SPACE (replace_space_runs true s) Hspace) as [Hfirst' Hlater'].
    split; [split|].
    + by rewrite Hfirst, Hfirst'.
    + by rewrite Hlater, Hlater'.
    + rewrite IHrun. symmetry. rewrite whitespace_tokens_pieces, Hfirst, Hlater. done.
  - destruct (pieces_other c s Hc) as [Hfirst Hlater].
    destruct (pieces_other c (replace_space_runs false s) Hc) as [Hfirst' Hlater'].
    split; [split|].
    + by rewrite Hfirst, Hfirst', IHfirst.
    + by rewrite Hlater, Hlater'.
    + apply same_pieces_tokens; [by rewrite Hfirst, Hfirst', IHfirst|by rewrite Hlater, Hlater'].
Qed.

Lemma trimStart_tokens (s : jsstring) : whitespace_tokens (trimStart s) = whitespace_tokens s.
Proof.
  unfold trimStart. induction s as [|c s IH]; [done|]. simpl.
  destruct (is_space c) eqn:Hc; [|done].
  rewrite IH. symmetry. rewrite whitespace_tokens_pieces.
  destruct (pieces_space c s Hc) as [-> ->]. done.
Qed.

Lemma trimEnd_pieces (s : jsstring) :
  first_piece (trimEnd s) = first_piece s /\ later_tokens (trimEnd s) = later_tokens s.
Proof.
  induction s as [|c s [IHfirst IHlater]]; [done|].
  assert (whitespace_tokens (trimEnd s) = whitespace_tokens s) as IHtokens
    by (by apply same_pieces_tokens).
  cbn [trimEnd]. destruct (trimEnd s) as [|d kept] eqn:Hkept.
  - destruct (is_space c) eqn:Hc.
    + destruct (pieces_space c s Hc) as [-> ->]. by rewrite <- IHtokens.
    + destruct (pieces_other c s Hc) as [-> ->].
      destruct (pieces_other c [] Hc) as [-> ->]. by rewrite <- IHfirst, <- IHlater.
  - destruct (is_space c) eqn:Hc.
    + destruct (pieces_space c s Hc) as [-> ->].
      destruct (pieces_space c (d :: kept) Hc) as [-> ->]. done.
    + destruct (pieces_other c s Hc) as [-> ->].
      destruct (pieces_other c (d :: kept) Hc) as [-> ->]. by rewrite IHfirst, IHlater.
Qed.

Lemma normalized_tokens (s : jsstring) :
  whitespace_tokens (trim (replace_nbsp (replace_space_runs false s))) = whitespace_tokens s.
Proof.
  rewrite replace_nbsp_plain by apply replace_space_runs_plain.
  unfold trim. destruct (trimEnd_pieces (trimStart (replace_space_runs false s))) as [H1 H2].
  rewrite (same_pieces_tokens _ _ H1 H2), trimStart_tokens.
  by apply same_pieces_tokens; apply replace_space_runs_pieces.
Qed.

Lemma plain_text_pieces (t : jsstring) :
  only_plain_spaces t = true ->
  t = first_piece t ++ flat_map (fun next => SPACE :: next) (tl (split_where is_space t)).
Proof.
  unfold only_plain_spaces. induction t as [|c t IH]; [done|].
  cbn [forallb]. intros [Hc Ht]%andb_prop. specialize (IH Ht).
  destruct (is_space c) eqn:Hspace.
  - apply N.eqb_eq in Hc as ->. unfold first_piece. cbn [split_where]. rewrite Hspace.
    cbn [hd tl app]. rewrite split_where_first_piece. cbn [flat_map app]. by rewrite <- IH.
  - destruct (pieces_other c t Hspace) as [Hfirst _]. rewrite Hfirst.
    assert (tl (split_where is_space (c :: t)) = tl (split_where is_space t)) as ->.
    { cbn [split_where]. rewrite Hspace. by destruct (split_where is_space t). }
    cbn [app]. by rewrite <- IH.
Qed.

Lemma spaced_text_pieces (t : jsstring) :
  single_spaced t = true ->
  (forall c, last t = Some c -> is_space c = false) ->
  Forall (fun piece => piece <> []) (tl (split_where is_space t)).
Proof.
  induction t as [|c t IH]; [by constructor|].
  cbn [single_spaced]. intros [Hc Ht]%andb_prop Hlast.
  assert (t <> [] -> forall d, last t = Some d -> is_space d = false) as Hlast'.
  { intros Hne d Hd. apply Hlast. destruct t; [done|]. done. }
  cbn [split_where]. destruct (is_space c) eqn:Hspace.
  - cbn [tl]. destruct t as [|d t]; [by specialize (Hlast c eq_refl); congruence|].
    rewrite split_where_first_piece. constructor.
    + simpl in Hc. apply negb_true_iff in Hc.
      destruct (pieces_other d t Hc) as [-> _]. done.
    + apply IH; [done|]. by apply Hlast'.
  - destruct t as [|d t]; [by constructor|].
    assert (tl match split_where is_space (d :: t) with
               | [] => [[c]]
               | piece :: pieces => (c :: piece) :: pieces
               end = tl (split_where is_space (d :: t))) as ->
      by (by destruct (split_where is_space (d :: t))).
    apply IH; [done|]. by apply Hlast'.
Qed.

Lemma clean_text_words (t : jsstring) :
  only_plain_spaces t = true -> single_spaced t = true -> starts_clean t = true ->
  (forall c, last t = Some c -> is_space c = false) ->
  t = join_words (whitespace_tokens t).
Proof.
  intros Hplain Hsingle Hstart Hlast.
  pose proof (spaced_text_pieces t Hsingle Hlast) as Hpieces.
  rewrite whitespace_tokens_pieces. unfold later_tokens.
  assert (List.filter (fun piece => negb (bool_decide (piece = [])))
            (tl (split_where is_space t)) = tl (split_where is_space t)) as ->.
  { induction Hpieces as [|piece pieces Hpiece _ IH]; [done|].
    cbn [List.filter]. rewrite bool_decide_eq_false_2 by done. cbn [negb]. by rewrite IH. }
  destruct t as [|c t]; [done|].
  simpl in Hstart. apply negb_true_iff in Hstart.
  destruct (pieces_other c t Hstart) as [Hfirst _].
  rewrite bool_decide_eq_false_2 by (by rewrite Hfirst).
  cbn [app join_words]. by apply plain_text_pieces.
Qed.

(** C7, amended.  For every raw record the clean text is the text content
    of the description as the platform parses it (the data of its text
    nodes, in order; none of its tags, attributes and comments), with its
    words, the maximal runs of characters other than whitespace, joined by
    single spaces, and it is empty when the parser throws.  So the only
    whitespace character in it is the ordinary space, no space in it is
    followed by another one, and it neither starts nor ends with a space.
    The word count is the number of its non-empty whitespace-delimited
    tokens, 0 for the empty text.  For the file with the one object of
    title A and description <p>Hello&nbsp;world</p>, which the platform
    parses to a paragraph holding Hello, a non-breaking space and world,
    the one record has the clean text Hello world and the word count 2. *)
Theorem clean_text_and_word_count :
  (forall (position : nat) (item : Raw.t),
     let record := to_record parse_fragment fresh_id position item in
     let description := or_else (Raw.description item) [] in
     (forall children,
        parse_fragment description = Some children ->
        text_clean record
        = join_words (whitespace_tokens (flat_map textContent children)))
     /\ (parse_fragment description = None -> text_clean record = [])
     /\ (forall c, c ∈ text_clean record -> is_space c = true -> c = SPACE)
     /\ (forall (i : nat) (c d : N),
          text_clean record !! i = Some c -> text_clean record !! S i = Some d ->
          is_space c = true -> is_space d = false)
     /\ (forall c, head (text_clean record) = Some c \/ last (text_clean record) = Some c ->
                   is_space c = false)
     /\ word_count record = length (whitespace_tokens (text_clean record))
     /\ (text_clean record = [] -> word_count record = 0))
  /\ (JSON_parse hello_file = Some (JsonArray [EObject hello_item]) ->
      parse_fragment hello_markup = Some hello_nodes ->
      processFile JSON_parse parse_fragment fresh_id (FileContent hello_file)
      = Resolved [ {| _id := fresh_id 0; title := js "A"; community := [];
                      author := []; text_clean := js "Hello world";
                      word_count := 2 |} ]).
Proof.
  split.
  - intros position item record description. subst description.
    destruct (cleanHtmlAndNormalize_shape (or_else (Raw.description item) []))
      as (Hplain & Hsingle & Hstart & Hend).
    pose proof (cleanHtmlAndNormalize_text (or_else (Raw.description item) [])) as Htext.
    change (cleanHtmlAndNormalize parse_fragment (or_else (Raw.description item) []))
      with (text_clean record) in *.
    split; [|split; [|split; [|split; [|split; [|split]]]]].
    + intros children Hchildren. rewrite Hchildren in Htext.
      rewrite (clean_text_words (text_clean record)) by done.
      by rewrite Htext, normalized_tokens.
    + intros Hthrows. by rewrite Hthrows in Htext.
    + intros c Hc Hspace. unfold only_plain_spaces in Hplain.
      rewrite forallb_forall in Hplain. specialize (Hplain c).
      rewrite Hspace in Hplain. apply N.eqb_eq, Hplain. by apply list_elem_of_In.
    + intros i c d. by apply single_spaced_lookup.
    + intros c [Hhead|Hlast]; [|by apply Hend].
      destruct (text_clean record) as [|c' rest]; [done|].
      injection Hhead as ->. by apply negb_true_iff in Hstart.
    + by apply split_length_tokens.
    + unfold record, to_record. cbn [text_clean word_count]. by intros ->.
  - intros Hjson Hhtml. unfold processFile, parse_content. rewrite Hjson. cbn [fst].
    change (processedRecords parse_fragment fresh_id [EObject hello_item])
      with [to_record parse_fragment fresh_id 0 hello_item].
    do 2 f_equal. unfold to_record.
    change (or_else (Raw.description hello_item) []) with hello_markup.
    rewrite cleanHtmlAndNormalize_text, Hhtml. vm_compute. reflexivity.
Qed.

(** *** One record per object-shaped element *)

Lemma processed_length (f : nat -> Raw.t -> ParsedRecord) (data : list Element) :
  length (omap (fun record => record)
            (imap (fun position item => f position <$> as_record item) data))
  = length (List.filter object_shaped data).
Proof.
  revert f. induction data as [|element data IH]; intros f; [done|].
  simpl. destruct element; simpl; f_equal; apply (IH (f ∘ S)).
Qed.

Lemma processed_elements (f : nat -> Raw.t -> ParsedRecord) (data : list Element) :
  Forall2
    (fun record element =>
       exists position item,
         data !! position = Some element /\ as_record element = Some item
         /\ record = f position item)
    (omap (fun record => record)
       (imap (fun position item => f position <$> as_record item) data))
    (List.filter object_shaped data).
Proof.
  revert f. induction data as [|element data IH]; intros f; [constructor|].
  assert (Forall2
            (fun record e =>
               exists position item,
                 (element :: data) !! position = Some e /\ as_record e = Some item
                 /\ record = f position item)
            (omap (fun record => record)
               (imap (fun position item => (f ∘ S) position <$> as_record item) data))
            (List.filter object_shaped data)) as Htail.
  { eapply Forall2_impl; [apply (IH (f ∘ S))|].
    intros record e (position & item & Hpos & Hitem & ->).
    by exists (S position), item. }
  destruct element; simpl; try apply Htail.
  - constructor; [|apply Htail]. by exists 0, Raw.empty.
  - constructor; [|apply Htail]. by exists 0, item.
Qed.

(** C6. When the content parses to an array, directly or after the
    repair, the file resolves to as many records as the array has
    object-shaped elements, one for each of them in order; the other
    elements give no record and no error. *)
Theorem one_record_per_object_element (content : jsstring) (data : list Element) :
  JSON_parse content = Some (JsonArray data)
  \/ (JSON_parse content = None /\ JSON_parse (repair content) = Some (JsonArray data)) ->
  exists records : list ParsedRecord,
    processFile JSON_parse parse_fragment fresh_id (FileContent content) = Resolved records
    /\ length records = length (List.filter object_shaped data)
    /\ Forall2
         (fun record element =>
            exists position item,
              data !! position = Some element /\ as_record element = Some item
              /\ record = to_record parse_fragment fresh_id position item)
         records (List.filter object_shaped data).
Proof.
  intros Hparse. exists (processedRecords parse_fragment fresh_id data).
  split; [|split].
  - unfold processFile, parse_content. by destruct Hparse as [-> | [-> ->]].
  - apply processed_length.
  - apply processed_elements.
Qed.

(** *** The repair of objects that follow one another *)





(** A text that does not end with a comma and spaces before its closing
    bracket is left as it is. *)
Lemma strip_trailing_comma_id (text : jsstring) (c : N) :
  last text = Some c -> is_space c = false -> c <> COMMA ->
  strip_trailing_comma (text ++ [RBRACKET]) = text ++ [RBRACKET].
Proof.
  intros [before ->]%last_Some Hspace Hcomma. unfold strip_trailing_comma.
  rewrite !rev_app_distr. cbn [rev app dropWhile]. rewrite N.eqb_refl, Hspace.
  by apply N.eqb_neq in Hcomma as ->.
Qed.


End IngestionProperties.

(** ** The ingestion on the sample files *)

(** The parser reads numbers to the nearest binary64, takes the later of
    two members with one key, and refuses a comma before a closing bracket,
    two values in a row and a line break inside a string. *)
Example json_parse_values :
  Json.parse (js "[1, 2.5, -0, 1e2, 12.5e-1, 0.1]")
  = Some (Json.Arr [Json.Num 1; Json.Num 2.5; Json.Num (-0); Json.Num 100;
                    Json.Num 1.25; Json.Num 0.1])
  /\ Json.as_data <$> Json.parse (js "[{" ++ in_quotes "title" ++ js ":"
                                   ++ in_quotes "A" ++ js "," ++ in_quotes "title"
                                   ++ js ":" ++ in_quotes "B" ++ js "}]")
     = Some (JsonArray [EObject (titled "B")])
  /\ Json.parse (js "[1,]") = None
  /\ Json.parse (js "{}{}") = None
  /\ Json.parse (in_quotes "a" ++ in_quotes "b") = None
  /\ Json.parse ([QUOTE; LF; QUOTE]) = None
  /\ Json.parse [] = None.
Proof. repeat split; reflexivity. Qed.

Example sample_files_parse :
  sample_JSON_parse hello_file = Some (JsonArray [EObject hello_item])
  /\ sample_JSON_parse mixed_file = Some (JsonArray mixed_data)
  /\ sample_JSON_parse two_objects = None
  /\ sample_JSON_parse two_objects_repaired
     = Some (JsonArray [EObject (titled "A"); EObject (titled "B")])
  /\ sample_JSON_parse (file_of_ids twelve_ids) = Some (JsonArray (data_of_ids twelve_ids)).
Proof. repeat split; reflexivity. Qed.

(** C7, as stated, fails.  The clean text can contain markup: a
    description that writes its markup with character references, which
    the platform reads as one text node, gives a clean text with the tags
    in it. *)
Lemma escaped_markup_reaches_the_clean_text :
  sample_JSON_parse escaped_file
  = Some (JsonArray [EObject (Raw.mk None (Some (js "A")) None None (Some escaped_markup))])
  /\ sample_parse_fragment escaped_markup = Some [TextNode (js "<b>bold</b>")]
  /\ processFile sample_JSON_parse sample_parse_fragment sample_fresh_id
       (FileContent escaped_file)
     = Resolved [ {| _id := sample_fresh_id 0; title := js "A"; community := [];
                     author := []; text_clean := js "<b>bold</b>";
                     word_count := 1 |} ]
  /\ includes (js "<b>bold</b>") (js "<b>") = true
  /\ includes (js "<b>bold</b>") (js "</b>") = true.
Proof. vm_compute. repeat split. Qed.

Lemma clean_text_and_word_count_witness :
  sample_JSON_parse hello_file = Some (JsonArray [EObject hello_item])
  /\ sample_parse_fragment hello_markup = Some hello_nodes
  /\ processFile sample_JSON_parse sample_parse_fragment sample_fresh_id
       (FileContent hello_file)
     = Resolved [ {| _id := sample_fresh_id 0; title := js "A"; community := [];
                     author := []; text_clean := js "Hello world";
                     word_count := 2 |} ].
Proof.
  split; [reflexivity|]. split; [reflexivity|].
  apply (proj2 (clean_text_and_word_count sample_JSON_parse sample_parse_fragment
                  sample_fresh_id)); reflexivity.
Defined.

Lemma one_record_per_object_element_witness :
  (sample_JSON_parse mixed_file = Some (JsonArray mixed_data)
   \/ (sample_JSON_parse mixed_file = None
       /\ sample_JSON_parse (repair mixed_file) = Some (JsonArray mixed_data)))
  /\ exists records : list ParsedRecord,
       processFile sample_JSON_parse sample_parse_fragment sample_fresh_id
         (FileContent mixed_file) = Resolved records
       /\ length records = length (List.filter object_shaped mixed_data)
       /\ Forall2
            (fun record element =>
               exists position item,
                 mixed_data !! position = Some element /\ as_record element = Some item
                 /\ record = to_record sample_parse_fragment sample_fresh_id position item)
            records (List.filter object_shaped mixed_data).
Proof.
  assert (sample_JSON_parse mixed_file = Some (JsonArray mixed_data)) as Hparse
    by reflexivity.
  split; [by left|].
  apply (one_record_per_object_element sample_JSON_parse sample_parse_fragment
           sample_fresh_id mixed_file mixed_data).
  by left.
Defined.

Example mixed_file_records :
  processFile sample_JSON_parse sample_parse_fragment sample_fresh_id
    (FileContent mixed_file)
  = Resolved
      [ {| _id := sample_fresh_id 2; title := js "A"; community := []; author := [];
           text_clean := []; word_count := 0 |};
        {| _id := sample_fresh_id 4; title := []; community := []; author := [];
           text_clean := []; word_count := 0 |} ].
Proof. reflexivity. Qed.


(** ** Binary64 arithmetic *)

(** Two numbers are the same when their specifications are. *)
Ltac by_spec_float := left; apply Prim2SF_inj.

Section Binary64.

Lemma mul_comm (x y : float) : (x * y)%float = (y * x)%float.
Proof.
  apply Prim2SF_inj. rewrite !mul_spec. unfold SF64mul, SFmul.
  destruct (Prim2SF x) as [sx|sx| |sx mx ex], (Prim2SF y) as [sy|sy| |sy my ey];
    try reflexivity; rewrite (xorb_comm sx sy); try reflexivity.
  by rewrite (Pos.mul_comm mx my), (Z.add_comm ex ey).
Qed.

Lemma same_or_zeros_refl (x : float) : same_or_zeros x x.
Proof. by left. Qed.

Lemma Prim2SF_zero : Prim2SF 0%float = S754_zero false.
Proof. reflexivity. Qed.

(** Adding to positive zero changes at most the sign of a zero. *)
Lemma add_zero_l (x : float) : same_or_zeros (0 + x)%float x.
Proof.
  destruct (Prim2SF x) as [s|s| |s m e] eqn:Hx;
    [|by_spec_float; by rewrite add_spec, Hx, Prim2SF_zero..].
  right. exists false, s. split; [|done].
  rewrite add_spec, Hx, Prim2SF_zero. by destruct s.
Qed.

(** Addition does not tell the two zeros apart, except in the sign of a
    zero result. *)
Lemma add_same_or_zeros (a a' b : float) :
  same_or_zeros a a' -> same_or_zeros (a + b)%float (a' + b)%float.
Proof.
  intros [->|(s & t & Ha & Ha')]; [by left|].
  destruct (Prim2SF b) as [sb|sb| |sb mb eb] eqn:Hb;
    [|by_spec_float; by rewrite !add_spec, Ha, Ha', Hb..].
  right. destruct s, t, sb; eexists _, _;
    rewrite !add_spec, Ha, Ha', Hb; split; reflexivity.
Qed.

(** [toFixed(2)] prints both zeros as 0.00. *)
Lemma toFixed2_same_or_zeros (x y : float) :
  same_or_zeros x y -> toFixed2 x = toFixed2 y.
Proof.
  intros [->|(s & t & Hx & Hy)]; [done|].
  unfold toFixed2. by rewrite Hx, Hy.
Qed.

End Binary64.

(** ** The aggregate score *)

(** The [reduce] of the source and the sum written from left to right
    differ at most in the sign of a zero. *)
Lemma qualityScore_sum (a : PartialAnalysis) :
  same_or_zeros (qualityScore a) (weighted_sum a).
Proof.
  unfold qualityScore, weighted_sum, weights; simpl.
  rewrite !(mul_comm _ (ToNumber _)).
  do 5 apply add_same_or_zeros. apply add_zero_l.
Qed.

Lemma qualityScore_weighted_sum (a : PartialAnalysis) :
  round2 (qualityScore a) = round2 (weighted_sum a).
Proof.
  unfold round2. f_equal. apply toFixed2_same_or_zeros, qualityScore_sum.
Qed.

(** ** The digits written by [toFixed] *)

Lemma ltb_zero (x : float) :
  (x <? 0)%float
  = match Prim2SF x with
    | S754_finite s _ _ | S754_infinity s => s
    | _ => false
    end.
Proof.
  rewrite FloatAxioms.ltb_spec. change (Prim2SF 0) with (S754_zero false).
  destruct (Prim2SF x) as [s|s| |s m e]; try destruct s; reflexivity.
Qed.

Lemma Qabs_finite (s : bool) (m : positive) (e : Z) :
  (Qabs (Qred ((if s then -1 else 1) * inject_Z (Zpos m) * 2 ^ e))
   == inject_Z (Zpos m) * 2 ^ e)%Q.
Proof.
  rewrite Qred_correct, !Qabs_Qmult.
  rewrite (Qabs_pos (2 ^ e)) by (apply Qpower_0_le; discriminate).
  rewrite (Qabs_pos (inject_Z (Zpos m))) by (unfold Qle; simpl; lia).
  destruct s; [change (Qabs (-1)) with 1%Q | change (Qabs 1) with 1%Q]; ring.
Qed.

Lemma Qpower_2_nonneg (e : Z) : (0 <= e)%Z -> (2 ^ e == inject_Z (2 ^ e))%Q.
Proof. intros H. by rewrite Zpower_Qpower. Qed.

Lemma Qpower_2_neg (e : Z) : (e < 0)%Z -> (2 ^ e * inject_Z (2 ^ (- e)) == 1)%Q.
Proof.
  intros H. rewrite Zpower_Qpower by lia. change (inject_Z 2) with 2%Q.
  rewrite Qpower_opp. apply Qmult_inv_r.
  apply Qpower_not_0. discriminate.
Qed.

(** [hundredths] is the hundredth nearest to the value, the upper one of
    two. *)
Lemma hundredths_nearest (m : positive) (e : Z) :
  let value := (inject_Z (Zpos m) * 2 ^ e)%Q in
  (inject_Z (hundredths m e) - (1 # 2) <= 100 * value)%Q
  /\ (100 * value < inject_Z (hundredths m e) + (1 # 2))%Q.
Proof.
  intros value. unfold hundredths. destruct (0 <=? e)%Z eqn:He.
  - apply Z.leb_le in He.
    assert (inject_Z (100 * Zpos m * 2 ^ e) == 100 * value)%Q as ->.
    { unfold value. rewrite !inject_Z_mult, Zpower_Qpower by done.
      change (inject_Z 100) with 100%Q. change (inject_Z 2) with 2%Q. ring. }
    split; lra.
  - apply Z.leb_gt in He.
    set (d := (2 ^ (- e))%Z). assert (0 < d)%Z as Hd by (apply Z.pow_pos_nonneg; lia).
    replace (2 ^ (1 - e))%Z with (2 * d)%Z
      by (unfold d; replace (1 - e)%Z with (Z.succ (- e)) by lia; rewrite Z.pow_succ_r; lia).
    set (n := ((200 * Zpos m + d) / (2 * d))%Z).
    assert (n * (2 * d) <= 200 * Zpos m + d < (n + 1) * (2 * d))%Z as [Hlow Hhigh].
    { pose proof (Z.div_mod (200 * Zpos m + d) (2 * d) ltac:(lia)) as Hdiv.
      pose proof (Z.mod_pos_bound (200 * Zpos m + d) (2 * d) ltac:(lia)) as Hmod.
      fold n in Hdiv. lia. }
    assert (value * inject_Z d == inject_Z (Zpos m))%Q as Hvalue.
    { unfold value, d. rewrite <- Qmult_assoc, Qpower_2_neg by done. ring. }
    rewrite Zle_Qle in Hlow. rewrite Zlt_Qlt in Hhigh.
    rewrite !inject_Z_mult, inject_Z_plus, inject_Z_mult in Hlow.
    rewrite inject_Z_mult, (inject_Z_plus n), inject_Z_plus, !inject_Z_mult in Hhigh.
    rewrite <- Hvalue in Hlow, Hhigh.
    change (inject_Z 200) with 200%Q in *. change (inject_Z 2) with 2%Q in *.
    change (inject_Z 1) with 1%Q in *.
    assert (0 < inject_Z d)%Q as HdQ by (change 0%Q with (inject_Z 0); by rewrite <- Zlt_Qlt).
    clear Hvalue. generalize dependent (inject_Z d). generalize dependent (inject_Z n).
    generalize value. intros v qn q Hlow Hhigh HdQ.
    split; [apply Qmult_le_r with (z := (2 * q)%Q)|apply Qmult_lt_r with (z := (2 * q)%Q)].
    all: lra.
Qed.

Lemma Qpower_10_21 : (10 ^ 21)%Q = inject_Z (10 ^ 21).
Proof. vm_compute. reflexivity. Qed.

(** From 10^21 on [toFixed] writes an exponent. *)
Lemma at_least_1e21_value (m : positive) (e : Z) :
  at_least_1e21 m e = true -> (10 ^ 21 <= inject_Z (Zpos m) * 2 ^ e)%Q.
Proof.
  unfold at_least_1e21. intros H%Z.leb_le. rewrite Qpower_10_21.
  destruct (Z.le_gt_cases 0 e) as [He|He].
  - rewrite Z.max_l, Z.max_r in H by lia.
    rewrite (Qpower_2_nonneg e He), <- inject_Z_mult, <- Zle_Qle. lia.
  - rewrite Z.max_r, Z.max_l in H by lia.
    rewrite Z.pow_0_r, Z.mul_1_r, Zle_Qle, inject_Z_mult in H.
    apply Qmult_le_r with (z := inject_Z (2 ^ (- e))).
    + change 0%Q with (inject_Z 0). rewrite <- Zlt_Qlt. apply Z.pow_pos_nonneg; lia.
    + by rewrite <- Qmult_assoc, (Qpower_2_neg e He), Qmult_1_r.
Qed.

(** Below 10^21, [toFixed(2)] writes the sign of the number and the
    hundredth nearest to its magnitude, the upper one of two. *)
Lemma toFixed2_nearest (x : float) (v : Q) :
  exact x = Some v ->
  (Qabs v < 10 ^ 21)%Q ->
  exists n : Z,
    toFixed2 x = FixDigits (x <? 0)%float n
    /\ (inject_Z n - (1 # 2) <= 100 * Qabs v)%Q
    /\ (100 * Qabs v < inject_Z n + (1 # 2))%Q.
Proof.
  unfold exact, toFixed2. rewrite ltb_zero.
  destruct (Prim2SF x) as [s|s| |s m e]; try discriminate.
  - intros [= <-] _. exists 0%Z. split; [done|].
    change (Qabs 0) with 0%Q. change (inject_Z 0) with 0%Q. split; lra.
  - intros [= <-]. rewrite Qabs_finite. intros Hsmall.
    destruct (at_least_1e21 m e) eqn:Hbig.
    + apply at_least_1e21_value in Hbig. lra.
    + exists (hundredths m e). split; [done|]. rewrite Qabs_finite.
      apply hundredths_nearest.
Qed.

Lemma exact_same_or_zeros (x y : float) : same_or_zeros x y -> exact x = exact y.
Proof.
  intros [->|(s & t & Hx & Hy)]; [done|]. unfold exact. by rewrite Hx, Hy.
Qed.

Lemma ltb_zero_same_or_zeros (x y : float) :
  same_or_zeros x y -> (x <? 0)%float = (y <? 0)%float.
Proof.
  intros [->|(s & t & Hx & Hy)]; [done|]. by rewrite !ltb_zero, Hx, Hy.
Qed.

(** ** The response map *)

Lemma resultMap_fold_Some (items : list ApiResponseItem)
    (m : gmap (option jsstring) ApiResponseItem) (k : option jsstring) (r : ApiResponseItem) :
  fold_left (fun m res => <[ id res := res ]> m) items m !! k = Some r ->
  (r ∈ items /\ id r = k) \/ m !! k = Some r.
Proof.
  revert m. induction items as [|x items IH]; intros m H; simpl in H; [by right|].
  destruct (IH _ H) as [[Hin Hk]|Hm].
  - left. split; [by apply elem_of_cons; right|done].
  - destruct (decide (id x = k)) as [<-|Hne].
    + rewrite lookup_insert_eq in Hm. injection Hm as <-.
      left. split; [apply elem_of_cons; by left|done].
    + rewrite lookup_insert_ne in Hm by done. by right.
Qed.

Lemma resultMap_fold_is_Some (items : list ApiResponseItem)
    (m : gmap (option jsstring) ApiResponseItem) (k : option jsstring) :
  (is_Some (m !! k) \/ exists r, r ∈ items /\ id r = k) ->
  is_Some (fold_left (fun m res => <[ id res := res ]> m) items m !! k).
Proof.
  revert m. induction items as [|x items IH]; intros m H; simpl.
  - destruct H as [H|(r & Hin & _)]; [done|]. by apply elem_of_nil in Hin.
  - apply IH. destruct H as [H|(r & Hin & Hk)].
    + left. destruct (decide (id x = k)) as [<-|Hne].
      * rewrite lookup_insert_eq. by eexists.
      * by rewrite lookup_insert_ne.
    + apply elem_of_cons in Hin as [->|Hin].
      * left. rewrite Hk, lookup_insert_eq. by eexists.
      * right. by exists r.
Qed.

(** A key is bound in the map exactly when a response item carries it, and
    it is bound to an item that carries it. *)
Lemma resultMap_lookup_Some (items : list ApiResponseItem) (k : option jsstring)
    (r : ApiResponseItem) :
  resultMap items !! k = Some r -> r ∈ items /\ id r = k.
Proof.
  intros H. destruct (resultMap_fold_Some _ _ _ _ H) as [?|Hm]; [done|].
  by rewrite lookup_empty in Hm.
Qed.

Lemma resultMap_is_Some (items : list ApiResponseItem) (k : option jsstring) :
  is_Some (resultMap items !! k) <-> exists r, r ∈ items /\ id r = k.
Proof.
  split.
  - intros [r Hr]. exists r. by apply resultMap_lookup_Some.
  - intros H. apply resultMap_fold_is_Some. by right.
Qed.

Lemma resultMap_lookup_None (items : list ApiResponseItem) (k : option jsstring) :
  resultMap items !! k = None <-> forall r, r ∈ items -> id r <> k.
Proof.
  rewrite eq_None_not_Some, resultMap_is_Some. split.
  - intros H r Hin Hk. apply H. by exists r.
  - intros H (r & Hin & Hk). by apply (H r).
Qed.

(** ** Scoring one batch *)

Lemma analyzeQualityBatch_length (batch : list ParsedRecord) (outcome : ScoringOutcome) :
  length (analyzeQualityBatch batch outcome) = length batch.
Proof. destruct outcome; simpl; by rewrite length_map. Qed.

(** A returned record is marked analysed only through a matching item, and
    then its score is the rounded weighted sum of its own dimensions. *)
Lemma analysed_score (batch : list ParsedRecord) (outcome : ScoringOutcome)
    (r : CleanedRecord) :
  r ∈ analyzeQualityBatch batch outcome ->
  status r = Analisado ->
  QualityScore r = Some (round2 (weighted_sum r)).
Proof.
  intros Hin Hst.
  assert (r ∈ map failed batch -> False) as Hfailed.
  { intros (x & -> & _)%list_elem_of_fmap. discriminate Hst. }
  destruct outcome as [| |items]; simpl in Hin; [done|done|].
  apply list_elem_of_fmap in Hin as (record & -> & _).
  destruct (resultMap items !! Some (_id record)) as [result|]; [|discriminate Hst].
  simpl. f_equal. apply qualityScore_weighted_sum.
Qed.

(** C1, as stated, fails.  The score is not the exact weighted sum rounded
    to two decimals.  With formalidade 0.5 and the other scores 0 the
    specified sum is 0.075, and the record is given 0.07, not the 0.08 of
    rounding half up or half to even; with clareza 0.625 and the other
    scores 0 the specified sum is 0.125, and the record is given 0.13, not
    the 0.12 of rounding half down or half to even. *)
Lemma score_is_not_the_rounded_exact_sum :
  let batch := [sample_record "a"] in
  let low := formalidade_half "a" in
  let high := clareza_five_eighths "a" in
  (specified_hundredths low = Some (15 # 2)%Q
   /\ half_up <$> specified_hundredths low = Some 8%Z
   /\ half_even <$> specified_hundredths low = Some 8%Z
   /\ (fun r => (status r, QualityScore r))
        <$> analyzeQualityBatch batch (ResponseItems [low])
      = [(Analisado, Some 0.07%float)])
  /\ (specified_hundredths high = Some (25 # 2)%Q
      /\ half_down <$> specified_hundredths high = Some 12%Z
      /\ half_even <$> specified_hundredths high = Some 12%Z
      /\ (fun r => (status r, QualityScore r))
           <$> analyzeQualityBatch batch (ResponseItems [high])
         = [(Analisado, Some 0.13%float)]).
Proof. vm_compute. repeat split. Qed.

(** C1, amended.  A record whose identifier is matched by a response item
    comes back analysed, carrying the six scores of that item (and the
    properties of a record that the item carries, in place of its own),
    and its quality score is computed in binary64: the sum 0.20 clareza +
    0.20 empatia + 0.20 coerencia + 0.15 formalidade + 0.15 eficacia +
    0.10 linguistica, each product and each sum rounded to binary64, is
    written with two decimals and read back.  When that binary64 sum is a
    number below 10^21 in magnitude, the digits written are its sign and
    the one integer n of hundredths with n - 1/2 <= 100 |sum| < n + 1/2:
    the hundredth nearest to the binary64 sum, the upper one of two. *)
Theorem scored_quality_score (batch : list ParsedRecord)
    (analysisResults : list ApiResponseItem) (i : nat)
    (record : ParsedRecord) (result : ApiResponseItem)
    (c e co f ef l : float) :
  batch !! i = Some record ->
  resultMap analysisResults !! Some (_id record) = Some result ->
  clareza result = Some c ->
  empatia result = Some e ->
  coerencia result = Some co ->
  formalidade result = Some f ->
  eficacia result = Some ef ->
  linguistica result = Some l ->
  let sum := (0.20 * c + 0.20 * e + 0.20 * co + 0.15 * f + 0.15 * ef + 0.10 * l)%float in
  exists merged : CleanedRecord,
    analyzeQualityBatch batch (ResponseItems analysisResults) !! i = Some merged
    /\ parsed merged = overwrite record (carried result)
    /\ status merged = Analisado
    /\ analysis merged = item_analysis result
    /\ QualityScore merged = Some (parseFloat (toFixed2 sum))
    /\ forall v : Q,
         exact sum = Some v ->
         (Qabs v < 10 ^ 21)%Q ->
         exists n : Z,
           toFixed2 sum = FixDigits (sum <? 0)%float n
           /\ (inject_Z n - (1 # 2) <= 100 * Qabs v)%Q
           /\ (100 * Qabs v < inject_Z n + (1 # 2))%Q.
Proof.
  intros Hi Hres Hc He Hco Hf Hef Hl sum.
  assert (weighted_sum result = sum) as Hsum.
  { unfold weighted_sum. by rewrite Hc, He, Hco, Hf, Hef, Hl. }
  exists (scored record result). split.
  { simpl. rewrite list_lookup_fmap, Hi. simpl. by rewrite Hres. }
  split; [done|]. split; [done|]. split; [done|]. split.
  - simpl. f_equal. rewrite <- Hsum. apply qualityScore_weighted_sum.
  - intros v Hv Hsmall. by apply toFixed2_nearest.
Qed.

Lemma scored_quality_score_witness :
  let sum := (0.20 * 8 + 0.20 * 7 + 0.20 * 9 + 0.15 * 6 + 0.15 * 8 + 0.10 * 10)%float in
  [sample_record "a"] !! 0 = Some (sample_record "a")
  /\ resultMap [sample_item "a"] !! Some (_id (sample_record "a")) = Some (sample_item "a")
  /\ exists merged : CleanedRecord,
       analyzeQualityBatch [sample_record "a"] (ResponseItems [sample_item "a"]) !! 0
         = Some merged
       /\ parsed merged = overwrite (sample_record "a") (carried (sample_item "a"))
       /\ status merged = Analisado
       /\ analysis merged = item_analysis (sample_item "a")
       /\ QualityScore merged = Some (parseFloat (toFixed2 sum))
       /\ forall v : Q,
            exact sum = Some v ->
            (Qabs v < 10 ^ 21)%Q ->
            exists n : Z,
              toFixed2 sum = FixDigits (sum <? 0)%float n
              /\ (inject_Z n - (1 # 2) <= 100 * Qabs v)%Q
              /\ (100 * Qabs v < inject_Z n + (1 # 2))%Q.
Proof.
  intros sum. split; [reflexivity|]. split; [vm_compute; reflexivity|].
  apply (scored_quality_score [sample_record "a"] [sample_item "a"] 0
           (sample_record "a") (sample_item "a") 8 7 9 6 8 10);
    vm_compute; reflexivity.
Defined.

Example sample_quality_score :
  QualityScore (scored (sample_record "a") (sample_item "a")) = Some 7.9%float.
Proof. vm_compute. reflexivity. Qed.

(** ** Partial responses *)




(** ** Merging analysed batches into the collection *)

Section Merge.

Lemma analyzeQualityBatch_settle (batch : list ParsedRecord) (outcome : ScoringOutcome) :
  analyzeQualityBatch batch outcome = map (settle outcome) batch.
Proof. by destruct outcome. Qed.

(** What the outcome of its batch makes of a record: the record itself,
    failed, or the record under the properties of its response item. *)
Lemma settle_cases (outcome : ScoringOutcome) (record : ParsedRecord) :
  settle outcome record = failed record
  \/ exists items result,
       outcome = ResponseItems items
       /\ resultMap items !! Some (_id record) = Some result
       /\ settle outcome record = scored record result.
Proof.
  destruct outcome as [| |items]; simpl; [by left..|].
  destruct (resultMap items !! Some (_id record)) as [result|] eqn:Hres; [|by left].
  right. by exists items, result.
Qed.

(** A response item that carries no [_id] leaves the identifier alone. *)
Lemma settle_id (outcome : ScoringOutcome) (record : ParsedRecord) :
  (forall items item,
     outcome = ResponseItems items -> item ∈ items -> Carried._id (carried item) = None) ->
  _id (settle outcome record) = _id record.
Proof.
  intros Hnone. destruct (settle_cases outcome record)
    as [->|(items & result & -> & [Hin _]%resultMap_lookup_Some & ->)]; [done|].
  simpl. by rewrite (Hnone items result).
Qed.

Lemma settle_terminal (outcome : ScoringOutcome) (record : ParsedRecord) :
  status (settle outcome record) <> Aguardando_IA.
Proof.
  destruct outcome as [| |items]; simpl; try done.
  by destruct (resultMap items !! Some (_id record)).
Qed.

Lemma settle_failure (outcome : ScoringOutcome) (record : ParsedRecord) :
  outcome = CallThrows \/ outcome = ResponseMalformed ->
  settle outcome record = failed record.
Proof. by intros [-> | ->]. Qed.

Lemma option_union_None {A} (o : option A) : o ∪ None = o.
Proof. by destruct o. Qed.

(** Merging into a record that is still pending gives the analysed record. *)
Lemma spread_pending (record : ParsedRecord) (analyzedRecord : CleanedRecord) :
  spread (pending record) analyzedRecord = analyzedRecord.
Proof.
  destruct analyzedRecord as [p [c e co f ef l cm] st q].
  unfold spread, overlay. simpl. by rewrite !option_union_None.
Qed.

Lemma spread_parsed (item analyzedRecord : CleanedRecord) :
  parsed (spread item analyzedRecord) = parsed analyzedRecord.
Proof. done. Qed.

(** With distinct identifiers the search finds the record of the analysed
    one at its own position. *)
Lemma merge_record_at (newData : list CleanedRecord) (j : nat)
    (item analyzedRecord : CleanedRecord) :
  NoDup ((fun x : CleanedRecord => _id x) <$> newData) ->
  newData !! j = Some item ->
  _id analyzedRecord = _id item ->
  findIndex newData analyzedRecord = Some (j, item).
Proof.
  intros Hnodup Hj Hid. unfold findIndex. apply list_find_Some.
  split; [done|]. split; [done|].
  intros j' y Hy Hlt Hy_id.
  assert (j' = j) as ->; [|lia].
  apply (NoDup_lookup _ j' j (_id item) Hnodup); rewrite list_lookup_fmap.
  - rewrite Hy. simpl. congruence.
  - by rewrite Hj.
Qed.

Lemma merge_record_ids (newData : list CleanedRecord) (analyzedRecord : CleanedRecord) :
  (fun x : CleanedRecord => _id x) <$> merge_record newData analyzedRecord
  = (fun x : CleanedRecord => _id x) <$> newData.
Proof.
  unfold merge_record.
  destruct (findIndex newData analyzedRecord) as [[index item]|] eqn:Hfind; [|done].
  apply list_find_Some in Hfind as (Hindex & Hid & _).
  rewrite list_fmap_insert. simpl.
  apply list_insert_id. rewrite list_lookup_fmap, Hindex. simpl. by rewrite Hid.
Qed.

(** Merging the analysed records of the positions from [i] on, in order:
    those positions are assigned once each, the others are left alone. *)
Lemma merge_batch_lookup (outcome : ScoringOutcome) (batch : list ParsedRecord)
    (i : nat) (prevData : list CleanedRecord) :
  NoDup ((fun x : CleanedRecord => _id x) <$> prevData) ->
  (forall k record, batch !! k = Some record ->
     exists item, prevData !! (i + k) = Some item /\ parsed item = record) ->
  (forall k record, batch !! k = Some record ->
     _id (settle outcome record) = _id record) ->
  (forall j,
     merge_batch prevData (map (settle outcome) batch) !! j
     = if decide (i <= j < i + length batch)
       then (fun item => spread item (settle outcome (parsed item))) <$> prevData !! j
       else prevData !! j)
  /\ merge_writes prevData (map (settle outcome) batch) = seq i (length batch).
Proof.
  revert i prevData.
  induction batch as [|record batch IH]; intros i prevData Hnodup Hbatch Hkept.
  { split; [|done]. intros j. simpl. case_decide; [lia|done]. }
  destruct (Hbatch 0 record eq_refl) as (item & Hitem & Hparsed).
  rewrite Nat.add_0_r in Hitem.
  assert (findIndex prevData (settle outcome record) = Some (i, item)) as Hfind.
  { apply merge_record_at; [done..|]. by rewrite (Hkept 0 record), Hparsed. }
  assert (merge_record prevData (settle outcome record)
          = <[ i := spread item (settle outcome record) ]> prevData) as Hmerge.
  { unfold merge_record. by rewrite Hfind. }
  destruct (IH (S i) (merge_record prevData (settle outcome record))) as [Hlookup Hwrites].
  { by rewrite merge_record_ids. }
  { intros k r Hk. destruct (Hbatch (S k) r Hk) as (x & Hx & Hr).
    exists x. split; [|done]. rewrite Hmerge, list_lookup_insert_ne by lia.
    by replace (S i + k) with (i + S k) by lia. }
  { intros k r Hk. by apply (Hkept (S k)). }
  split.
  - intros j. change (map (settle outcome) (record :: batch))
      with (settle outcome record :: map (settle outcome) batch).
    unfold merge_batch in *. cbn [fold_left]. rewrite Hlookup, Hmerge.
    simpl length. destruct (decide (j = i)) as [->|Hne].
    + rewrite list_lookup_insert_eq by (by eapply lookup_lt_Some).
      rewrite decide_False by lia. rewrite decide_True by lia.
      by rewrite Hitem, <- Hparsed.
    + rewrite list_lookup_insert_ne by done.
      destruct (decide (S i <= j < S i + length batch)).
      * by rewrite decide_True by lia.
      * by rewrite decide_False by lia.
  - change (map (settle outcome) (record :: batch))
      with (settle outcome record :: map (settle outcome) batch).
    cbn [merge_writes]. rewrite Hfind, Hwrites. done.
Qed.

End Merge.

(** ** The loop over the batches *)

(** Replaces a test [a <? b] by the value the hypotheses give it. *)
Ltac settle_ltb a b :=
  first
    [ replace (a <? b) with true by (symmetry; apply Nat.ltb_lt; lia)
    | replace (a <? b) with false by (symmetry; apply Nat.ltb_ge; lia) ].

Section Schedule.

Variable scoring : nat -> ScoringOutcome.
Variable cleanedResults : list ParsedRecord.
Hypothesis distinct_ids : NoDup ((fun r : ParsedRecord => _id r) <$> cleanedResults).
Hypothesis kept_ids : identifiers_kept scoring cleanedResults.

Lemma collection_after_lookup (i j : nat) :
  collection_after scoring cleanedResults i !! j
  = (fun record =>
       if j <? i then settle (scoring (batch_start j)) record else pending record)
    <$> cleanedResults !! j.
Proof. unfold collection_after. by rewrite list_lookup_imap. Qed.

Lemma collection_after_length (i : nat) :
  length (collection_after scoring cleanedResults i) = length cleanedResults.
Proof. unfold collection_after. by rewrite length_imap. Qed.

Lemma collection_after_ids (i : nat) :
  (fun x : CleanedRecord => _id x) <$> collection_after scoring cleanedResults i
  = (fun r : ParsedRecord => _id r) <$> cleanedResults.
Proof.
  apply list_eq. intros j. rewrite !list_lookup_fmap, collection_after_lookup.
  destruct (cleanedResults !! j) as [record|] eqn:Hj; [|done]. simpl.
  destruct (j <? i); [|done]. f_equal. by apply kept_ids.
Qed.

Lemma slice_lookup {A} (l : list A) (i k : nat) (x : A) :
  slice i (i + BATCH_SIZE) l !! k = Some x -> l !! (i + k) = Some x.
Proof.
  unfold slice. intros [H _]%lookup_take_Some. by rewrite lookup_drop in H.
Qed.

Lemma slice_length {A} (l : list A) (i : nat) :
  length (slice i (i + BATCH_SIZE) l) = Nat.min BATCH_SIZE (length l - i).
Proof.
  unfold slice. rewrite length_take, length_drop. lia.
Qed.

Lemma batch_start_in_batch (k j : nat) :
  k * BATCH_SIZE <= j < k * BATCH_SIZE + BATCH_SIZE -> batch_start j = k * BATCH_SIZE.
Proof.
  unfold batch_start, BATCH_SIZE. intros Hj. f_equal.
  symmetry. apply (Nat.div_unique j 10 k (j - k * 10)); lia.
Qed.

(** One turn of the loop merges exactly the batch that starts at [i]. *)
Lemma merge_turn (k : nat) :
  let i := k * BATCH_SIZE in
  let batch := slice i (i + BATCH_SIZE) cleanedResults in
  merge_batch (collection_after scoring cleanedResults i) (analyzeQualityBatch batch (scoring i))
  = collection_after scoring cleanedResults (S k * BATCH_SIZE)
  /\ merge_writes (collection_after scoring cleanedResults i) (analyzeQualityBatch batch (scoring i))
     = seq i (length batch).
Proof.
  intros i batch. rewrite analyzeQualityBatch_settle.
  destruct (merge_batch_lookup (scoring i) batch i (collection_after scoring cleanedResults i)) as [Hlookup Hwrites].
  { by rewrite collection_after_ids. }
  { intros k' record Hk'%slice_lookup. exists (pending record). split; [|done].
    rewrite collection_after_lookup, Hk'. simpl.
    by settle_ltb (i + k') i. }
  { intros k' record Hk'. pose proof (lookup_lt_Some _ _ _ Hk') as Hlt.
    unfold batch in Hlt. rewrite slice_length in Hlt. apply slice_lookup in Hk'.
    replace (scoring i) with (scoring (batch_start (i + k')))
      by (f_equal; apply (batch_start_in_batch k); subst i; lia).
    by apply kept_ids. }
  split; [|done]. apply list_eq. intros j.
  rewrite Hlookup, !collection_after_lookup. subst batch. rewrite slice_length.
  destruct (cleanedResults !! j) as [record|] eqn:Hj; [|by case_decide].
  apply lookup_lt_Some in Hj. cbn [fmap option_fmap option_map].
  change (S k * BATCH_SIZE) with (BATCH_SIZE + i).
  case_decide as Hin.
  - settle_ltb j i. settle_ltb j (BATCH_SIZE + i).
    cbn [parsed pending]. rewrite spread_pending, (batch_start_in_batch k j); [done|].
    subst i. lia.
  - destruct (j <? i) eqn:Hlt.
    + apply Nat.ltb_lt in Hlt.
      by settle_ltb j (BATCH_SIZE + i).
    + apply Nat.ltb_ge in Hlt.
      by settle_ltb j (BATCH_SIZE + i).
Qed.

Lemma batch_turn_scheduler (k : nat) :
  k * BATCH_SIZE < length cleanedResults ->
  batch_turn scoring cleanedResults (k * BATCH_SIZE) (scheduler_after scoring cleanedResults k)
  = scheduler_after scoring cleanedResults (S k).
Proof.
  intros Hk. destruct (merge_turn k) as [Hdata Hwrites].
  unfold batch_turn, scheduler_after.
  cbn [data counter events renders writes processed total].
  rewrite Hdata, Hwrites, slice_length. f_equal.
  - f_equal. change (S k * BATCH_SIZE) with (BATCH_SIZE + k * BATCH_SIZE). lia.
  - rewrite (seq_S k), flat_map_app. simpl. by rewrite app_nil_r.
  - rewrite (seq_S (S k)), map_app. done.
  - change (S k * BATCH_SIZE) with (BATCH_SIZE + k * BATCH_SIZE).
    replace (Nat.min (k * BATCH_SIZE) (length cleanedResults)) with (k * BATCH_SIZE) by lia.
    replace (Nat.min (BATCH_SIZE + k * BATCH_SIZE) (length cleanedResults))
      with (k * BATCH_SIZE + Nat.min BATCH_SIZE (length cleanedResults - k * BATCH_SIZE))
      by lia.
    by rewrite seq_app.
Qed.

Lemma turn_below_batches (k : nat) :
  k * BATCH_SIZE < length cleanedResults <-> k < batches cleanedResults.
Proof.
  unfold batches, BATCH_SIZE. simpl Nat.sub. split; intros H.
  - apply Nat.div_le_lower_bound; lia.
  - destruct (Nat.lt_ge_cases (k * 10) (length cleanedResults)) as [|Hge]; [done|].
    exfalso. assert ((length cleanedResults + 9) / 10 < S k); [|lia].
    apply Nat.Div0.div_lt_upper_bound; lia.
Qed.

(** With enough fuel the loop runs every batch and stops. *)
Lemma batch_loop_scheduler (fuel k : nat) :
  k <= batches cleanedResults -> batches cleanedResults <= k + fuel ->
  batch_loop scoring fuel cleanedResults (k * BATCH_SIZE) (scheduler_after scoring cleanedResults k)
  = scheduler_after scoring cleanedResults (batches cleanedResults).
Proof.
  revert k. induction fuel as [|fuel IH]; intros k Hk Hfuel.
  - simpl. by replace k with (batches cleanedResults) by lia.
  - cbn [batch_loop]. destruct (k * BATCH_SIZE <? length cleanedResults) eqn:Hlt.
    + apply Nat.ltb_lt in Hlt. rewrite batch_turn_scheduler by done.
      apply turn_below_batches in Hlt.
      replace (k * BATCH_SIZE + BATCH_SIZE) with (S k * BATCH_SIZE)
        by (unfold BATCH_SIZE; lia).
      apply IH; lia.
    + apply Nat.ltb_ge in Hlt.
      assert (~ k < batches cleanedResults) by (rewrite <- turn_below_batches; lia).
      by replace k with (batches cleanedResults) by lia.
Qed.

Lemma batches_le_length : batches cleanedResults <= length cleanedResults.
Proof.
  unfold batches, BATCH_SIZE. simpl Nat.sub.
  destruct (length cleanedResults) as [|n]; [done|].
  apply Nat.lt_succ_r, Nat.Div0.div_lt_upper_bound; lia.
Qed.

Lemma all_batches_cover : length cleanedResults <= batches cleanedResults * BATCH_SIZE.
Proof.
  destruct (Nat.le_gt_cases (length cleanedResults) (batches cleanedResults * BATCH_SIZE))
    as [|Hlt]; [done|].
  apply turn_below_batches in Hlt. lia.
Qed.

End Schedule.

(** ** The whole run *)

Section RunProperties.

Variable JSON_parse : jsstring -> option JsonValue.
Variable parse_fragment : jsstring -> option (list Node).
Variable fresh_id : nat -> jsstring.

(** A run over records with distinct identifiers, kept by the response
    items, in closed form. *)
Lemma run_of_distinct_records (scoring : nat -> ScoringOutcome) (state : AppState)
    (file : FileRead) (record : ParsedRecord) (others : list ParsedRecord) :
  let cleanedResults := record :: others in
  let s := scheduler_after scoring cleanedResults (batches cleanedResults) in
  inputFile state = Some file ->
  processFile JSON_parse parse_fragment fresh_id file = Resolved cleanedResults ->
  NoDup ((fun r : ParsedRecord => _id r) <$> cleanedResults) ->
  identifiers_kept scoring cleanedResults ->
  handleProcessClick JSON_parse parse_fragment fresh_id scoring state
  = {| final := mkApp (inputFile state) (data s) done (counter s) None;
       run_events := events s;
       run_renders := renders s;
       run_writes := writes s |}.
Proof.
  intros cleanedResults s Hfile Hparsed Hnodup Hkept.
  unfold handleProcessClick. rewrite Hfile, Hparsed. fold cleanedResults.
  assert (batch_loop scoring (length cleanedResults) cleanedResults 0
            {| data := map pending cleanedResults;
               counter := mkProgress 0 (length cleanedResults);
               events := [];
               renders := [[]; map pending cleanedResults];
               writes := [] |} = s) as ->; [|done].
  assert ({| data := map pending cleanedResults;
             counter := mkProgress 0 (length cleanedResults);
             events := [];
             renders := [[]; map pending cleanedResults];
             writes := [] |} = scheduler_after scoring cleanedResults 0) as ->.
  { unfold scheduler_after. cbn [Nat.mul seq map flat_map Nat.min].
    assert (collection_after scoring cleanedResults 0 = map pending cleanedResults) as ->;
      [|done].
    apply list_eq. intros j. rewrite collection_after_lookup, list_lookup_fmap.
    by destruct (cleanedResults !! j). }
  apply (batch_loop_scheduler scoring cleanedResults Hnodup Hkept (length cleanedResults) 0).
  - lia.
  - apply batches_le_length.
Qed.

(** At the end every record is what the outcome of its own batch makes
    of it. *)
Lemma final_collection_lookup (scoring : nat -> ScoringOutcome)
    (cleanedResults : list ParsedRecord) (j : nat) :
  collection_after scoring cleanedResults (batches cleanedResults * BATCH_SIZE) !! j
  = settle (scoring (batch_start j)) <$> cleanedResults !! j.
Proof.
  rewrite collection_after_lookup.
  destruct (cleanedResults !! j) as [record|] eqn:Hj; [|done].
  apply lookup_lt_Some in Hj. pose proof (all_batches_cover cleanedResults).
  cbn [fmap option_fmap option_map].
  by settle_ltb j (batches cleanedResults * BATCH_SIZE).
Qed.

(** At the end of a run over distinct identifiers an analysed record
    carries the rounded weighted sum of its own dimensions. *)
Lemma final_analysed_score (scoring : nat -> ScoringOutcome)
    (cleanedResults : list ParsedRecord) (j : nat) (r : CleanedRecord) :
  collection_after scoring cleanedResults (batches cleanedResults * BATCH_SIZE) !! j
  = Some r ->
  status r = Analisado -> QualityScore r = Some (round2 (weighted_sum r)).
Proof.
  rewrite final_collection_lookup. intros (record & Hj & ->)%fmap_Some.
  apply (analysed_score [record] (scoring (batch_start j))).
  rewrite analyzeQualityBatch_settle. apply list_elem_of_singleton. done.
Qed.

Lemma renders_lookup (scoring : nat -> ScoringOutcome)
    (cleanedResults : list ParsedRecord) (k : nat) (render : list CleanedRecord) :
  renders (scheduler_after scoring cleanedResults (batches cleanedResults)) !! S k
  = Some render ->
  render = collection_after scoring cleanedResults (k * BATCH_SIZE).
Proof.
  unfold scheduler_after. cbn [renders]. rewrite lookup_cons.
  rewrite list_lookup_fmap. intros (k' & Hk' & ->)%fmap_Some.
  apply lookup_seq in Hk' as [-> _]. done.
Qed.

(** From one value of the collection to the next a record either stays
    as it is or leaves the pending status. *)
Lemma collection_step (scoring : nat -> ScoringOutcome)
    (cleanedResults : list ParsedRecord) (i i' j : nat) (r r' : CleanedRecord) :
  i <= i' ->
  collection_after scoring cleanedResults i !! j = Some r ->
  collection_after scoring cleanedResults i' !! j = Some r' ->
  r' = r \/ (status r = Aguardando_IA /\ status r' <> Aguardando_IA).
Proof.
  intros Hle. rewrite !collection_after_lookup.
  destruct (cleanedResults !! j) as [record|]; [|done].
  cbn [fmap option_fmap option_map]. intros [= <-] [= <-].
  destruct (j <? i) eqn:Hlt.
  - apply Nat.ltb_lt in Hlt.
    settle_ltb j i'.
    by left.
  - destruct (j <? i'); [|by left].
    right. split; [done|]. apply settle_terminal.
Qed.

Lemma renders_step (scoring : nat -> ScoringOutcome)
    (cleanedResults : list ParsedRecord) (k : nat) (render render' : list CleanedRecord) :
  renders (scheduler_after scoring cleanedResults (batches cleanedResults)) !! k
  = Some render ->
  renders (scheduler_after scoring cleanedResults (batches cleanedResults)) !! S k
  = Some render' ->
  render = []
  \/ exists i i', i <= i'
       /\ render = collection_after scoring cleanedResults i
       /\ render' = collection_after scoring cleanedResults i'.
Proof.
  intros Hk HSk. destruct k as [|k].
  - left. by injection Hk as <-.
  - right. apply renders_lookup in Hk, HSk.
    exists (k * BATCH_SIZE), (S k * BATCH_SIZE). split; [|done].
    unfold BATCH_SIZE. lia.
Qed.

(** A record changes between two values of the collection only by
    leaving the pending status. *)
Lemma renders_transition (scoring : nat -> ScoringOutcome)
    (cleanedResults : list ParsedRecord) (k j : nat)
    (render render' : list CleanedRecord) (r r' : CleanedRecord) :
  renders (scheduler_after scoring cleanedResults (batches cleanedResults)) !! k
  = Some render ->
  renders (scheduler_after scoring cleanedResults (batches cleanedResults)) !! S k
  = Some render' ->
  render !! j = Some r -> render' !! j = Some r' ->
  r' = r \/ (status r = Aguardando_IA /\ status r' <> Aguardando_IA).
Proof.
  intros Hk HSk Hr Hr'.
  destruct (renders_step _ _ _ _ _ Hk HSk) as [->|(i & i' & Hle & -> & ->)]; [done|].
  by eapply collection_step.
Qed.

(** A record that has left the pending status is kept as it is. *)
Lemma renders_permanent (scoring : nat -> ScoringOutcome)
    (cleanedResults : list ParsedRecord) (k j : nat)
    (render render' : list CleanedRecord) (r : CleanedRecord) :
  renders (scheduler_after scoring cleanedResults (batches cleanedResults)) !! k
  = Some render ->
  renders (scheduler_after scoring cleanedResults (batches cleanedResults)) !! S k
  = Some render' ->
  render !! j = Some r -> status r <> Aguardando_IA -> render' !! j = Some r.
Proof.
  intros Hk HSk Hr Hstatus.
  destruct (renders_step _ _ _ _ _ Hk HSk) as [->|(i & i' & Hle & -> & ->)]; [done|].
  destruct (collection_after scoring cleanedResults i' !! j) as [r'|] eqn:Hr'.
  - destruct (collection_step _ _ _ _ _ _ _ Hle Hr Hr') as [->|[Hpending _]]; [done|].
    by destruct Hstatus.
  - apply lookup_lt_Some in Hr. apply lookup_ge_None in Hr'.
    rewrite collection_after_length in Hr, Hr'. lia.
Qed.

Lemma scoring_calls_events (cleanedResults : list ParsedRecord) (ks : list nat) :
  scoring_calls (flat_map (fun k => batch_events cleanedResults (k * BATCH_SIZE)) ks)
  = map (fun k =>
           recordsToAnalyze
             (slice (k * BATCH_SIZE) (k * BATCH_SIZE + BATCH_SIZE) cleanedResults))
        ks.
Proof.
  induction ks as [|k ks IH]; [done|].
  cbn [flat_map map]. unfold scoring_calls in *. rewrite omap_app, IH.
  unfold batch_events.
  by destruct (k * BATCH_SIZE + BATCH_SIZE <? length cleanedResults).
Qed.

(** C2, amended.  When the request of a batch is rejected or its response
    cannot be read, every record returned for that batch is failed with
    score 0.  In a run whose records have distinct identifiers, none of
    which a response item replaces by another (such an item carries no
    [_id], or the one of its record), every record of that batch then ends
    as failed with score 0; every record of another batch ends as the
    outcome of its own batch makes it, whatever happened to the failed
    one; a record that was settled before keeps its value; and one request
    is made for every batch, in order. *)
Theorem failed_batch_is_isolated (scoring : nat -> ScoringOutcome) (state : AppState)
    (file : FileRead) (cleanedResults : list ParsedRecord) (b : nat) :
  inputFile state = Some file ->
  processFile JSON_parse parse_fragment fresh_id file = Resolved cleanedResults ->
  NoDup ((fun r : ParsedRecord => _id r) <$> cleanedResults) ->
  identifiers_kept scoring cleanedResults ->
  b < length cleanedResults ->
  batch_start b = b ->
  scoring b = CallThrows \/ scoring b = ResponseMalformed ->
  let run := handleProcessClick JSON_parse parse_fragment fresh_id scoring state in
  (forall batch, analyzeQualityBatch batch (scoring b) = map failed batch)
  /\ (forall j record,
        cleanedResults !! j = Some record -> batch_start j = b ->
        exists r, cleanedData (final run) !! j = Some r
                  /\ parsed r = record
                  /\ status r = Falha_na_Analise /\ QualityScore r = Some 0%float)
  /\ (forall j record,
        cleanedResults !! j = Some record -> batch_start j <> b ->
        cleanedData (final run) !! j = Some (settle (scoring (batch_start j)) record))
  /\ (forall scoring' j,
        identifiers_kept scoring' cleanedResults ->
        batch_start j <> b -> scoring' (batch_start j) = scoring (batch_start j) ->
        cleanedData
          (final (handleProcessClick JSON_parse parse_fragment fresh_id scoring' state)) !! j
        = cleanedData (final run) !! j)
  /\ (forall k render render' j r,
        run_renders run !! k = Some render -> run_renders run !! S k = Some render' ->
        render !! j = Some r -> status r <> Aguardando_IA -> render' !! j = Some r)
  /\ scoring_calls (run_events run)
     = map (fun k =>
              recordsToAnalyze
                (slice (k * BATCH_SIZE) (k * BATCH_SIZE + BATCH_SIZE) cleanedResults))
           (seq 0 (batches cleanedResults)).
Proof.
  intros Hfile Hparsed Hnodup Hkept Hb Hstart Hfails run.
  split; [intros batch; by destruct Hfails as [-> | ->]|].
  destruct cleanedResults as [|record others]; [simpl in Hb; lia|].
  subst run. rewrite (run_of_distinct_records scoring state file record others) by done.
  cbn [final run_events run_renders cleanedData].
  split; [|split; [|split; [|split]]].
  - intros j r Hj Hjb. exists (failed r).
    unfold scheduler_after. cbn [data].
    rewrite final_collection_lookup, Hj, Hjb. cbn [fmap option_fmap option_map].
    by rewrite settle_failure.
  - intros j r Hj _. unfold scheduler_after. cbn [data].
    by rewrite final_collection_lookup, Hj.
  - intros scoring' j Hkept' _ Hsame.
    rewrite (run_of_distinct_records scoring' state file record others) by done.
    cbn [final cleanedData]. unfold scheduler_after. cbn [data].
    by rewrite !final_collection_lookup, Hsame.
  - intros k render render' j r. apply renders_permanent.
  - unfold scheduler_after. cbn [events]. apply scoring_calls_events.
Qed.

(** C4, amended.  In a run whose records have distinct identifiers, none
    of which a response item replaces by another (such an item carries no
    [_id], or the one of its record), from one value of the collection to
    the next a record either stays as it is or goes from pending to
    analysed or failed; a record that is analysed
    or failed never changes again; the merge assigns every position of the
    collection exactly once; and at the end every record is analysed or
    failed. *)
Theorem status_settles_once (scoring : nat -> ScoringOutcome) (state : AppState)
    (file : FileRead) (cleanedResults : list ParsedRecord) :
  inputFile state = Some file ->
  processFile JSON_parse parse_fragment fresh_id file = Resolved cleanedResults ->
  NoDup ((fun r : ParsedRecord => _id r) <$> cleanedResults) ->
  identifiers_kept scoring cleanedResults ->
  let run := handleProcessClick JSON_parse parse_fragment fresh_id scoring state in
  (forall k render render' j r r',
     run_renders run !! k = Some render -> run_renders run !! S k = Some render' ->
     render !! j = Some r -> render' !! j = Some r' ->
     r' = r \/ (status r = Aguardando_IA /\ status r' <> Aguardando_IA))
  /\ (forall k render render' j r,
        run_renders run !! k = Some render -> run_renders run !! S k = Some render' ->
        render !! j = Some r -> status r <> Aguardando_IA -> render' !! j = Some r)
  /\ run_writes run = seq 0 (length cleanedResults)
  /\ NoDup (run_writes run)
  /\ (forall r, r ∈ cleanedData (final run) ->
        status r = Analisado \/ status r = Falha_na_Analise).
Proof.
  intros Hfile Hparsed Hnodup Hkept run.
  destruct cleanedResults as [|record others].
  { subst run. unfold handleProcessClick. rewrite Hfile, Hparsed.
    cbn [final run_renders run_writes cleanedData].
    split; [|split; [|split; [|split]]]; try done.
    - constructor.
    - by intros r Hr%elem_of_nil. }
  subst run. rewrite (run_of_distinct_records scoring state file record others) by done.
  cbn [final run_renders run_writes cleanedData].
  assert (writes (scheduler_after scoring (record :: others) (batches (record :: others)))
          = seq 0 (length (record :: others))) as Hwrites.
  { unfold scheduler_after. cbn [writes]. f_equal.
    pose proof (all_batches_cover (record :: others)). lia. }
  split; [|split; [|split; [|split]]].
  - intros k render render' j r r'. apply renders_transition.
  - intros k render render' j r. apply renders_permanent.
  - done.
  - rewrite Hwrites. apply NoDup_seq.
  - intros r (j & Hj)%list_elem_of_lookup.
    unfold scheduler_after in Hj. cbn [data] in Hj.
    rewrite final_collection_lookup in Hj.
    apply fmap_Some in Hj as (x & _ & ->).
    pose proof (settle_terminal (scoring (batch_start j)) x).
    by destruct (status (settle (scoring (batch_start j)) x)); [|left|right].
Qed.

(** C5, amended.  When the file gives no record the run stops with the
    message that no valid record was found, without any request to the
    scoring service, with an empty collection and the progress 0 of 0; the
    step it leaves is [done], not [idle].  A file that is rejected (it
    cannot be read, is no JSON, or is no array) leaves the step [idle]
    with the message of the rejection. *)
Theorem empty_dataset_stops_the_run (scoring : nat -> ScoringOutcome) (state : AppState)
    (file : FileRead) :
  inputFile state = Some file ->
  let run := handleProcessClick JSON_parse parse_fragment fresh_id scoring state in
  (processFile JSON_parse parse_fragment fresh_id file = Resolved [] ->
   error (final run) = Some no_record_message
   /\ no_record_message <> []
   /\ run_events run = []
   /\ cleanedData (final run) = []
   /\ progress (final run) = mkProgress 0 0
   /\ processingStep (final run) = done)
  /\ (forall message,
        processFile JSON_parse parse_fragment fresh_id file = Rejected message ->
        error (final run) = Some message
        /\ run_events run = []
        /\ cleanedData (final run) = []
        /\ processingStep (final run) = idle).
Proof.
  intros Hfile run. subst run. unfold handleProcessClick. rewrite Hfile. split.
  - intros ->. by cbn.
  - intros message ->. by cbn.
Qed.

End RunProperties.

(** ** Runs on the sample files *)

Lemma first_answered_then_throws_keeps (cleanedResults : list ParsedRecord) :
  identifiers_kept first_answered_then_throws cleanedResults.
Proof.
  intros j record _. apply settle_id. intros items item Hitems Hin.
  unfold first_answered_then_throws in Hitems.
  destruct (batch_start j =? 0); [|discriminate]. injection Hitems as <-.
  apply elem_of_cons in Hin as [->|Hin]; [done|]. by apply elem_of_nil in Hin.
Qed.

Lemma first_throws_then_answered_keeps (cleanedResults : list ParsedRecord) :
  identifiers_kept first_throws_then_answered cleanedResults.
Proof.
  intros j record _. apply settle_id. intros items item Hitems Hin.
  unfold first_throws_then_answered in Hitems.
  destruct (batch_start j =? 0); [discriminate|]. injection Hitems as <-.
  apply elem_of_cons in Hin as [->|Hin]; [done|].
  apply elem_of_cons in Hin as [->|Hin]; [done|]. by apply elem_of_nil in Hin.
Qed.

(** C2, as stated, fails.  Two records of a rejected batch carry the same
    identifier: the second one is never written and stays pending.  And
    when the first and the last of eleven records carry the same
    identifier, the rejected second batch overwrites the record that the
    first batch had analysed. *)
Lemma twin_record_stays_pending :
  processFile sample_JSON_parse sample_parse_fragment sample_fresh_id
    (FileContent (file_of_ids twin_ids)) = Resolved (records_of_ids twin_ids)
  /\ every_call_throws 0 = CallThrows
  /\ status <$> cleanedData (final (sample_run twin_ids every_call_throws))
     = [Falha_na_Analise; Aguardando_IA]
  /\ QualityScore <$> cleanedData (final (sample_run twin_ids every_call_throws))
     = [Some 0%float; None]
  /\ first_answered_then_throws 10 = CallThrows
  /\ (fun render : list CleanedRecord => status <$> render !! 0)
     <$> run_renders (sample_run eleven_ids first_answered_then_throws)
     = [None; Some Aguardando_IA; Some Analisado; Some Falha_na_Analise].
Proof. vm_compute. repeat split. Qed.

Lemma failed_batch_is_isolated_witness :
  let run := sample_run twelve_ids first_throws_then_answered in
  inputFile (selected twelve_ids) = Some (FileContent (file_of_ids twelve_ids))
  /\ processFile sample_JSON_parse sample_parse_fragment sample_fresh_id
       (FileContent (file_of_ids twelve_ids)) = Resolved (records_of_ids twelve_ids)
  /\ NoDup ((fun r : ParsedRecord => _id r) <$> records_of_ids twelve_ids)
  /\ identifiers_kept first_throws_then_answered (records_of_ids twelve_ids)
  /\ 0 < length (records_of_ids twelve_ids)
  /\ batch_start 0 = 0
  /\ (first_throws_then_answered 0 = CallThrows
      \/ first_throws_then_answered 0 = ResponseMalformed)
  /\ (forall j record,
        records_of_ids twelve_ids !! j = Some record -> batch_start j = 0 ->
        exists r, cleanedData (final run) !! j = Some r
                  /\ parsed r = record
                  /\ status r = Falha_na_Analise /\ QualityScore r = Some 0%float)
  /\ (forall j record,
        records_of_ids twelve_ids !! j = Some record -> batch_start j <> 0 ->
        cleanedData (final run) !! j
        = Some (settle (first_throws_then_answered (batch_start j)) record))
  /\ scoring_calls (run_events run)
     = map (fun k =>
              recordsToAnalyze
                (slice (k * BATCH_SIZE) (k * BATCH_SIZE + BATCH_SIZE)
                   (records_of_ids twelve_ids)))
           (seq 0 (batches (records_of_ids twelve_ids))).
Proof.
  assert (NoDup ((fun r : ParsedRecord => _id r) <$> records_of_ids twelve_ids)) as Hnodup.
  { apply (bool_decide_unpack _). vm_compute. exact I. }
  assert (0 < length (records_of_ids twelve_ids)) as Hlen by (vm_compute; lia).
  destruct (failed_batch_is_isolated sample_JSON_parse sample_parse_fragment sample_fresh_id
              first_throws_then_answered (selected twelve_ids)
              (FileContent (file_of_ids twelve_ids)) (records_of_ids twelve_ids) 0
              eq_refl eq_refl Hnodup
              (first_throws_then_answered_keeps (records_of_ids twelve_ids))
              Hlen eq_refl (or_introl eq_refl))
    as (_ & Hfailed & Hothers & _ & _ & Hcalls).
  repeat split; try done; [apply first_throws_then_answered_keeps|by left].
Defined.

Example twelve_records_run :
  (fun r : CleanedRecord => (status r, QualityScore r))
  <$> cleanedData (final (sample_run twelve_ids first_throws_then_answered))
  = replicate 10 (Falha_na_Analise, Some 0%float)
    ++ replicate 2 (Analisado, Some 7.9%float).
Proof. vm_compute. reflexivity. Qed.

(** C4, as stated, fails.  The first and the last of eleven records carry
    the same identifier: the record at position 0 goes from pending to
    analysed with the first batch and then to failed with the second one,
    position 0 is assigned twice and position 10 never. *)
Lemma shared_identifier_is_settled_twice :
  processFile sample_JSON_parse sample_parse_fragment sample_fresh_id
    (FileContent (file_of_ids eleven_ids)) = Resolved (records_of_ids eleven_ids)
  /\ (fun render : list CleanedRecord => status <$> render !! 0)
     <$> run_renders (sample_run eleven_ids first_answered_then_throws)
     = [None; Some Aguardando_IA; Some Analisado; Some Falha_na_Analise]
  /\ run_writes (sample_run eleven_ids first_answered_then_throws)
     = [0; 1; 2; 3; 4; 5; 6; 7; 8; 9; 0]
  /\ status <$> cleanedData (final (sample_run eleven_ids first_answered_then_throws)) !! 10
     = Some Aguardando_IA.
Proof. vm_compute. repeat split. Qed.

Lemma status_settles_once_witness :
  let run := sample_run twelve_ids first_throws_then_answered in
  inputFile (selected twelve_ids) = Some (FileContent (file_of_ids twelve_ids))
  /\ processFile sample_JSON_parse sample_parse_fragment sample_fresh_id
       (FileContent (file_of_ids twelve_ids)) = Resolved (records_of_ids twelve_ids)
  /\ NoDup ((fun r : ParsedRecord => _id r) <$> records_of_ids twelve_ids)
  /\ identifiers_kept first_throws_then_answered (records_of_ids twelve_ids)
  /\ (forall k render render' j r r',
        run_renders run !! k = Some render -> run_renders run !! S k = Some render' ->
        render !! j = Some r -> render' !! j = Some r' ->
        r' = r \/ (status r = Aguardando_IA /\ status r' <> Aguardando_IA))
  /\ run_writes run = seq 0 (length (records_of_ids twelve_ids))
  /\ NoDup (run_writes run)
  /\ (forall r, r ∈ cleanedData (final run) ->
        status r = Analisado \/ status r = Falha_na_Analise).
Proof.
  assert (NoDup ((fun r : ParsedRecord => _id r) <$> records_of_ids twelve_ids)) as Hnodup.
  { apply (bool_decide_unpack _). vm_compute. exact I. }
  destruct (status_settles_once sample_JSON_parse sample_parse_fragment sample_fresh_id
              first_throws_then_answered (selected twelve_ids)
              (FileContent (file_of_ids twelve_ids)) (records_of_ids twelve_ids)
              eq_refl eq_refl Hnodup
              (first_throws_then_answered_keeps (records_of_ids twelve_ids)))
    as (Hstep & _ & Hwrites & Honce & Hfinal).
  split; [reflexivity|]. split; [reflexivity|]. split; [exact Hnodup|].
  split; [apply first_throws_then_answered_keeps|].
  split; [exact Hstep|]. split; [exact Hwrites|]. split; [exact Honce|exact Hfinal].
Defined.

(** Distinct identifiers are not enough: when the response item for the
    record a carries the [_id] b, the analysed record a is merged into
    the position of b, which is assigned twice, and the record a is left
    pending. *)
Example renamed_record_stays_pending :
  let run := sample_run ["a"; "b"]%string first_item_renames in
  (fun r : ParsedRecord => _id r) <$> records_of_ids ["a"; "b"]%string = [js "a"; js "b"]
  /\ (fun r : CleanedRecord => (_id r, status r)) <$> cleanedData (final run)
     = [(js "a", Aguardando_IA); (js "b", Analisado)]
  /\ run_writes run = [1; 1].
Proof. vm_compute. repeat split. Qed.

(** C5, as stated, fails.  The file with the empty array gives no record;
    the run starts from the step [idle] and leaves the step [done]. *)
Lemma empty_dataset_leaves_done :
  let state := initial_state (Some (FileContent (js "[]"))) in
  let run :=
    handleProcessClick sample_JSON_parse sample_parse_fragment sample_fresh_id
      every_call_throws state in
  processFile sample_JSON_parse sample_parse_fragment sample_fresh_id
    (FileContent (js "[]")) = Resolved []
  /\ processingStep state = idle
  /\ processingStep (final run) = done
  /\ processingStep (final run) <> idle.
Proof. vm_compute. repeat split. discriminate. Qed.

Lemma empty_dataset_stops_the_run_witness :
  let state := initial_state (Some (FileContent (js "[]"))) in
  let run :=
    handleProcessClick sample_JSON_parse sample_parse_fragment sample_fresh_id
      every_call_throws state in
  inputFile state = Some (FileContent (js "[]"))
  /\ processFile sample_JSON_parse sample_parse_fragment sample_fresh_id
       (FileContent (js "[]")) = Resolved []
  /\ error (final run) = Some no_record_message
  /\ run_events run = []
  /\ cleanedData (final run) = []
  /\ processingStep (final run) = done.
Proof.
  destruct (empty_dataset_stops_the_run sample_JSON_parse sample_parse_fragment
              sample_fresh_id every_call_throws
              (initial_state (Some (FileContent (js "[]"))))
              (FileContent (js "[]")) eq_refl) as [Hempty _].
  destruct (Hempty eq_refl) as (Herror & _ & Hevents & Hdata & _ & Hstep).
  repeat split; done.
Defined.

(** ** The empty filter *)

Lemma includes_empty (s : jsstring) : includes s [] = true.
Proof. by destruct s. Qed.

(** C10. With the three filter texts empty every record passes, so the
    displayed collection is the whole collection in its order. *)
Theorem empty_filter_is_identity (toLowerCase : jsstring -> jsstring)
    (cleanedData : list CleanedRecord) :
  toLowerCase [] = [] ->
  displayedData toLowerCase no_filters cleanedData = cleanedData.
Proof.
  intros Hlower. unfold displayedData, no_filters. simpl. rewrite Hlower.
  induction cleanedData as [|item data IH]; simpl; [done|].
  by rewrite !includes_empty, IH.
Qed.

Lemma empty_filter_is_identity_witness :
  ascii_toLowerCase [] = []
  /\ displayedData ascii_toLowerCase no_filters
       [failed (sample_record "a"); scored (sample_record "b") (sample_item "b")]
     = [failed (sample_record "a"); scored (sample_record "b") (sample_item "b")].
Proof.
  split; [reflexivity|].
  apply (empty_filter_is_identity ascii_toLowerCase); reflexivity.
Defined.

(** ** CSV export and its round trip *)

Section CsvRoundTrip.
Import Csv.

Variable Number_toString : float -> jsstring.

Lemma prepend_field (text field : jsstring) (fields : list jsstring)
    (rows : list (list jsstring)) :
  prepend text ((field :: fields) :: rows) = ((text ++ field) :: fields) :: rows.
Proof. induction text as [|c text IH]; simpl; [done|]. by rewrite IH. Qed.

(** Inside quotes the reader undoes [escape_quotes] up to the closing quote. *)
Lemma read_quoted_body (text rest : jsstring) :
  read Quoted (escape_quotes text ++ QUOTE :: rest) = prepend text (read AfterQuote rest).
Proof.
  induction text as [|c text IH]; simpl; [done|].
  destruct (c =? QUOTE)%N eqn:Hc; simpl.
  - apply N.eqb_eq in Hc as ->. by rewrite IH.
  - by rewrite Hc, IH.
Qed.

Lemma read_quoted_field (text rest : jsstring) :
  read FieldStart (quoted text ++ rest) = prepend text (read AfterQuote rest).
Proof.
  unfold quoted. rewrite <- !app_assoc. simpl. apply read_quoted_body.
Qed.

Lemma read_plain_char (st : ReaderState) (c : N) (rest : jsstring) :
  plain c = true -> st <> Quoted -> st <> AfterQuote ->
  read st (c :: rest) = add_char c (read Unquoted rest).
Proof.
  unfold plain. intros Hc Hq Ha.
  apply negb_true_iff in Hc.
  apply orb_false_iff in Hc as [Hc Hcr]. apply orb_false_iff in Hc as [Hc Hlf].
  apply orb_false_iff in Hc as [Hquote Hcomma].
  destruct st; try done; simpl; by rewrite Hquote, Hcomma, Hlf, Hcr.
Qed.

Lemma read_plain_text (name rest : jsstring) :
  forallb plain name = true ->
  read Unquoted (name ++ rest) = prepend name (read Unquoted rest).
Proof.
  induction name as [|c name IH]; intros Hp; [done|].
  simpl in Hp. apply andb_true_iff in Hp as [Hc Hp].
  change ((c :: name) ++ rest) with (c :: (name ++ rest)).
  rewrite read_plain_char by done. by rewrite IH.
Qed.

Lemma read_plain_name (name rest : jsstring) :
  name <> [] -> forallb plain name = true ->
  read FieldStart (name ++ rest) = prepend name (read Unquoted rest).
Proof.
  destruct name as [|c name]; [done|]. intros _ Hp.
  simpl in Hp. apply andb_true_iff in Hp as [Hc Hp].
  change ((c :: name) ++ rest) with (c :: (name ++ rest)).
  rewrite read_plain_char by done. by rewrite read_plain_text.
Qed.

Lemma read_record_end (st : ReaderState) (rest : jsstring) (rows : list (list jsstring)) :
  st = Unquoted \/ st = AfterQuote ->
  record_end rest rows -> read st rest = [[]] :: rows.
Proof. intros [-> | ->] [|c more]; reflexivity. Qed.

Lemma read_comma (st : ReaderState) (rest : jsstring) :
  st = Unquoted \/ st = AfterQuote ->
  read st ([COMMA] ++ rest) = new_field (read FieldStart rest).
Proof. by intros [-> | ->]. Qed.

(** A line of quoted cells reads back as the texts of its cells. *)
Lemma read_quoted_line (texts : list jsstring) (rest : jsstring)
    (rows : list (list jsstring)) :
  texts <> [] -> record_end rest rows ->
  read FieldStart (join [COMMA] (map quoted texts) ++ rest) = texts :: rows.
Proof.
  intros Hne Hend. induction texts as [|text texts IH]; [done|].
  destruct texts as [|text' texts].
  - change (join [COMMA] (map quoted [text])) with (quoted text).
    rewrite read_quoted_field, (read_record_end AfterQuote _ rows) by auto.
    by rewrite prepend_field, app_nil_r.
  - change (join [COMMA] (map quoted (text :: text' :: texts)))
      with (quoted text ++ [COMMA] ++ join [COMMA] (map quoted (text' :: texts))).
    rewrite <- !app_assoc, read_quoted_field.
    rewrite read_comma by auto. rewrite IH by done. simpl.
    by rewrite prepend_field, app_nil_r.
Qed.

(** A line of plain names reads back as the names. *)
Lemma read_plain_line (names : list jsstring) (rest : jsstring)
    (rows : list (list jsstring)) :
  names <> [] ->
  forallb (fun name => negb (bool_decide (name = [])) && forallb plain name) names = true ->
  record_end rest rows ->
  read FieldStart (join [COMMA] names ++ rest) = names :: rows.
Proof.
  intros Hne Hnames Hend. induction names as [|name names IH]; [done|].
  simpl in Hnames. apply andb_true_iff in Hnames as [Hname Hnames].
  apply andb_true_iff in Hname as [Hnonempty Hplain].
  apply negb_true_iff, bool_decide_eq_false in Hnonempty.
  destruct names as [|name' names].
  - change (join [COMMA] [name]) with name.
    rewrite read_plain_name, (read_record_end Unquoted _ rows) by auto.
    by rewrite prepend_field, app_nil_r.
  - change (join [COMMA] (name :: name' :: names))
      with (name ++ [COMMA] ++ join [COMMA] (name' :: names)).
    rewrite <- !app_assoc, read_plain_name by done.
    rewrite read_comma by auto. rewrite IH by done. simpl.
    by rewrite prepend_field, app_nil_r.
Qed.

Lemma row_texts_nonempty (row : CleanedRecord) : row_texts Number_toString row <> [].
Proof. discriminate. Qed.

Lemma csv_row_quoted (row : CleanedRecord) :
  csv_row Number_toString row = join [COMMA] (map quoted (row_texts Number_toString row)).
Proof. unfold csv_row, row_texts. by rewrite map_map. Qed.

Lemma csv_row_starts_with_quote (row : CleanedRecord) :
  exists rest, csv_row Number_toString row = QUOTE :: rest.
Proof. unfold csv_row, headers. simpl. by eexists. Qed.

Lemma record_end_lines (row : CleanedRecord) (data : list CleanedRecord) :
  record_end
    (LF :: join [LF] (map (csv_row Number_toString) (row :: data)))
    (read FieldStart (join [LF] (map (csv_row Number_toString) (row :: data)))).
Proof.
  destruct (csv_row_starts_with_quote row) as [rest Hrow].
  assert (exists more, join [LF] (map (csv_row Number_toString) (row :: data))
                       = QUOTE :: more) as [more ->].
  { destruct data; cbn [map join]; rewrite Hrow; eexists; reflexivity. }
  constructor.
Qed.

(** The data lines read back as the texts of their records. *)
Lemma read_data_lines (row : CleanedRecord) (data : list CleanedRecord) :
  read FieldStart (join [LF] (map (csv_row Number_toString) (row :: data)))
  = map (row_texts Number_toString) (row :: data).
Proof.
  revert row. induction data as [|row' data IH]; intros row.
  - cbn [map join]. rewrite csv_row_quoted, <- (app_nil_r (join _ _)).
    apply read_quoted_line; [apply row_texts_nonempty|constructor].
  - change (join [LF] (map (csv_row Number_toString) (row :: row' :: data)))
      with (csv_row Number_toString row
            ++ LF :: join [LF] (map (csv_row Number_toString) (row' :: data))).
    rewrite csv_row_quoted.
    rewrite (read_quoted_line _ _ _ (row_texts_nonempty row) (record_end_lines row' data)).
    by rewrite IH.
Qed.

Lemma headers_plain :
  forallb (fun name => negb (bool_decide (name = [])) && forallb plain name) headers = true.
Proof. vm_compute. reflexivity. Qed.

(** The texts of the properties of a record, field by field. *)
Lemma row_texts_fields (r : CleanedRecord) :
  row_texts Number_toString r
  = [ title r; community r; author r; text_clean r;
      match word_count_given r with
      | Some number => Number_toString number
      | None => count_toString (word_count r)
      end;
      from_option Number_toString [] (clareza r);
      from_option Number_toString [] (empatia r);
      from_option Number_toString [] (coerencia r);
      from_option Number_toString [] (formalidade r);
      from_option Number_toString [] (eficacia r);
      from_option Number_toString [] (linguistica r);
      from_option Number_toString [] (QualityScore r);
      default [] (comentario r);
      status_text (status r) ].
Proof.
  unfold row_texts, headers, field_text. cbn [map].
  change (property r (js "title")) with (Some (VString (title r))).
  change (property r (js "community")) with (Some (VString (community r))).
  change (property r (js "author")) with (Some (VString (author r))).
  change (property r (js "text_clean")) with (Some (VString (text_clean r))).
  change (property r (js "word_count"))
    with (Some (match word_count_given r with
                | Some number => VNumber number
                | None => VCount (word_count r)
                end)).
  change (property r (js "clareza")) with (VNumber <$> clareza r).
  change (property r (js "empatia")) with (VNumber <$> empatia r).
  change (property r (js "coerencia")) with (VNumber <$> coerencia r).
  change (property r (js "formalidade")) with (VNumber <$> formalidade r).
  change (property r (js "eficacia")) with (VNumber <$> eficacia r).
  change (property r (js "linguistica")) with (VNumber <$> linguistica r).
  change (property r (js "QualityScore")) with (VNumber <$> QualityScore r).
  change (property r (js "comentario")) with (VString <$> comentario r).
  change (property r (js "status")) with (Some (VString (status_text (status r)))).
  repeat apply (f_equal2 cons); try reflexivity.
  - by destruct (word_count_given r).
  - by destruct (clareza r).
  - by destruct (empatia r).
  - by destruct (coerencia r).
  - by destruct (formalidade r).
  - by destruct (eficacia r).
  - by destruct (linguistica r).
  - by destruct (QualityScore r).
  - by destruct (comentario r).
Qed.

(** C8, amended.  The export has the fixed column order title, community,
    author, text_clean, word_count, clareza, empatia, coerencia,
    formalidade, eficacia, linguistica, QualityScore, comentario, status:
    the first line holds these names, unquoted, and the score column is
    named QualityScore.  Every cell of a record is wrapped in quotes with
    its quotes doubled, so that reading the output back with the
    quoted-CSV rules gives the column names and then, for each record in
    order, its title, community, author and clean text as they are, its
    word count, six scores and quality score as the platform prints a
    number (the empty text for an absent one), its comment (the empty text
    for an absent one) and its status.  No record gives the empty output,
    without a header line. *)
Theorem csv_export_round_trip (row : CleanedRecord) (data : list CleanedRecord) :
  let names :=
    [ js "title"; js "community"; js "author"; js "text_clean"; js "word_count";
      js "clareza"; js "empatia"; js "coerencia"; js "formalidade"; js "eficacia";
      js "linguistica"; js "QualityScore"; js "comentario"; js "status" ] in
  let number := from_option Number_toString [] in
  let cells := fun r : CleanedRecord =>
    [ title r; community r; author r; text_clean r;
      match word_count_given r with
      | Some given => Number_toString given
      | None => count_toString (word_count r)
      end;
      number (clareza r); number (empatia r); number (coerencia r);
      number (formalidade r); number (eficacia r); number (linguistica r);
      number (QualityScore r);
      default [] (comentario r);
      status_text (status r) ] in
  convertToCsv Number_toString [] = []
  /\ convertToCsv Number_toString (row :: data)
     = join [LF]
         (join [COMMA] names
          :: map (fun r =>
                    join [COMMA]
                      (map (fun cell => [QUOTE] ++ escape_quotes cell ++ [QUOTE])
                           (cells r)))
               (row :: data))
  /\ parse_csv (convertToCsv Number_toString (row :: data))
     = names :: map cells (row :: data).
Proof.
  intros names number cells.
  assert (forall r, row_texts Number_toString r = cells r) as Hcells
    by apply row_texts_fields.
  split; [reflexivity|]. split.
  - unfold convertToCsv. f_equal. f_equal. apply map_ext. intros r.
    unfold csv_row. f_equal. rewrite <- Hcells. unfold row_texts. by rewrite map_map.
  - assert (exists c more, convertToCsv Number_toString (row :: data) = c :: more)
      as (c & more & Hcsv) by (eexists _, _; reflexivity).
    unfold parse_csv. rewrite Hcsv, <- Hcsv. clear c more Hcsv.
    change (convertToCsv Number_toString (row :: data))
      with (join [COMMA] headers
            ++ LF :: join [LF] (map (csv_row Number_toString) (row :: data))).
    rewrite (read_plain_line headers _ _ ltac:(discriminate) headers_plain
               (record_end_lines row data)).
    rewrite read_data_lines. f_equal. apply map_ext, Hcells.
Qed.

(** The example of the specification: a comment with quotes in it. *)
Example quoted_comment :
  quoted (js "He said " ++ [QUOTE] ++ js "ok" ++ [QUOTE])
  = [QUOTE] ++ js "He said " ++ [QUOTE; QUOTE] ++ js "ok" ++ [QUOTE; QUOTE] ++ [QUOTE].
Proof. reflexivity. Qed.

End CsvRoundTrip.

(** C8, as stated, fails.  The column of the score is not named
    quality_score: the header line of the export of a record reads
    QualityScore in its place. *)
Lemma score_column_is_named_QualityScore :
  let csv := Csv.convertToCsv (fun _ => []) [pending (sample_record "a")] in
  head (split LF csv)
  = Some (js ("title,community,author,text_clean,word_count,clareza,empatia,coerencia,"
              ++ "formalidade,eficacia,linguistica,QualityScore,comentario,status"))
  /\ nth_error Csv.headers 11 = Some (js "QualityScore")
  /\ forallb (fun name => negb (bool_decide (name = js "quality_score"))) Csv.headers = true
  /\ (fun line => includes line (js "quality_score")) <$> head (split LF csv)
     = Some false.
Proof. vm_compute. repeat split. Qed.

(** * Further properties *)

(** ** More on the repair of a content *)

Section RepairProperties.

Lemma trimStart_spaces (spaces rest : jsstring) :
  forallb is_space spaces = true -> trimStart (spaces ++ rest) = trimStart rest.
Proof.
  induction spaces as [|c spaces IH]; intros Hs; [done|].
  simpl in Hs. apply andb_true_iff in Hs as [Hc Hs].
  unfold trimStart in *. simpl. rewrite Hc. by apply IH.
Qed.

Lemma trimEnd_spaces (spaces : jsstring) :
  forallb is_space spaces = true -> trimEnd spaces = [].
Proof.
  induction spaces as [|c spaces IH]; intros Hs; [done|].
  simpl in Hs. apply andb_true_iff in Hs as [Hc Hs].
  simpl. by rewrite IH, Hc.
Qed.

Lemma trimEnd_keeps (s : jsstring) (d : N) (spaces : jsstring) :
  is_space d = false -> forallb is_space spaces = true ->
  trimEnd (s ++ d :: spaces) = s ++ [d].
Proof.
  intros Hd Hs. induction s as [|c s IH].
  - simpl. by rewrite trimEnd_spaces, Hd.
  - change ((c :: s) ++ d :: spaces) with (c :: (s ++ d :: spaces)).
    cbn [trimEnd]. rewrite IH. by destruct s.
Qed.

(** [trim] removes the spaces around a text that starts and ends with
    other characters. *)
Lemma trim_between (before middle after : jsstring) (c d : N) :
  forallb is_space before = true -> forallb is_space after = true ->
  is_space c = false -> is_space d = false ->
  trim (before ++ c :: middle ++ d :: after) = c :: middle ++ [d].
Proof.
  intros Hb Ha Hc Hd. unfold trim. rewrite trimStart_spaces by done.
  unfold trimStart. cbn [dropWhile]. rewrite Hc.
  by apply (trimEnd_keeps (c :: middle) d after).
Qed.

Lemma lastIndexOf_from_app (position : Z) (s t : jsstring) (c : N) (found : Z) :
  lastIndexOf_from position (s ++ t) c found
  = lastIndexOf_from (position + Z.of_nat (length s)) t c
      (lastIndexOf_from position s c found).
Proof.
  revert position found. induction s as [|d s IH]; intros position found.
  - simpl. by rewrite Z.add_0_r.
  - cbn [app lastIndexOf_from length]. rewrite IH. f_equal. lia.
Qed.

Lemma lastIndexOf_from_absent (position : Z) (t : jsstring) (c : N) (found : Z) :
  forallb (fun d => negb (d =? c)%N) t = true ->
  lastIndexOf_from position t c found = found.
Proof.
  revert position. induction t as [|d t IH]; intros position Ht; [done|].
  simpl in Ht. apply andb_true_iff in Ht as [Hd Ht]. apply negb_true_iff in Hd.
  cbn [lastIndexOf_from]. rewrite Hd. by apply IH.
Qed.

Lemma lastIndexOf_from_bound (position : Z) (s : jsstring) (c : N) (found : Z) :
  (found < position)%Z ->
  (lastIndexOf_from position s c found < position + Z.of_nat (length s))%Z.
Proof.
  revert position found. induction s as [|d s IH]; intros position found Hfound.
  - simpl. lia.
  - cbn [lastIndexOf_from length].
    specialize (IH (position + 1)%Z (if (d =? c)%N then position else found)).
    destruct (d =? c)%N; lia.
Qed.

(** The last position of [c] in a text that ends with it. *)
Lemma lastIndexOf_last (s : jsstring) (c : N) :
  lastIndexOf (s ++ [c]) c = Z.of_nat (length s).
Proof.
  unfold lastIndexOf. rewrite lastIndexOf_from_app. simpl. by rewrite N.eqb_refl.
Qed.

Lemma lastIndexOf_bound (s : jsstring) (c : N) :
  (lastIndexOf s c < Z.of_nat (length s))%Z.
Proof. apply (lastIndexOf_from_bound 0 s c (-1)). lia. Qed.

Lemma startsWith_head (c d : N) (s : jsstring) :
  startsWith (c :: s) [d] = (d =? c)%N.
Proof. destruct s; simpl; by rewrite andb_true_r. Qed.

Lemma strip_trailing_comma_strips (text spaces : jsstring) :
  forallb is_space spaces = true ->
  strip_trailing_comma (text ++ [COMMA] ++ spaces ++ [RBRACKET]) = text ++ [RBRACKET].
Proof.
  intros Hs. unfold strip_trailing_comma.
  rewrite !app_assoc, rev_app_distr. cbn [rev app].
  rewrite N.eqb_refl, <- app_assoc, rev_app_distr, rev_app_distr.
  cbn [rev app].
  assert (dropWhile is_space ((rev spaces ++ [COMMA]) ++ rev text) = COMMA :: rev text)
    as ->.
  { rewrite <- app_assoc. cbn [app].
    assert (forallb is_space (rev spaces) = true) as Hrev.
    { apply forallb_forall. intros x Hx%in_rev.
      by eapply forallb_forall in Hs. }
    revert Hrev. generalize (rev spaces). intros l.
    induction l as [|x l IH]; intros Hl; [done|].
    simpl in Hl. apply andb_true_iff in Hl as [Hx Hl]. simpl. rewrite Hx. by apply IH. }
  by rewrite N.eqb_refl, rev_involutive.
Qed.

(** X1. A comma left before the closing bracket of an array is removed by
    the repair: of a content that is, up to the spaces around it, an opening
    bracket, a body, a comma, spaces and the closing bracket, the repaired
    text is the opening bracket, the body and the closing bracket. *)
Theorem trailing_comma_is_removed (before body spaces after : jsstring) :
  forallb is_space before = true ->
  forallb is_space spaces = true ->
  forallb is_space after = true ->
  repair (before ++ [LBRACKET] ++ body ++ [COMMA] ++ spaces ++ [RBRACKET] ++ after)
  = [LBRACKET] ++ body ++ [RBRACKET].
Proof.
  intros Hbefore Hspaces Hafter. unfold repair.
  assert (trim (before ++ [LBRACKET] ++ body ++ [COMMA] ++ spaces ++ [RBRACKET] ++ after)
          = LBRACKET :: (body ++ [COMMA] ++ spaces) ++ [RBRACKET]) as ->.
  { rewrite <- (trim_between before (body ++ [COMMA] ++ spaces) after LBRACKET RBRACKET)
      by done.
    by rewrite <- !app_assoc. }
  cbv zeta. rewrite !startsWith_head.
  change (LBRACE =? LBRACKET)%N with false. change (LBRACKET =? LBRACKET)%N with true.
  cbv iota.
  set (inner := LBRACKET :: (body ++ [COMMA] ++ spaces)).
  change (LBRACKET :: (body ++ [COMMA] ++ spaces) ++ [RBRACKET]) with (inner ++ [RBRACKET]).
  rewrite lastIndexOf_last.
  assert (lastIndexOf (inner ++ [RBRACKET]) RBRACE < Z.of_nat (length inner))%Z as Hbrace.
  { unfold lastIndexOf. rewrite lastIndexOf_from_app. simpl lastIndexOf_from at 1.
    change (RBRACKET =? RBRACE)%N with false. cbv iota.
    apply (lastIndexOf_bound inner RBRACE). }
  replace (Z.of_nat (length inner) <? lastIndexOf (inner ++ [RBRACKET]) RBRACE)%Z
    with false by (symmetry; apply Z.ltb_ge; lia).
  replace (-1 <? Z.of_nat (length inner))%Z with true by (symmetry; apply Z.ltb_lt; lia).
  unfold substring0.
  replace (Z.to_nat (Z.of_nat (length inner) + 1)) with (length (inner ++ [RBRACKET]))
    by (rewrite length_app; simpl; lia).
  rewrite firstn_all. subst inner.
  replace ((LBRACKET :: body ++ [COMMA] ++ spaces) ++ [RBRACKET])
    with ((LBRACKET :: body) ++ [COMMA] ++ spaces ++ [RBRACKET])
    by (cbn [app]; f_equal; by rewrite <- !app_assoc).
  by rewrite strip_trailing_comma_strips.
Qed.

(** X2. An array cut off after one of its objects is closed there: when
    the trimmed content opens with a bracket and no closing brace or bracket
    follows its last closing brace, the repaired text is the content up to
    that brace followed by a closing bracket; what came after the brace is
    dropped. *)
Theorem truncated_array_is_closed (content body rest : jsstring) :
  trim content = [LBRACKET] ++ body ++ [RBRACE] ++ rest ->
  forallb (fun c => negb (c =? RBRACE)%N) rest = true ->
  forallb (fun c => negb (c =? RBRACKET)%N) rest = true ->
  repair content = [LBRACKET] ++ body ++ [RBRACE; RBRACKET].
Proof.
  intros Htrim Hbrace Hbracket. unfold repair. rewrite Htrim.
  cbv zeta. change ([LBRACKET] ++ body ++ [RBRACE] ++ rest)
    with (LBRACKET :: body ++ [RBRACE] ++ rest).
  rewrite !startsWith_head.
  change (LBRACE =? LBRACKET)%N with false. change (LBRACKET =? LBRACKET)%N with true.
  cbv iota.
  set (kept := LBRACKET :: body).
  change (LBRACKET :: body ++ [RBRACE] ++ rest) with (kept ++ [RBRACE] ++ rest).
  assert (lastIndexOf (kept ++ [RBRACE] ++ rest) RBRACE = Z.of_nat (length kept)) as ->.
  { rewrite app_assoc. unfold lastIndexOf. rewrite lastIndexOf_from_app.
    rewrite lastIndexOf_from_absent by done. apply lastIndexOf_last. }
  assert (lastIndexOf (kept ++ [RBRACE] ++ rest) RBRACKET < Z.of_nat (length kept))%Z
    as Hlast.
  { rewrite app_assoc. unfold lastIndexOf. rewrite lastIndexOf_from_app.
    rewrite lastIndexOf_from_absent by done.
    rewrite lastIndexOf_from_app. simpl lastIndexOf_from at 1.
    change (RBRACE =? RBRACKET)%N with false. cbv iota.
    apply (lastIndexOf_bound kept RBRACKET). }
  replace (lastIndexOf (kept ++ [RBRACE] ++ rest) RBRACKET <? Z.of_nat (length kept))%Z
    with true by (symmetry; apply Z.ltb_lt; lia).
  unfold substring0.
  replace (Z.to_nat (Z.of_nat (length kept) + 1)) with (length (kept ++ [RBRACE]))
    by (rewrite length_app; simpl; lia).
  rewrite (app_assoc kept), take_app_length.
  rewrite (strip_trailing_comma_id (kept ++ [RBRACE]) RBRACE).
  - subst kept. by rewrite <- app_assoc.
  - by rewrite last_snoc.
  - done.
  - done.
Qed.

(** X3. What follows the closing bracket of an array is dropped: when
    the trimmed content opens with a bracket and no closing brace or bracket
    follows its last closing bracket, the repaired text is the content up to
    that bracket, with a comma left before the bracket removed. *)
Theorem trailing_text_is_dropped (content body rest : jsstring) :
  trim content = [LBRACKET] ++ body ++ [RBRACKET] ++ rest ->
  forallb (fun c => negb (c =? RBRACE)%N) rest = true ->
  forallb (fun c => negb (c =? RBRACKET)%N) rest = true ->
  repair content = strip_trailing_comma ([LBRACKET] ++ body ++ [RBRACKET]).
Proof.
  intros Htrim Hbrace Hbracket. unfold repair. rewrite Htrim.
  cbv zeta. change ([LBRACKET] ++ body ++ [RBRACKET] ++ rest)
    with (LBRACKET :: body ++ [RBRACKET] ++ rest).
  rewrite !startsWith_head.
  change (LBRACE =? LBRACKET)%N with false. change (LBRACKET =? LBRACKET)%N with true.
  cbv iota.
  set (kept := LBRACKET :: body).
  change (LBRACKET :: body ++ [RBRACKET] ++ rest) with (kept ++ [RBRACKET] ++ rest).
  assert (lastIndexOf (kept ++ [RBRACKET] ++ rest) RBRACKET = Z.of_nat (length kept))
    as ->.
  { rewrite app_assoc. unfold lastIndexOf. rewrite lastIndexOf_from_app.
    rewrite lastIndexOf_from_absent by done. apply lastIndexOf_last. }
  assert (lastIndexOf (kept ++ [RBRACKET] ++ rest) RBRACE < Z.of_nat (length kept))%Z
    as Hlast.
  { rewrite app_assoc. unfold lastIndexOf. rewrite lastIndexOf_from_app.
    rewrite lastIndexOf_from_absent by done.
    rewrite lastIndexOf_from_app. simpl lastIndexOf_from at 1.
    change (RBRACKET =? RBRACE)%N with false. cbv iota.
    apply (lastIndexOf_bound kept RBRACE). }
  replace (Z.of_nat (length kept) <? lastIndexOf (kept ++ [RBRACKET] ++ rest) RBRACE)%Z
    with false by (symmetry; apply Z.ltb_ge; lia).
  replace (-1 <? Z.of_nat (length kept))%Z with true by (symmetry; apply Z.ltb_lt; lia).
  unfold substring0.
  replace (Z.to_nat (Z.of_nat (length kept) + 1)) with (length (kept ++ [RBRACKET]))
    by (rewrite length_app; simpl; lia).
  by rewrite (app_assoc kept), take_app_length.
Qed.

End RepairProperties.

(** ** More on the ingestion *)

Section NormalForm.

Variable parse_fragment : jsstring -> option (list Node).

Lemma replace_space_runs_normal (in_run : bool) (s : jsstring) :
  only_plain_spaces s = true -> single_spaced s = true ->
  (in_run = true -> starts_clean s = true) ->
  replace_space_runs in_run s = s.
Proof.
  revert in_run. induction s as [|c s IH]; intros in_run Hplain Hsingle Hstart; [done|].
  cbn [only_plain_spaces forallb] in Hplain. apply andb_true_iff in Hplain as [Hc Hplain].
  cbn [single_spaced] in Hsingle. apply andb_true_iff in Hsingle as [Hnext Hsingle].
  cbn [replace_space_runs]. destruct (is_space c) eqn:Hspace.
  - simpl in Hc. apply N.eqb_eq in Hc as ->.
    destruct in_run.
    + specialize (Hstart eq_refl). cbn [starts_clean] in Hstart.
      by rewrite Hspace in Hstart.
    + f_equal. apply IH; [done..|]. intros _. by destruct (starts_clean s).
  - f_equal. by apply IH.
Qed.

Lemma trimStart_normal (s : jsstring) : starts_clean s = true -> trimStart s = s.
Proof.
  destruct s as [|c s]; [done|]. simpl. intros Hc%negb_true_iff.
  unfold trimStart. simpl. by rewrite Hc.
Qed.

Lemma trimEnd_normal (s : jsstring) :
  (forall c, last s = Some c -> is_space c = false) -> trimEnd s = s.
Proof.
  induction s as [|c s IH]; intros Hlast; [done|].
  cbn [trimEnd]. destruct s as [|d s].
  - simpl. by rewrite (Hlast c eq_refl).
  - rewrite IH; [done|]. intros x Hx. apply Hlast. by rewrite last_cons, Hx.
Qed.

(** X4. The second replace of [cleanHtmlAndNormalize] never changes its
    argument, since the first one has already turned every non-breaking
    space into a space: the clean text is the trimmed text content with
    each run of spaces replaced by one space. *)
Theorem nbsp_replace_changes_nothing (htmlString : jsstring) :
  (forall text : jsstring,
     replace_nbsp (replace_space_runs false text) = replace_space_runs false text)
  /\ cleanHtmlAndNormalize parse_fragment htmlString
     = match parse_fragment htmlString with
       | Some children => trim (replace_space_runs false (flat_map textContent children))
       | None => []
       end.
Proof.
  assert (forall text : jsstring,
            replace_nbsp (replace_space_runs false text) = replace_space_runs false text)
    as Hsame.
  { intros text. apply replace_nbsp_plain, replace_space_runs_plain. }
  split; [done|].
  rewrite cleanHtmlAndNormalize_text.
  destruct (parse_fragment htmlString); [|done]. by rewrite Hsame.
Qed.

(** X5. Cleaning a clean text gives it back: when the parser reads the
    clean text of a description as that same text (it holds no markup), the
    clean text of the clean text is the clean text. *)
Theorem cleaning_is_idempotent (htmlString : jsstring) :
  let text := cleanHtmlAndNormalize parse_fragment htmlString in
  flat_map textContent <$> parse_fragment text = Some text ->
  cleanHtmlAndNormalize parse_fragment text = text.
Proof.
  intros text Hparse.
  destruct (cleanHtmlAndNormalize_shape parse_fragment htmlString)
    as (Hplain & Hsingle & Hstart & Hend).
  fold text in Hplain, Hsingle, Hstart, Hend.
  rewrite cleanHtmlAndNormalize_text.
  destruct (parse_fragment text) as [children|]; [|done].
  simpl in Hparse. injection Hparse as ->.
  rewrite replace_space_runs_normal by done.
  rewrite replace_nbsp_plain by done.
  unfold trim. rewrite trimStart_normal by done. by apply trimEnd_normal.
Qed.

End NormalForm.

Section Identifiers.

Variable JSON_parse : jsstring -> option JsonValue.
Variable parse_fragment : jsstring -> option (list Node).
Variable fresh_id : nat -> jsstring.

Lemma or_else_nonempty (value : option jsstring) (fallback : jsstring) :
  fallback <> [] -> or_else value fallback <> [].
Proof. by destruct value as [[|c s]|]. Qed.

(** X6. No record leaves the ingestion without an identifier: when the
    generated identifiers are not empty, every record of a file that
    resolves has a non-empty [_id], which is the [$oid] of its element when
    that is a non-empty text and the generated identifier otherwise. *)
Theorem record_identifier_is_never_empty (file : FileRead) (records : list ParsedRecord) :
  (forall position, fresh_id position <> []) ->
  processFile JSON_parse parse_fragment fresh_id file = Resolved records ->
  Forall (fun record : ParsedRecord => _id record <> []) records
  /\ (forall position item,
        _id (to_record parse_fragment fresh_id position item)
        = match Raw._id item ≫= Raw.oid with
          | Some (c :: s) => c :: s
          | Some [] | None => fresh_id position
          end).
Proof.
  intros Hfresh Hfile. split; [|done].
  unfold processFile in Hfile. destruct file as [|content]; [done|].
  destruct (fst (parse_content JSON_parse content)) as [[|data]|]; try done.
  injection Hfile as <-.
  pose proof (processed_elements (to_record parse_fragment fresh_id) data) as Hall.
  unfold processedRecords.
  induction Hall as [|record element records elements (position & item & _ & _ & ->) _ IH];
    constructor; [|done].
  cbn [to_record _id]. by apply or_else_nonempty.
Qed.

End Identifiers.

(** ** More on the score *)

Section AnalysedBatch.

Lemma overwrite_nothing (record : ParsedRecord) : overwrite record no_properties = record.
Proof. by destruct record. Qed.

(** X7. Whatever the service does, [analyzeQualityBatch] returns one
    record for each record it was given, in order; each one is analysed or
    failed, never pending, and carries a quality score.  A failed one is
    the record it was given, with the score 0 and no score of a dimension
    and no comment.  An analysed one has the scores of a response item
    with the identifier of the record, and for each of [_id], title,
    community, author, text and word count the value that this item
    carries, the one of the record it was given where the item carries
    none; so when no response item carries such a property, every record
    comes back with the properties it was given. *)
Theorem analysed_batch_keeps_its_records (batch : list ParsedRecord)
    (outcome : ScoringOutcome) :
  length (analyzeQualityBatch batch outcome) = length batch
  /\ (forall i record,
        batch !! i = Some record ->
        exists r : CleanedRecord,
          analyzeQualityBatch batch outcome !! i = Some r
          /\ is_Some (QualityScore r)
          /\ ((status r = Falha_na_Analise
               /\ parsed r = record /\ word_count_given r = None
               /\ QualityScore r = Some 0%float /\ analysis r = no_analysis)
              \/ (status r = Analisado
                  /\ exists items result,
                       outcome = ResponseItems items
                       /\ result ∈ items /\ id result = Some (_id record)
                       /\ analysis r = item_analysis result
                       /\ _id r = default (_id record) (Carried._id (carried result))
                       /\ title r = default (title record) (Carried.title (carried result))
                       /\ community r
                          = default (community record) (Carried.community (carried result))
                       /\ author r = default (author record) (Carried.author (carried result))
                       /\ text_clean r
                          = default (text_clean record) (Carried.text_clean (carried result))
                       /\ word_count r = word_count record
                       /\ word_count_given r = Carried.word_count (carried result))))
  /\ ((forall items item,
         outcome = ResponseItems items -> item ∈ items -> carried item = no_properties) ->
      map parsed (analyzeQualityBatch batch outcome) = batch
      /\ Forall (fun r => word_count_given r = None) (analyzeQualityBatch batch outcome)).
Proof.
  split; [apply analyzeQualityBatch_length|]. rewrite analyzeQualityBatch_settle. split.
  - intros i record Hi. exists (settle outcome record).
    split; [by rewrite list_lookup_fmap, Hi|].
    destruct (settle_cases outcome record)
      as [->|(items & result & -> & Hres & ->)].
    + split; [by eexists|]. by left.
    + split; [by eexists|]. right. split; [done|]. exists items, result.
      apply resultMap_lookup_Some in Hres as [Hin Hid]. done.
  - intros Hnone.
    assert (forall record, parsed (settle outcome record) = record
                           /\ word_count_given (settle outcome record) = None) as Hsame.
    { intros record. destruct (settle_cases outcome record)
        as [->|(items & result & -> & [Hin _]%resultMap_lookup_Some & ->)]; [done|].
      cbn [scored parsed word_count_given].
      rewrite (Hnone items result eq_refl Hin). by rewrite overwrite_nothing. }
    split.
    + rewrite map_map. rewrite <- (map_id batch) at 2. apply map_ext.
      intros record. apply Hsame.
    + apply Forall_forall. intros r (record & <- & _)%list_elem_of_In%in_map_iff.
      apply Hsame.
Qed.

End AnalysedBatch.


Section NotANumber.

Lemma Prim2SF_nan : Prim2SF nan = S754_nan.
Proof. reflexivity. Qed.

Lemma add_nan_r (x : float) : (x + nan)%float = nan.
Proof.
  apply Prim2SF_inj. rewrite add_spec, Prim2SF_nan.
  by destruct (Prim2SF x).
Qed.

Lemma add_nan_l (x : float) : (nan + x)%float = nan.
Proof.
  apply Prim2SF_inj. rewrite add_spec, Prim2SF_nan.
  by destruct (Prim2SF x).
Qed.

Lemma mul_nan_l (x : float) : (nan * x)%float = nan.
Proof.
  apply Prim2SF_inj. rewrite mul_spec, Prim2SF_nan.
  by destruct (Prim2SF x).
Qed.

Lemma qualityScore_nan (result : PartialAnalysis) (key : Dimension) :
  dimension key result = None -> qualityScore result = nan.
Proof.
  intros Hkey. unfold qualityScore, weights. cbn [fold_left dimension].
  destruct key; cbn [dimension] in Hkey; rewrite Hkey; cbn [ToNumber];
    rewrite mul_nan_l, ?add_nan_r, ?add_nan_l; done.
Qed.

(** X8. A response item that lacks one of the six scores still makes its
    record analysed, with a quality score that is not a number: the sum
    takes the absent score as NaN, and NaN goes through the rounding. *)
Theorem missing_score_gives_nan (batch : list ParsedRecord)
    (analysisResults : list ApiResponseItem) (i : nat)
    (record : ParsedRecord) (result : ApiResponseItem) (key : Dimension) :
  batch !! i = Some record ->
  resultMap analysisResults !! Some (_id record) = Some result ->
  dimension key result = None ->
  exists r : CleanedRecord,
    analyzeQualityBatch batch (ResponseItems analysisResults) !! i = Some r
    /\ status r = Analisado
    /\ QualityScore r = Some nan.
Proof.
  intros Hi Hresult Hkey. exists (scored record result). split; [|split; [done|]].
  - unfold analyzeQualityBatch. rewrite list_lookup_fmap, Hi. simpl. by rewrite Hresult.
  - cbn [scored QualityScore]. by rewrite (qualityScore_nan result key).
Qed.

End NotANumber.

Section RepeatedItems.

Lemma resultMap_fold_other (items : list ApiResponseItem)
    (m : gmap (option jsstring) ApiResponseItem) (k : option jsstring) :
  (forall r, r ∈ items -> id r <> k) ->
  fold_left (fun m res => <[ id res := res ]> m) items m !! k = m !! k.
Proof.
  revert m. induction items as [|item items IH]; intros m Hother; [done|].
  cbn [fold_left]. rewrite IH.
  - apply lookup_insert_ne. apply Hother. by left.
  - intros r Hr. apply Hother. by right.
Qed.

(** X9. Of two response items with the same identifier the later one
    counts: a record is analysed with the last item of the response that
    carries its identifier. *)
Theorem last_response_item_wins (batch : list ParsedRecord)
    (earlier later : list ApiResponseItem) (item : ApiResponseItem)
    (i : nat) (record : ParsedRecord) :
  batch !! i = Some record ->
  id item = Some (_id record) ->
  (forall other, other ∈ later -> id other <> Some (_id record)) ->
  analyzeQualityBatch batch (ResponseItems (earlier ++ item :: later)) !! i
  = Some (scored record item).
Proof.
  intros Hi Hid Hlater.
  assert (resultMap (earlier ++ item :: later) !! Some (_id record) = Some item) as Hmap.
  { unfold resultMap. rewrite fold_left_app. cbn [fold_left].
    rewrite resultMap_fold_other by done. rewrite Hid. apply lookup_insert_eq. }
  unfold analyzeQualityBatch. rewrite list_lookup_fmap, Hi. simpl. by rewrite Hmap.
Qed.

End RepeatedItems.

(** ** Whole scores *)

Section WholeScores.

Lemma same_float_eq (x y : float) : same_float x y = true -> x = y.
Proof.
  unfold same_float. intros H. apply Prim2SF_inj.
  destruct (Prim2SF x) as [s|s| |s m e], (Prim2SF y) as [t|t| |t n f]; try done.
  - by apply Bool.eqb_prop in H as ->.
  - by apply Bool.eqb_prop in H as ->.
  - apply andb_true_iff in H as [H He]. apply andb_true_iff in H as [Hs Hm].
    apply Bool.eqb_prop in Hs as ->. apply Pos.eqb_eq in Hm as ->.
    by apply Z.eqb_eq in He as ->.
Qed.

Lemma same_sum_eq (p q : Z * float) : same_sum p q = true -> p = q.
Proof.
  destruct p as [n x], q as [m y]. unfold same_sum. cbn [fst snd].
  destruct (n =? m)%Z eqn:Hn; [|done]. apply Z.eqb_eq in Hn as ->.
  by intros ->%same_float_eq.
Qed.

Lemma add_sum_elem (p q : Z * float) (sums : list (Z * float)) :
  q = p \/ q ∈ sums -> q ∈ add_sum p sums.
Proof.
  induction sums as [|r sums IH]; intros Hq.
  - destruct Hq as [->|Hq]; [by left|by apply elem_of_nil in Hq].
  - cbn [add_sum]. destruct (same_sum p r) eqn:Hsame.
    + apply same_sum_eq in Hsame as <-. destruct Hq as [->|Hq]; [by left|done].
    + destruct Hq as [->|Hq].
      * right. apply IH. by left.
      * apply elem_of_cons in Hq as [->|Hq]; [by left|]. right. apply IH. by right.
Qed.

Lemma add_sums_elem (q : Z * float) (l : list (Z * float)) :
  q ∈ l -> q ∈ fold_right add_sum [] l.
Proof.
  induction l as [|p l IH]; intros Hq; [done|].
  cbn [fold_right]. apply add_sum_elem.
  apply elem_of_cons in Hq as [->|Hq]; [by left|]. right. by apply IH.
Qed.

Lemma next_sums_elem (key : Dimension) (weight : float) (sums : list (Z * float))
    (n : Z) (acc : float) (k : nat) :
  (n, acc) ∈ sums -> k <= 10 ->
  ((n + Z.of_nat k * weight_hundredths key)%Z, (acc + whole k * weight)%float)
  ∈ next_sums key weight sums.
Proof.
  intros Hin Hk. unfold next_sums. cbv zeta. apply add_sums_elem.
  apply list_elem_of_In, in_flat_map. exists (n, acc). split.
  - by apply list_elem_of_In.
  - apply in_map_iff.
    exists ((Z.of_nat k * weight_hundredths key)%Z, (whole k * weight)%float).
    split; [done|]. unfold terms. apply in_map_iff. exists k. split; [done|].
    apply in_seq. lia.
Qed.

Lemma reachable_sums_print : forallb prints_hundredths reachable_sums = true.
Proof. vm_compute. reflexivity. Qed.

(** The sum over some of the weights stays among the sums that can be
    reached. *)
Lemma reduce_reachable (score : Dimension -> nat) (result : PartialAnalysis)
    (entries : list (Dimension * float)) (sums : list (Z * float)) (n : Z) (acc : float) :
  (forall key, score key <= 10 /\ dimension key result = Some (whole (score key))) ->
  (n, acc) ∈ sums ->
  (fold_left (fun n '(key, _) => (n + Z.of_nat (score key) * weight_hundredths key)%Z)
             entries n,
   fold_left (fun acc '(key, weight) =>
                (acc + ToNumber (dimension key result) * weight)%float)
             entries acc)
  ∈ fold_left (fun sums '(key, weight) => next_sums key weight sums) entries sums.
Proof.
  intros Hscore. revert sums n acc.
  induction entries as [|[key weight] entries IH]; intros sums n acc Hin; [done|].
  cbn [fold_left]. apply IH.
  destruct (Hscore key) as [Hle ->]. cbn [ToNumber]. by apply next_sums_elem.
Qed.

(** X10. Whole scores give an exact result: when the six scores of a
    response item are whole numbers from 0 to 10, the weighted sum printed
    with two decimals is exactly 20, 20, 20, 15, 15 and 10 hundredths of the
    scores added up, so the quality score is the binary64 number nearest to
    that decimal and lies between 0 and 10; the rounding errors of the sum
    never reach the second decimal. *)
Theorem whole_scores_give_exact_hundredths (a b c d e f : nat)
    (comment identifier : option jsstring) (given : Carried.t) (record : ParsedRecord) :
  a <= 10 -> b <= 10 -> c <= 10 -> d <= 10 -> e <= 10 -> f <= 10 ->
  let result := whole_scores a b c d e f comment in
  let n := hundredths_of a b c d e f in
  toFixed2 (qualityScore result) = FixDigits false n
  /\ QualityScore (scored record (mkItem identifier result given))
     = Some (parseFloat (FixDigits false n))
  /\ (0 <= n <= 1000)%Z.
Proof.
  intros Ha Hb Hc Hd He Hf result n.
  assert (prints_hundredths (n, qualityScore result) = true) as Hprint.
  { set (score := fun key => match key with
                             | Clareza => a | Empatia => b | Coerencia => c
                             | Formalidade => d | Eficacia => e | Linguistica => f
                             end).
    assert (forall key,
              score key <= 10 /\ dimension key result = Some (whole (score key)))
      as Hscore by (by intros []).
    assert ((0%Z, 0%float) ∈ [(0%Z, 0%float)]) as Hstart by (by left).
    pose proof (reduce_reachable score result weights _ _ _ Hscore Hstart) as Hin.
    assert (fold_left
              (fun n '(key, _) => (n + Z.of_nat (score key) * weight_hundredths key)%Z)
              weights 0%Z = n) as Hn.
    { unfold weights. cbn [fold_left score weight_hundredths]. subst n.
      unfold hundredths_of. lia. }
    rewrite Hn in Hin. apply list_elem_of_In in Hin.
    exact (proj1 (forallb_forall prints_hundredths reachable_sums)
             reachable_sums_print _ Hin). }
  unfold prints_hundredths in Hprint. cbn [fst snd] in Hprint.
  destruct (toFixed2 (qualityScore result)) as [| |[] m|] eqn:Hfixed; try done.
  apply Z.eqb_eq in Hprint as ->.
  split; [done|]. split.
  - cbn [scored QualityScore item_analysis]. by rewrite Hfixed.
  - subst n. unfold hundredths_of. lia.
Qed.

End WholeScores.

(** ** Runs over any records *)

(** What follows holds whether or not two records share an identifier. *)

Section AnyRecords.

Variable scoring : nat -> ScoringOutcome.
Variable cleanedResults : list ParsedRecord.

Lemma merge_batch_ids (prevData analyzedBatch : list CleanedRecord) :
  same_identifiers cleanedResults prevData ->
  same_identifiers cleanedResults (merge_batch prevData analyzedBatch).
Proof.
  unfold same_identifiers. intros <-.
  revert prevData. unfold merge_batch.
  induction analyzedBatch as [|analyzedRecord rest IH]; intros prevData; [done|].
  cbn [fold_left]. by rewrite IH, merge_record_ids.
Qed.

Lemma batch_turn_on_schedule (k : nat) (s : Scheduler) :
  k * BATCH_SIZE < length cleanedResults ->
  on_schedule scoring cleanedResults k s ->
  on_schedule scoring cleanedResults (S k)
    (batch_turn scoring cleanedResults (k * BATCH_SIZE) s).
Proof.
  intros Hk (Hcounter & Hevents & Hids & shown & Hshown & Hlast & Hlength & Hrenders).
  unfold on_schedule, batch_turn.
  cbn [data counter events renders]. rewrite Hcounter, Hevents, Hshown.
  unfold scheduler_after. cbn [counter events processed total].
  rewrite slice_length.
  set (newData := merge_batch (data s) _).
  assert (same_identifiers cleanedResults newData) as Hnew by (by apply merge_batch_ids).
  split; [|split; [|split]].
  - f_equal. change (S k * BATCH_SIZE) with (BATCH_SIZE + k * BATCH_SIZE). lia.
  - rewrite (seq_S k), flat_map_app. simpl. by rewrite app_nil_r.
  - done.
  - exists (shown ++ [newData]). split; [done|]. split; [by rewrite last_snoc|]. split.
    + rewrite length_app. simpl. lia.
    + apply Forall_app. split; [done|]. by constructor.
Qed.

(** What every turn carries from [k] to [k + 1] holds for the number of
    batches once the loop has stopped. *)
Lemma batch_loop_invariant (P : nat -> Scheduler -> Prop) :
  (forall k s, k * BATCH_SIZE < length cleanedResults -> P k s ->
               P (S k) (batch_turn scoring cleanedResults (k * BATCH_SIZE) s)) ->
  forall fuel k s,
    k <= batches cleanedResults -> batches cleanedResults <= k + fuel -> P k s ->
    P (batches cleanedResults) (batch_loop scoring fuel cleanedResults (k * BATCH_SIZE) s).
Proof.
  intros Hturn fuel. induction fuel as [|fuel IH]; intros k s Hk Hfuel Hs.
  - simpl. by replace (batches cleanedResults) with k by lia.
  - cbn [batch_loop]. destruct (k * BATCH_SIZE <? length cleanedResults) eqn:Hlt.
    + apply Nat.ltb_lt in Hlt.
      replace (k * BATCH_SIZE + BATCH_SIZE) with (S k * BATCH_SIZE)
        by (unfold BATCH_SIZE; lia).
      apply IH.
      * apply turn_below_batches in Hlt. lia.
      * lia.
      * by apply Hturn.
    + apply Nat.ltb_ge in Hlt.
      assert (~ k < batches cleanedResults) by (rewrite <- turn_below_batches; lia).
      by replace (batches cleanedResults) with k by lia.
Qed.

Lemma start_on_schedule :
  on_schedule scoring cleanedResults 0
    {| data := map pending cleanedResults;
       counter := mkProgress 0 (length cleanedResults);
       events := [];
       renders := [[]; map pending cleanedResults];
       writes := [] |}.
Proof.
  assert (same_identifiers cleanedResults (map pending cleanedResults)) as Hids.
  { unfold same_identifiers. rewrite <- list_fmap_compose. done. }
  unfold on_schedule. cbn [data counter events renders].
  split; [done|]. split; [done|]. split; [done|].
  exists [map pending cleanedResults]. split; [done|]. split; [done|]. split; [done|].
  by constructor.
Qed.

(** The slices of the batches, one after the other, are the list. *)
Lemma slices_concat {A} (l : list A) (m : nat) :
  concat (map (fun k => slice (k * BATCH_SIZE) (k * BATCH_SIZE + BATCH_SIZE) l) (seq 0 m))
  = take (m * BATCH_SIZE) l.
Proof.
  induction m as [|m IH]; [done|].
  rewrite seq_S, map_app, concat_app, IH. simpl. rewrite app_nil_r.
  unfold slice.
  replace (m * BATCH_SIZE + BATCH_SIZE - m * BATCH_SIZE) with BATCH_SIZE by lia.
  rewrite take_take_drop. f_equal. unfold BATCH_SIZE. lia.
Qed.

End AnyRecords.

Section AnyRun.

Variable JSON_parse : jsstring -> option JsonValue.
Variable parse_fragment : jsstring -> option (list Node).
Variable fresh_id : nat -> jsstring.
Variable scoring : nat -> ScoringOutcome.

(** A run over at least one record ends where the loop ends. *)
Lemma run_of_records (state : AppState) (file : FileRead)
    (record : ParsedRecord) (others : list ParsedRecord) :
  let cleanedResults := record :: others in
  inputFile state = Some file ->
  processFile JSON_parse parse_fragment fresh_id file = Resolved cleanedResults ->
  exists s : Scheduler,
    on_schedule scoring cleanedResults (batches cleanedResults) s
    /\ handleProcessClick JSON_parse parse_fragment fresh_id scoring state
       = {| final := mkApp (inputFile state) (data s) done (counter s) None;
            run_events := events s;
            run_renders := renders s;
            run_writes := writes s |}.
Proof.
  intros cleanedResults Hfile Hparsed.
  unfold handleProcessClick. rewrite Hfile, Hparsed. fold cleanedResults.
  eexists. split; [|reflexivity].
  apply (batch_loop_invariant scoring cleanedResults
           (on_schedule scoring cleanedResults)
           (batch_turn_on_schedule scoring cleanedResults)
           (length cleanedResults) 0).
  - lia.
  - apply batches_le_length.
  - apply start_on_schedule.
Qed.

Lemma run_events_closed (state : AppState) (file : FileRead)
    (cleanedResults : list ParsedRecord) :
  inputFile state = Some file ->
  processFile JSON_parse parse_fragment fresh_id file = Resolved cleanedResults ->
  run_events (handleProcessClick JSON_parse parse_fragment fresh_id scoring state)
  = flat_map (fun k => batch_events cleanedResults (k * BATCH_SIZE))
             (seq 0 (batches cleanedResults)).
Proof.
  intros Hfile Hparsed. destruct cleanedResults as [|record others].
  - unfold handleProcessClick. by rewrite Hfile, Hparsed.
  - destruct (run_of_records state file record others Hfile Hparsed)
      as (s & (_ & Hevents & _) & ->).
    by rewrite Hevents.
Qed.

(** X11. Every record is sent for scoring exactly once, in the order of the
    file, whatever the service answers and even when identifiers repeat:
    the requests of a run, one after the other, are the request entries of
    all the records; there is one request per started group of ten records,
    none is empty or holds more than ten entries, and no text sent is
    longer than 2000 code units. *)
Theorem scoring_calls_cover_the_records (state : AppState) (file : FileRead)
    (cleanedResults : list ParsedRecord) :
  inputFile state = Some file ->
  processFile JSON_parse parse_fragment fresh_id file = Resolved cleanedResults ->
  let run := handleProcessClick JSON_parse parse_fragment fresh_id scoring state in
  concat (scoring_calls (run_events run))
  = map (fun r : ParsedRecord => (_id r, take 2000 (text_clean r))) cleanedResults
  /\ length (scoring_calls (run_events run)) = (length cleanedResults + 9) / 10
  /\ Forall (fun request => 1 <= length request <= 10) (scoring_calls (run_events run))
  /\ Forall (fun entry : jsstring * jsstring => length (snd entry) <= 2000)
            (concat (scoring_calls (run_events run))).
Proof.
  intros Hfile Hparsed run.
  assert (scoring_calls (run_events run)
          = map (fun k =>
                   recordsToAnalyze
                     (slice (k * BATCH_SIZE) (k * BATCH_SIZE + BATCH_SIZE) cleanedResults))
                (seq 0 (batches cleanedResults))) as Hcalls.
  { subst run. rewrite (run_events_closed state file cleanedResults) by done.
    apply scoring_calls_events. }
  assert (concat (scoring_calls (run_events run)) = recordsToAnalyze cleanedResults)
    as Hconcat.
  { rewrite Hcalls. unfold recordsToAnalyze.
    rewrite <- (map_map (fun k => slice (k * BATCH_SIZE) (k * BATCH_SIZE + BATCH_SIZE)
                                    cleanedResults)
                        (map (fun r : ParsedRecord => (_id r, take 2000 (text_clean r))))).
    rewrite <- concat_map, slices_concat.
    by rewrite take_ge by apply all_batches_cover. }
  split; [done|]. split; [|split].
  - by rewrite Hcalls, length_map, length_seq.
  - rewrite Hcalls. apply Forall_forall. intros request Hin.
    apply list_elem_of_In, in_map_iff in Hin as (k & <- & Hk).
    apply in_seq in Hk. unfold recordsToAnalyze. rewrite length_map, slice_length.
    assert (k * BATCH_SIZE < length cleanedResults) by (apply turn_below_batches; lia).
    unfold BATCH_SIZE in *. lia.
  - rewrite Hconcat. unfold recordsToAnalyze. apply Forall_forall. intros entry Hin.
    apply list_elem_of_In, in_map_iff in Hin as (r & <- & _). simpl.
    rewrite length_take. lia.
Qed.

Lemma paced_events (cleanedResults : list ParsedRecord) (m j : nat) :
  j + m = batches cleanedResults ->
  flat_map (fun k => batch_events cleanedResults (k * BATCH_SIZE)) (seq j m)
  = paced (map (fun k =>
                  recordsToAnalyze
                    (slice (k * BATCH_SIZE) (k * BATCH_SIZE + BATCH_SIZE) cleanedResults))
               (seq j m)).
Proof.
  revert j. induction m as [|m IH]; intros j Hj; [done|].
  cbn [seq flat_map map]. rewrite IH by lia. unfold batch_events.
  destruct m as [|m].
  - assert (~ S j * BATCH_SIZE < length cleanedResults) as Hlast.
    { rewrite turn_below_batches. lia. }
    replace (j * BATCH_SIZE + BATCH_SIZE <? length cleanedResults) with false; [done|].
    symmetry. apply Nat.ltb_ge. unfold BATCH_SIZE in *. lia.
  - assert (S j * BATCH_SIZE < length cleanedResults) as Hmore.
    { rewrite turn_below_batches. lia. }
    replace (j * BATCH_SIZE + BATCH_SIZE <? length cleanedResults) with true; [done|].
    symmetry. apply Nat.ltb_lt. unfold BATCH_SIZE in *. lia.
Qed.

Lemma paced_delays (requests : list (list (jsstring * jsstring))) :
  delays (paced requests) = replicate (length requests - 1) 5000.
Proof.
  induction requests as [|request [|request' rest] IH]; [done..|].
  change (paced (request :: request' :: rest))
    with (ScoringCall request :: Delay 5000 :: paced (request' :: rest)).
  change (delays (ScoringCall request :: Delay 5000 :: paced (request' :: rest)))
    with (5000 :: delays (paced (request' :: rest))).
  rewrite IH. cbn [length]. by rewrite !Nat.sub_succ, !Nat.sub_0_r.
Qed.

Lemma paced_calls (requests : list (list (jsstring * jsstring))) :
  scoring_calls (paced requests) = requests.
Proof.
  induction requests as [|request [|request' rest] IH]; [done..|].
  change (paced (request :: request' :: rest))
    with (ScoringCall request :: Delay 5000 :: paced (request' :: rest)).
  change (scoring_calls (ScoringCall request :: Delay 5000 :: paced (request' :: rest)))
    with (request :: scoring_calls (paced (request' :: rest))).
  by rewrite IH.
Qed.

(** X12. The run waits five seconds between two requests and nowhere else:
    its events are its requests with one pause of 5000 milliseconds between
    each request and the next, none before the first and none after the
    last, so a run of [n] records pauses one time less than it has groups of
    ten. *)
Theorem pauses_only_between_requests (state : AppState) (file : FileRead)
    (cleanedResults : list ParsedRecord) :
  inputFile state = Some file ->
  processFile JSON_parse parse_fragment fresh_id file = Resolved cleanedResults ->
  let run := handleProcessClick JSON_parse parse_fragment fresh_id scoring state in
  run_events run = paced (scoring_calls (run_events run))
  /\ delays (run_events run) = replicate ((length cleanedResults + 9) / 10 - 1) 5000.
Proof.
  intros Hfile Hparsed run.
  assert (run_events run
          = paced (map (fun k =>
                          recordsToAnalyze
                            (slice (k * BATCH_SIZE) (k * BATCH_SIZE + BATCH_SIZE)
                               cleanedResults))
                       (seq 0 (batches cleanedResults)))) as Hevents.
  { subst run. rewrite (run_events_closed state file cleanedResults) by done.
    by apply paced_events. }
  rewrite Hevents, paced_calls, paced_delays. split; [done|].
  by rewrite length_map, length_seq.
Qed.

(** X13. A run over [n] records, [n] at least one, ends with the step
    done, no error, the progress [n] of [n] and a collection that holds the
    [n] records by their identifiers in the order of the file, whatever the
    service answers and even when identifiers repeat; the selected file is
    kept. *)
Theorem run_ends_with_every_record_counted (state : AppState) (file : FileRead)
    (record : ParsedRecord) (others : list ParsedRecord) :
  let cleanedResults := record :: others in
  inputFile state = Some file ->
  processFile JSON_parse parse_fragment fresh_id file = Resolved cleanedResults ->
  let run := handleProcessClick JSON_parse parse_fragment fresh_id scoring state in
  processingStep (final run) = done
  /\ error (final run) = None
  /\ progress (final run) = mkProgress (length cleanedResults) (length cleanedResults)
  /\ (fun x : CleanedRecord => _id x) <$> cleanedData (final run)
     = (fun r : ParsedRecord => _id r) <$> cleanedResults
  /\ length (cleanedData (final run)) = length cleanedResults
  /\ inputFile (final run) = Some file.
Proof.
  intros cleanedResults Hfile Hparsed run.
  destruct (run_of_records state file record others Hfile Hparsed)
    as (s & (Hcounter & _ & Hids & _) & Hrun).
  subst run. rewrite Hrun. cbn [final processingStep error progress cleanedData inputFile].
  split; [done|]. split; [done|]. split; [|split; [done|split; [|done]]].
  - rewrite Hcounter. unfold scheduler_after. cbn [counter]. f_equal.
    pose proof (all_batches_cover cleanedResults). fold cleanedResults. lia.
  - unfold same_identifiers in Hids.
    by rewrite <- (length_fmap (fun x : CleanedRecord => _id x)), Hids, length_fmap.
Qed.

(** X14. The collection on the screen never loses, gains or reorders a
    record during a run: the run first empties the collection and from then
    on every value the collection takes holds the records of the file by
    their identifiers in order; it takes one value per request after the
    first two, and the last of them is the final collection. *)
Theorem every_render_holds_the_records (state : AppState) (file : FileRead)
    (record : ParsedRecord) (others : list ParsedRecord) :
  let cleanedResults := record :: others in
  inputFile state = Some file ->
  processFile JSON_parse parse_fragment fresh_id file = Resolved cleanedResults ->
  let run := handleProcessClick JSON_parse parse_fragment fresh_id scoring state in
  run_renders run !! 0 = Some []
  /\ (forall k render,
        run_renders run !! S k = Some render ->
        (fun x : CleanedRecord => _id x) <$> render
        = (fun r : ParsedRecord => _id r) <$> cleanedResults)
  /\ length (run_renders run) = 2 + length (scoring_calls (run_events run))
  /\ last (run_renders run) = Some (cleanedData (final run)).
Proof.
  intros cleanedResults Hfile Hparsed run.
  destruct (run_of_records state file record others Hfile Hparsed)
    as (s & (_ & Hevents & _ & shown & Hshown & Hlast & Hlength & Hall) & Hrun).
  subst run. rewrite Hrun. cbn [final run_renders run_events cleanedData].
  rewrite Hshown. split; [done|]. split; [|split].
  - intros k render Hk. cbn [lookup list_lookup] in Hk.
    rewrite Forall_lookup in Hall. by apply (Hall k).
  - rewrite Hevents. unfold scheduler_after. cbn [events length].
    rewrite scoring_calls_events, length_map, length_seq. subst cleanedResults. lia.
  - destruct shown as [|render shown]; [done|]. by rewrite last_cons, Hlast.
Qed.

End AnyRun.

Section Outcomes.

Variable JSON_parse : jsstring -> option JsonValue.
Variable parse_fragment : jsstring -> option (list Node).
Variable fresh_id : nat -> jsstring.
Variable scoring : nat -> ScoringOutcome.

Lemma processFile_rejections (file : FileRead) (message : jsstring) :
  processFile JSON_parse parse_fragment fresh_id file = Rejected message ->
  message = read_error_message \/ message = syntax_error_message
  \/ message = not_array_message.
Proof.
  unfold processFile. destruct file as [|content]; [intros [= <-]; by left|].
  destruct (fst (parse_content JSON_parse content)) as [[|data]|]; intros [= <-]; auto.
Qed.

(** X15. A run with a file selected ends without an error exactly when the
    file gave at least one record; it ends in the step idle exactly when
    the file was rejected and in the step done otherwise, never in a step
    that counts as processing; and a run that ends with an error has a
    message to show, has sent nothing for scoring and leaves the collection
    empty. *)
Theorem run_reports_an_error_iff_no_record (state : AppState) (file : FileRead) :
  inputFile state = Some file ->
  let run := handleProcessClick JSON_parse parse_fragment fresh_id scoring state in
  let outcome := processFile JSON_parse parse_fragment fresh_id file in
  (error (final run) = None <-> exists record others, outcome = Resolved (record :: others))
  /\ (processingStep (final run) = idle <-> exists message, outcome = Rejected message)
  /\ (processingStep (final run) = done <-> exists records, outcome = Resolved records)
  /\ isProcessing (processingStep (final run)) = false
  /\ (forall message,
        error (final run) = Some message ->
        message <> [] /\ run_events run = [] /\ cleanedData (final run) = []).
Proof.
  intros Hfile run outcome.
  destruct outcome as [[|record others]|message] eqn:Houtcome; subst outcome.
  - assert (run = {| final := mkApp (inputFile state) [] done (mkProgress 0 0)
                                (Some no_record_message);
                     run_events := []; run_renders := [[]]; run_writes := [] |}) as ->.
    { subst run. unfold handleProcessClick. by rewrite Hfile, Houtcome. }
    cbn [final error processingStep cleanedData run_events].
    split; [split; [done|by intros (? & ? & ?)]|].
    split; [split; [done|by intros (? & ?)]|].
    split; [split; [by eexists|done]|]. split; [done|].
    by intros message [= <-].
  - destruct (run_of_records JSON_parse parse_fragment fresh_id scoring state file
                record others Hfile Houtcome) as (s & _ & Hrun).
    subst run. rewrite Hrun. cbn [final error processingStep cleanedData run_events].
    split; [split; [by eexists _, _|done]|].
    split; [split; [done|by intros (? & ?)]|].
    split; [split; [by eexists|done]|]. split; [done|]. done.
  - assert (run = {| final := mkApp (inputFile state) [] idle (mkProgress 0 0)
                                (Some message);
                     run_events := []; run_renders := [[]]; run_writes := [] |}) as ->.
    { subst run. unfold handleProcessClick. by rewrite Hfile, Houtcome. }
    cbn [final error processingStep cleanedData run_events].
    split; [split; [done|by intros (? & ? & ?)]|].
    split; [split; [by eexists|done]|].
    split; [split; [done|by intros (? & ?)]|]. split; [done|].
    intros ? [= <-]. split; [|done].
    by destruct (processFile_rejections file message Houtcome) as [->|[->| ->]].
Qed.

End Outcomes.

(** ** More on the filters *)

Section FilterProperties.

Variable toLowerCase : jsstring -> jsstring.

Lemma startsWith_spec (s search : jsstring) :
  startsWith s search = true <-> exists after, s = search ++ after.
Proof.
  revert search. induction s as [|d s IH]; intros [|c search]; simpl.
  - split; [by exists []|done].
  - split; [done|by intros [? ?]].
  - split; [by eexists|done].
  - rewrite andb_true_iff, N.eqb_eq, IH. split.
    + intros [-> [after ->]]. by exists after.
    + intros [after [= -> ->]]. split; [done|by exists after].
Qed.

Lemma includes_spec (s search : jsstring) :
  includes s search = true <-> occurs_in search s.
Proof.
  unfold occurs_in. induction s as [|d s IH]; cbn [includes].
  - rewrite orb_false_r, startsWith_spec. split.
    + intros [after ->]. by exists [], after.
    + intros ([|? ?] & after & H); [by exists after|done].
  - rewrite orb_true_iff, startsWith_spec, IH. split.
    + intros [[after ->]|(before & after & ->)].
      * by exists [], after.
      * by exists (d :: before), after.
    + intros ([|c before] & after & H).
      * left. by exists after.
      * right. injection H as -> ->. by exists before, after.
Qed.

Lemma occurs_in_trans (a b c : jsstring) :
  occurs_in a b -> occurs_in b c -> occurs_in a c.
Proof.
  intros (before & after & ->) (before' & after' & ->).
  exists (before' ++ before), (after ++ after'). by rewrite <- !app_assoc.
Qed.

Lemma filter_sublist {A} (p : A -> bool) (l : list A) : sublist (List.filter p l) l.
Proof.
  induction l as [|x l IH]; simpl; [constructor|].
  destruct (p x); by constructor.
Qed.

Lemma filter_narrower {A} (p q : A -> bool) (l : list A) :
  (forall x, p x = true -> q x = true) ->
  sublist (List.filter p l) (List.filter q l)
  /\ List.filter p (List.filter q l) = List.filter p l.
Proof.
  intros Hpq. induction l as [|x l [IHs IHe]]; simpl; [split; [constructor|done]|].
  destruct (p x) eqn:Hp.
  - rewrite (Hpq x Hp). simpl. rewrite Hp, IHe. split; [by constructor|done].
  - destruct (q x); simpl; rewrite ?Hp; (split; [by try constructor|done]).
Qed.

(** The test that a record passes the three filters. *)
Lemma passes_spec (filters : Filters.t) (item : CleanedRecord) :
  includes (toLowerCase (title item)) (toLowerCase (Filters.title filters))
  && includes (toLowerCase (community item)) (toLowerCase (Filters.community filters))
  && includes (toLowerCase (author item)) (toLowerCase (Filters.author filters)) = true
  <-> occurs_in (toLowerCase (Filters.title filters)) (toLowerCase (title item))
      /\ occurs_in (toLowerCase (Filters.community filters)) (toLowerCase (community item))
      /\ occurs_in (toLowerCase (Filters.author filters)) (toLowerCase (author item)).
Proof. rewrite !andb_true_iff, !includes_spec. tauto. Qed.

(** X16. A record is displayed exactly when it is in the collection and
    each of its title, community and author, in lower case, holds the
    filter text of that name, in lower case, as a run of neighbouring
    characters; the displayed records keep the order of the collection. *)
Theorem displayed_records_match (filters : Filters.t) (cleanedData : list CleanedRecord) :
  (forall item : CleanedRecord,
     item ∈ displayedData toLowerCase filters cleanedData
     <-> item ∈ cleanedData
         /\ occurs_in (toLowerCase (Filters.title filters)) (toLowerCase (title item))
         /\ occurs_in (toLowerCase (Filters.community filters))
              (toLowerCase (community item))
         /\ occurs_in (toLowerCase (Filters.author filters)) (toLowerCase (author item)))
  /\ sublist (displayedData toLowerCase filters cleanedData) cleanedData.
Proof.
  split; [|apply filter_sublist].
  intros item. unfold displayedData. cbv zeta.
  rewrite !list_elem_of_In, filter_In, passes_spec. tauto.
Qed.

(** X17. Narrowing a filter never brings a record back: when each new
    filter text, in lower case, holds the old one, the records displayed
    under the new filters are among those displayed under the old ones, in
    the same order, and filtering what was displayed gives the same as
    filtering the whole collection. *)
Theorem narrower_filter_shows_fewer (old new : Filters.t)
    (cleanedData : list CleanedRecord) :
  occurs_in (toLowerCase (Filters.title old)) (toLowerCase (Filters.title new)) ->
  occurs_in (toLowerCase (Filters.community old)) (toLowerCase (Filters.community new)) ->
  occurs_in (toLowerCase (Filters.author old)) (toLowerCase (Filters.author new)) ->
  sublist (displayedData toLowerCase new cleanedData)
          (displayedData toLowerCase old cleanedData)
  /\ displayedData toLowerCase new (displayedData toLowerCase old cleanedData)
     = displayedData toLowerCase new cleanedData.
Proof.
  intros Htitle Hcommunity Hauthor. unfold displayedData. cbv zeta.
  apply filter_narrower. intros item.
  rewrite !passes_spec. intros (Ht & Hc & Ha).
  split; [|split]; by eapply occurs_in_trans.
Qed.

End FilterProperties.

Section FilterChanges.

Lemma typed_into_snoc (name : jsstring) (changes : list (jsstring * jsstring))
    (changed value : jsstring) :
  typed_into name (changes ++ [(changed, value)])
  = if decide (changed = name) then value else typed_into name changes.
Proof.
  unfold typed_into. rewrite omap_app. cbn [omap list_omap fst snd].
  destruct (decide (changed = name)).
  - by rewrite last_snoc.
  - by rewrite app_nil_r.
Qed.

(** X18. After any sequence of changes to the filter inputs each filter
    holds the last value typed into the input of its name, and the empty
    text when nothing was typed there; a change under another name alters
    no filter. *)
Theorem filters_hold_the_last_values (changes : list (jsstring * jsstring)) :
  fold_left (fun prev change => handleFilterChange (fst change) (snd change) prev)
            changes no_filters
  = Filters.mk (typed_into (js "title") changes) (typed_into (js "community") changes)
               (typed_into (js "author") changes).
Proof.
  induction changes as [|[name value] changes IH] using rev_ind; [done|].
  rewrite fold_left_app, IH. cbn [fold_left fst snd].
  rewrite !typed_into_snoc. unfold handleFilterChange. cbn [Filters.title Filters.community Filters.author].
  destruct (decide (name = js "title")) as [->|Ht].
  { rewrite decide_False by done. by rewrite decide_False by done. }
  destruct (decide (name = js "community")) as [->|Hc].
  { by rewrite decide_False by done. }
  by destruct (decide (name = js "author")).
Qed.

End FilterChanges.

(** ** Records that share an identifier *)

Section SharedIdentifiers.

Variable scoring : nat -> ScoringOutcome.
Variable cleanedResults : list ParsedRecord.

Lemma same_identifiers_lookup (render : list CleanedRecord) (j : nat) :
  same_identifiers cleanedResults render ->
  (fun x : CleanedRecord => _id x) <$> render !! j
  = (fun r : ParsedRecord => _id r) <$> cleanedResults !! j.
Proof. unfold same_identifiers. intros H. by rewrite <- !list_lookup_fmap, H. Qed.

(** The updater leaves alone every record but the first one that carries
    the identifier of the analysed record. *)
Lemma merge_record_other (newData : list CleanedRecord) (analyzedRecord : CleanedRecord)
    (j : nat) :
  (forall item : CleanedRecord, newData !! j = Some item ->
     _id item <> _id analyzedRecord
     \/ exists i (other : CleanedRecord), i < j /\ newData !! i = Some other /\ _id other = _id item) ->
  merge_record newData analyzedRecord !! j = newData !! j.
Proof.
  intros Hother. unfold merge_record.
  destruct (findIndex newData analyzedRecord) as [[index found]|] eqn:Hfind; [|done].
  apply list_find_Some in Hfind as (Hindex & Hid & Hfirst).
  destruct (decide (index = j)) as [->|Hne]; [|by rewrite list_lookup_insert_ne].
  exfalso. destruct (Hother found Hindex) as [Hdiff|(i & other & Hi & Hlookup & Hsame)].
  - by apply Hdiff.
  - apply (Hfirst i other Hlookup Hi). congruence.
Qed.

Lemma merge_record_first (newData : list CleanedRecord) (analyzedRecord : CleanedRecord)
    (j : nat) (item : CleanedRecord) :
  newData !! j = Some item -> _id analyzedRecord = _id item ->
  (forall i (other : CleanedRecord),
     i < j -> newData !! i = Some other -> _id other <> _id item) ->
  merge_record newData analyzedRecord !! j = Some (spread item analyzedRecord).
Proof.
  intros Hj Hid Hfirst. unfold merge_record.
  destruct (findIndex newData analyzedRecord) as [[index found]|] eqn:Hfind.
  - apply list_find_Some in Hfind as (Hindex & Hfound & Hmin).
    destruct (Nat.lt_trichotomy index j) as [Hlt|[->|Hgt]].
    + exfalso. apply (Hfirst index found Hlt Hindex). congruence.
    + rewrite Hj in Hindex. injection Hindex as <-.
      apply list_lookup_insert_eq. by eapply lookup_lt_Some.
    + exfalso. apply (Hmin j item Hj Hgt). congruence.
  - apply list_find_None in Hfind. rewrite Forall_forall in Hfind.
    exfalso. apply (Hfind item); [|done]. by eapply list_elem_of_lookup_2.
Qed.

Lemma repeats_lookup (render : list CleanedRecord) (j : nat) (item : CleanedRecord) :
  same_identifiers cleanedResults render ->
  render !! j = Some item ->
  repeats_an_identifier cleanedResults j
  <-> exists i (other : CleanedRecord),
        i < j /\ render !! i = Some other /\ _id other = _id item.
Proof.
  intros Hids Hj. unfold repeats_an_identifier.
  pose proof (same_identifiers_lookup render j Hids) as Hjd. rewrite Hj in Hjd.
  split.
  - intros (i & Hi & Hsame). rewrite <- Hjd in Hsame.
    rewrite <- (same_identifiers_lookup render i Hids) in Hsame.
    destruct (render !! i) as [other|] eqn:Hother; [|done].
    exists i, other. split; [done|]. split; [done|]. by injection Hsame.
  - intros (i & other & Hi & Hother & Hsame). exists i. split; [done|].
    rewrite <- Hjd, <- (same_identifiers_lookup render i Hids), Hother. simpl.
    by rewrite Hsame.
Qed.

Lemma merge_record_same_identifiers (newData : list CleanedRecord)
    (analyzedRecord : CleanedRecord) :
  same_identifiers cleanedResults newData ->
  same_identifiers cleanedResults (merge_record newData analyzedRecord).
Proof. unfold same_identifiers. intros <-. apply merge_record_ids. Qed.

(** A record that repeats an identifier is never written. *)
Lemma merge_batch_repeated (analyzedBatch prevData : list CleanedRecord) (j : nat) :
  same_identifiers cleanedResults prevData ->
  repeats_an_identifier cleanedResults j ->
  merge_batch prevData analyzedBatch !! j = prevData !! j.
Proof.
  revert prevData. unfold merge_batch.
  induction analyzedBatch as [|analyzedRecord rest IH]; intros prevData Hids Hrepeats;
    [done|].
  cbn [fold_left]. rewrite IH by (by try apply merge_record_same_identifiers).
  apply merge_record_other. intros item Hitem. right.
  by apply (repeats_lookup prevData j item Hids Hitem).
Qed.

(** The first record of an identifier leaves the pending status when a
    record of the batch carries its identifier, and never returns to it. *)
Lemma merge_batch_settles (analyzedBatch prevData : list CleanedRecord) (j : nat)
    (item : CleanedRecord) :
  same_identifiers cleanedResults prevData ->
  ~ repeats_an_identifier cleanedResults j ->
  prevData !! j = Some item ->
  Forall (fun analyzedRecord : CleanedRecord => status analyzedRecord <> Aguardando_IA)
         analyzedBatch ->
  status item <> Aguardando_IA
  \/ (exists analyzedRecord : CleanedRecord, analyzedRecord ∈ analyzedBatch
                             /\ _id analyzedRecord = _id item) ->
  exists item', merge_batch prevData analyzedBatch !! j = Some item'
                /\ status item' <> Aguardando_IA.
Proof.
  revert prevData item. unfold merge_batch.
  induction analyzedBatch as [|analyzedRecord rest IH];
    intros prevData item Hids Hfirst Hj Hbatch Hcause.
  { destruct Hcause as [Hstatus|(a & Ha & _)]; [by exists item|].
    by apply elem_of_nil in Ha. }
  apply Forall_cons in Hbatch as [Hstatus Hbatch]. cbn [fold_left].
  destruct (decide (_id analyzedRecord = _id item)) as [Hsame|Hdiff].
  - apply (IH _ (spread item analyzedRecord)); try done.
    + by apply merge_record_same_identifiers.
    + apply merge_record_first; [done..|].
      intros i other Hi Hother Hid. apply Hfirst.
      apply (repeats_lookup prevData j item Hids Hj). by exists i, other.
    + by left.
  - apply (IH _ item); try done.
    + by apply merge_record_same_identifiers.
    + rewrite merge_record_other; [done|]. intros item0 Hitem0. left. congruence.
    + destruct Hcause as [Hsettled|(a & Ha & Hid)]; [by left|]. right.
      exists a. split; [|done]. apply elem_of_cons in Ha as [->|Ha]; [done|done].
Qed.

Lemma repeats_an_identifier_dec (j : nat) :
  repeats_an_identifier cleanedResults j \/ ~ repeats_an_identifier cleanedResults j.
Proof.
  unfold repeats_an_identifier.
  assert (forall n,
            (exists i, i < n
                       /\ (fun r : ParsedRecord => _id r) <$> cleanedResults !! i
                          = (fun r : ParsedRecord => _id r) <$> cleanedResults !! j)
            \/ ~ (exists i, i < n
                            /\ (fun r : ParsedRecord => _id r) <$> cleanedResults !! i
                               = (fun r : ParsedRecord => _id r) <$> cleanedResults !! j))
    as Hdec; [|apply Hdec].
  induction n as [|n [(i & Hi & Hsame)|Hnone]].
  - right. intros (i & Hi & _). lia.
  - left. exists i. split; [lia|done].
  - destruct (decide ((fun r : ParsedRecord => _id r) <$> cleanedResults !! n
                      = (fun r : ParsedRecord => _id r) <$> cleanedResults !! j))
      as [Hsame|Hdiff].
    + left. exists n. split; [lia|done].
    + right. intros (i & Hi & Hsame). destruct (decide (i = n)) as [->|Hne]; [done|].
      apply Hnone. exists i. split; [lia|done].
Qed.

End SharedIdentifiers.

Section LastOfAnIdentifier.

Variable scoring : nat -> ScoringOutcome.
Variable cleanedResults : list ParsedRecord.

(** The analysed batch of a turn is the slice of the settled records. *)
Lemma analyzed_batch_slice (k : nat) :
  analyzeQualityBatch
    (slice (k * BATCH_SIZE) (k * BATCH_SIZE + BATCH_SIZE) cleanedResults)
    (scoring (k * BATCH_SIZE))
  = slice (k * BATCH_SIZE) (k * BATCH_SIZE + BATCH_SIZE)
      (collection_after scoring cleanedResults (batches cleanedResults * BATCH_SIZE)).
Proof.
  rewrite analyzeQualityBatch_settle. unfold slice.
  replace (k * BATCH_SIZE + BATCH_SIZE - k * BATCH_SIZE) with BATCH_SIZE by lia.
  apply list_eq. intros j.
  rewrite list_lookup_fmap.
  destruct (Nat.lt_ge_cases j BATCH_SIZE) as [Hj|Hj].
  - rewrite !lookup_take_lt, !lookup_drop, final_collection_lookup by done.
    destruct (cleanedResults !! (k * BATCH_SIZE + j)); [|done]. simpl.
    rewrite (batch_start_in_batch k); [done|lia].
  - by rewrite !lookup_take_ge.
Qed.

(** After [k] turns the collection is the pending records with the
    settled records of the first [k] batches merged in, in order. *)
Lemma batch_turn_merged (k : nat) (s : Scheduler) :
  k * BATCH_SIZE < length cleanedResults ->
  data s = merge_batch (map pending cleanedResults)
             (take (k * BATCH_SIZE)
                (collection_after scoring cleanedResults
                   (batches cleanedResults * BATCH_SIZE))) ->
  data (batch_turn scoring cleanedResults (k * BATCH_SIZE) s)
  = merge_batch (map pending cleanedResults)
      (take (S k * BATCH_SIZE)
         (collection_after scoring cleanedResults (batches cleanedResults * BATCH_SIZE))).
Proof.
  intros _ Hdata. unfold batch_turn. cbn [data].
  rewrite Hdata, analyzed_batch_slice. unfold merge_batch, slice.
  rewrite <- fold_left_app.
  replace (k * BATCH_SIZE + BATCH_SIZE - k * BATCH_SIZE) with BATCH_SIZE by lia.
  rewrite take_take_drop. do 2 f_equal. unfold BATCH_SIZE. lia.
Qed.

Lemma merge_batch_unrelated (analyzedBatch prevData : list CleanedRecord) (j : nat)
    (item : CleanedRecord) :
  prevData !! j = Some item ->
  (forall a : CleanedRecord, a ∈ analyzedBatch -> _id a <> _id item) ->
  merge_batch prevData analyzedBatch !! j = Some item.
Proof.
  revert prevData. unfold merge_batch.
  induction analyzedBatch as [|a rest IH]; intros prevData Hj Hnone; [done|].
  cbn [fold_left]. apply IH.
  - rewrite merge_record_other; [done|]. intros item0 Hitem0. left.
    rewrite Hj in Hitem0. injection Hitem0 as <-. intros Heq. apply (Hnone a); [by left|done].
  - intros b Hb. apply Hnone. by right.
Qed.

Lemma settle_score (outcome : ScoringOutcome) (r : ParsedRecord) :
  is_Some (QualityScore (settle outcome r)).
Proof.
  unfold settle. destruct outcome as [| |items]; try by eexists.
  destruct (resultMap items !! Some (_id r)); by eexists.
Qed.

(** The settled records, in the order of the file. *)
Lemma settled_records_lookup (q : nat) (a : CleanedRecord) :
  collection_after scoring cleanedResults (batches cleanedResults * BATCH_SIZE) !! q
  = Some a
  <-> exists r, cleanedResults !! q = Some r /\ a = settle (scoring (batch_start q)) r.
Proof.
  rewrite final_collection_lookup. split.
  - intros (r & Hr & ->)%fmap_Some. by exists r.
  - intros (r & -> & ->). done.
Qed.

End LastOfAnIdentifier.

Section AnyIdentifiers.

Variable JSON_parse : jsstring -> option JsonValue.
Variable parse_fragment : jsstring -> option (list Node).
Variable fresh_id : nat -> jsstring.
Variable scoring : nat -> ScoringOutcome.

(** A run over at least one record, in closed form and for any
    identifiers: the collection ends as the pending records with every
    settled record merged in, in the order of the file. *)
Lemma run_merges_the_settled_records (state : AppState) (file : FileRead)
    (record : ParsedRecord) (others : list ParsedRecord) :
  let cleanedResults := record :: others in
  inputFile state = Some file ->
  processFile JSON_parse parse_fragment fresh_id file = Resolved cleanedResults ->
  cleanedData (final (handleProcessClick JSON_parse parse_fragment fresh_id scoring state))
  = merge_batch (map pending cleanedResults)
      (collection_after scoring cleanedResults (batches cleanedResults * BATCH_SIZE)).
Proof.
  intros cleanedResults Hfile Hparsed.
  unfold handleProcessClick. rewrite Hfile, Hparsed. fold cleanedResults.
  cbn [final cleanedData].
  rewrite (batch_loop_invariant scoring cleanedResults
             (fun k s =>
                data s
                = merge_batch (map pending cleanedResults)
                    (take (k * BATCH_SIZE)
                       (collection_after scoring cleanedResults
                          (batches cleanedResults * BATCH_SIZE))))
             (batch_turn_merged scoring cleanedResults) (length cleanedResults) 0).
  - rewrite take_ge; [done|]. rewrite collection_after_length.
    apply all_batches_cover.
  - lia.
  - apply batches_le_length.
  - done.
Qed.

Lemma pending_same_identifiers (cleanedResults : list ParsedRecord) :
  same_identifiers cleanedResults (map pending cleanedResults).
Proof. unfold same_identifiers. by rewrite <- list_fmap_compose. Qed.

(** X19. The records a run leaves pending.  At the end of a run over at
    least one record, the record at a position is still waiting exactly
    when an earlier record of the file carries the same identifier, or no
    record comes back from the analysis with this identifier (the response
    items gave another [_id] to the one that had it); it is then as it was
    before the analysis.  So when no response item changes the identifier
    of its record, the records left pending are exactly those that repeat
    the identifier of an earlier record, whatever the service answers. *)
Theorem pending_records_repeat_an_identifier (state : AppState) (file : FileRead)
    (record : ParsedRecord) (others : list ParsedRecord) (j : nat) (item : CleanedRecord) :
  let cleanedResults := record :: others in
  inputFile state = Some file ->
  processFile JSON_parse parse_fragment fresh_id file = Resolved cleanedResults ->
  let run := handleProcessClick JSON_parse parse_fragment fresh_id scoring state in
  cleanedData (final run) !! j = Some item ->
  (fun r : ParsedRecord => _id r) <$> cleanedResults !! j = Some (_id item)
  /\ (status item = Aguardando_IA
      <-> repeats_an_identifier cleanedResults j
          \/ forall q r, cleanedResults !! q = Some r ->
                         _id (settle (scoring (batch_start q)) r) <> _id item)
  /\ (status item = Aguardando_IA -> Some item = pending <$> cleanedResults !! j)
  /\ (identifiers_kept scoring cleanedResults ->
      (status item = Aguardando_IA <-> repeats_an_identifier cleanedResults j)).
Proof.
  intros cleanedResults Hfile Hparsed run Hitem. subst run.
  rewrite (run_merges_the_settled_records state file record others) in Hitem by done.
  fold cleanedResults in Hitem.
  set (all := collection_after scoring cleanedResults
                (batches cleanedResults * BATCH_SIZE)) in *.
  pose proof (pending_same_identifiers cleanedResults) as Hstart.
  assert (same_identifiers cleanedResults (merge_batch (map pending cleanedResults) all))
    as Hend by (by apply merge_batch_ids).
  pose proof (same_identifiers_lookup cleanedResults _ j Hend) as Hid.
  rewrite Hitem in Hid. cbn [fmap option_fmap option_map] in Hid.
  destruct (cleanedResults !! j) as [rj|] eqn:Hrj; [|done].
  cbn [fmap option_fmap option_map] in Hid |- *. injection Hid as Hid.
  assert (repeats_an_identifier cleanedResults j -> item = pending rj) as Hrepeated.
  { intros Hrepeats.
    rewrite (merge_batch_repeated cleanedResults all _ j Hstart Hrepeats),
      list_lookup_fmap, Hrj in Hitem. by injection Hitem. }
  assert ((forall q r, cleanedResults !! q = Some r ->
             _id (settle (scoring (batch_start q)) r) <> _id item) ->
          item = pending rj) as Hunrelated.
  { intros Hnone.
    rewrite (merge_batch_unrelated all (map pending cleanedResults) j (pending rj)) in Hitem.
    - by injection Hitem.
    - by rewrite list_lookup_fmap, Hrj.
    - intros a (q & Hq)%list_elem_of_lookup.
      apply settled_records_lookup in Hq as (r & Hr & ->).
      cbn [pending parsed]. rewrite <- Hid. by apply Hnone. }
  assert (status item = Aguardando_IA ->
          repeats_an_identifier cleanedResults j
          \/ forall q r, cleanedResults !! q = Some r ->
                         _id (settle (scoring (batch_start q)) r) <> _id item) as Hcause.
  { intros Hpending.
    destruct (repeats_an_identifier_dec cleanedResults j) as [Hrepeats|Hfirst]; [by left|].
    destruct (decide (Exists (fun a : CleanedRecord => _id a = _id item) all))
      as [(a & Ha & Hsame)%Exists_exists|Hnone].
    - exfalso.
      destruct (merge_batch_settles cleanedResults all (map pending cleanedResults) j
                  (pending rj)) as (item' & Hitem' & Hstatus); try done.
      + by rewrite list_lookup_fmap, Hrj.
      + apply Forall_forall. intros b (q & Hq)%list_elem_of_lookup.
        apply settled_records_lookup in Hq as (r & Hr & ->). apply settle_terminal.
      + right. exists a. split; [done|]. cbn [pending parsed]. congruence.
      + rewrite Hitem in Hitem'. injection Hitem' as <-. done.
    - right. intros q r Hr Hsame. apply Hnone, Exists_exists.
      exists (settle (scoring (batch_start q)) r). split; [|done].
      apply (list_elem_of_lookup_2 _ q). apply settled_records_lookup. by exists r. }
  split; [by rewrite Hid|]. split; [|split].
  - split; [done|]. by intros [->%Hrepeated| ->%Hunrelated].
  - intros [->%Hrepeated| ->%Hunrelated]%Hcause; done.
  - intros Hkept. split.
    + intros [Hrepeats|Hnone]%Hcause; [done|].
      exfalso. apply (Hnone j rj Hrj). rewrite Hid. by apply Hkept.
    + by intros ->%Hrepeated.
Qed.

(** X20. The first record of an identifier ends as the last analysed
    record that carries this identifier.  At the end of a run, the position
    of the first record of the file with an identifier holds the [_id],
    title, community, author, text and word count, the status and the
    quality score of the last record that came back from the analysis with
    this identifier; and when no earlier one came back with it, the
    position holds that analysed record exactly.  With identifiers that no
    response item changes, this is the last record of the file with the
    identifier, as its own batch settled it. *)
Theorem first_record_takes_the_last_twin (state : AppState) (file : FileRead)
    (record : ParsedRecord) (others : list ParsedRecord) (j p : nat) (r : ParsedRecord) :
  let cleanedResults := record :: others in
  let analysed := fun q r' => settle (scoring (batch_start q)) r' in
  inputFile state = Some file ->
  processFile JSON_parse parse_fragment fresh_id file = Resolved cleanedResults ->
  ~ repeats_an_identifier cleanedResults j ->
  cleanedResults !! p = Some r ->
  (fun x : ParsedRecord => _id x) <$> cleanedResults !! j = Some (_id (analysed p r)) ->
  (forall q (r' : ParsedRecord),
     p < q -> cleanedResults !! q = Some r' -> _id (analysed q r') <> _id (analysed p r)) ->
  let run := handleProcessClick JSON_parse parse_fragment fresh_id scoring state in
  exists item : CleanedRecord,
    cleanedData (final run) !! j = Some item
    /\ parsed item = parsed (analysed p r)
    /\ word_count_given item = word_count_given (analysed p r)
    /\ status item = status (analysed p r)
    /\ QualityScore item = QualityScore (analysed p r)
    /\ ((forall q (r' : ParsedRecord),
           q < p -> cleanedResults !! q = Some r' ->
           _id (analysed q r') <> _id (analysed p r)) ->
        item = analysed p r)
    /\ (identifiers_kept scoring cleanedResults ->
        _id r = _id item
        /\ (forall q (r' : ParsedRecord),
              p < q -> cleanedResults !! q = Some r' -> _id r' <> _id r)
        /\ (p = j -> item = analysed j r)).
Proof.
  intros cleanedResults analysed Hfile Hparsed Hfirst Hp Hj Hlast run.
  subst run. rewrite (run_merges_the_settled_records state file record others) by done.
  fold cleanedResults.
  set (all := collection_after scoring cleanedResults
                (batches cleanedResults * BATCH_SIZE)).
  set (a := analysed p r) in *.
  assert (all !! p = Some a) as Hall.
  { apply settled_records_lookup. by exists r. }
  rewrite <- (take_drop_middle all p a Hall).
  unfold merge_batch. rewrite fold_left_app. cbn [fold_left].
  fold (merge_batch (map pending cleanedResults) (take p all)).
  set (d1 := merge_batch (map pending cleanedResults) (take p all)).
  assert (same_identifiers cleanedResults d1) as Hd1.
  { apply merge_batch_ids, pending_same_identifiers. }
  destruct (cleanedResults !! j) as [rj|] eqn:Hrj; [|done].
  simpl in Hj. injection Hj as Hj.
  assert (exists item1 : CleanedRecord, d1 !! j = Some item1 /\ _id item1 = _id a)
    as (item1 & Hitem1 & Hid1).
  { pose proof (same_identifiers_lookup cleanedResults d1 j Hd1) as Hsame.
    rewrite Hrj in Hsame. destruct (d1 !! j) as [item1|]; [|done].
    exists item1. split; [done|]. simpl in Hsame. injection Hsame as ->. done. }
  assert (merge_record d1 a !! j = Some (spread item1 a)) as Hmerged.
  { apply merge_record_first; [done|done|].
    intros i other Hi Hother Hid. apply Hfirst.
    apply (repeats_lookup cleanedResults d1 j item1 Hd1 Hitem1). by exists i, other. }
  fold (merge_batch (merge_record d1 a) (drop (S p) all)).
  assert (merge_batch (merge_record d1 a) (drop (S p) all) !! j = Some (spread item1 a))
    as Hfinal.
  { apply merge_batch_unrelated; [done|].
    intros b (q & Hq)%list_elem_of_lookup. rewrite lookup_drop in Hq.
    apply settled_records_lookup in Hq as (r' & Hr' & ->).
    rewrite spread_parsed. apply (Hlast (S p + q) r'); [lia|done]. }
  assert ((forall q (r' : ParsedRecord),
             q < p -> cleanedResults !! q = Some r' -> _id (analysed q r') <> _id a) ->
          spread item1 a = a) as Hexact.
  { intros Hearlier.
    assert (d1 !! j = Some (pending rj)) as Hpending.
    { subst d1. apply merge_batch_unrelated; [by rewrite list_lookup_fmap, Hrj|].
      intros b (q & Hq)%list_elem_of_lookup.
      apply lookup_take_Some in Hq as [Hq Hlt].
      apply settled_records_lookup in Hq as (r' & Hr' & ->). cbn [pending parsed].
      rewrite Hj. by apply Hearlier. }
    rewrite Hitem1 in Hpending. injection Hpending as ->. apply spread_pending. }
  exists (spread item1 a). split; [done|]. split; [done|]. split; [done|].
  split; [done|]. split; [|split; [done|]].
  - cbn [spread QualityScore].
    destruct (settle_score (scoring (batch_start p)) r) as [x Hx].
    change (QualityScore a) with (QualityScore (settle (scoring (batch_start p)) r)).
    rewrite Hx. by destruct (QualityScore item1).
  - intros Hkept.
    assert (_id a = _id r) as Ha by (by apply Hkept).
    split; [by rewrite spread_parsed|]. split.
    + intros q r' Hq Hr'. rewrite <- Ha, <- (Hkept q r' Hr'). by apply Hlast.
    + intros ->. rewrite Hrj in Hp. injection Hp as ->. apply Hexact.
      intros q r' Hq Hr' Hsame. apply Hfirst. exists q. split; [done|].
      rewrite Hr', Hrj. cbn [fmap option_fmap option_map]. f_equal.
      rewrite <- (Hkept q r' Hr'), <- Ha. done.
Qed.

End AnyIdentifiers.

(** ** The download *)

Section DownloadProperties.
Import Csv.

Variable Number_toString : float -> jsstring.

Lemma startsWith_app (s rest : jsstring) : startsWith (s ++ rest) s = true.
Proof. induction s as [|c s IH]; simpl; [by destruct rest|]. by rewrite N.eqb_refl. Qed.

Lemma endsWith_app (s suffix : jsstring) : endsWith (s ++ suffix) suffix = true.
Proof. unfold endsWith. rewrite rev_app_distr. apply startsWith_app. Qed.

(** X21. The file offered for download is always named with the ending
    .csv: a name that has the ending is kept as it is, any other name, the
    empty one and one that ends in upper case .CSV included, gets the ending
    appended; naming twice changes nothing more. *)
Theorem download_name_ends_with_csv (outputFileName : jsstring) :
  endsWith (download_name outputFileName) (js ".csv") = true
  /\ (endsWith outputFileName (js ".csv") = true ->
      download_name outputFileName = outputFileName)
  /\ (endsWith outputFileName (js ".csv") = false ->
      download_name outputFileName = outputFileName ++ js ".csv")
  /\ download_name (download_name outputFileName) = download_name outputFileName
  /\ download_name [] = js ".csv"
  /\ download_name (js "a.CSV") = js "a.CSV.csv".
Proof.
  assert (endsWith (download_name outputFileName) (js ".csv") = true) as Hends.
  { unfold download_name. destruct (endsWith outputFileName (js ".csv")) eqn:H; [done|].
    apply endsWith_app. }
  split; [done|]. split; [|split; [|split; [|split; reflexivity]]].
  - intros H. unfold download_name. by rewrite H.
  - intros H. unfold download_name. by rewrite H.
  - unfold download_name at 1. by rewrite Hends.
Qed.

(** X22. A click on the download button hands over a file exactly when
    some record is displayed; the file then holds the column names and one
    line per displayed record, in the displayed order: read back, it gives
    the names and then the texts of each record, never the empty output. *)
Theorem download_holds_the_displayed_records (displayedData : list CleanedRecord)
    (outputFileName : jsstring) :
  (handleDownloadClick Number_toString displayedData outputFileName = None
   <-> displayedData = [])
  /\ (forall file,
        handleDownloadClick Number_toString displayedData outputFileName = Some file ->
        download file = download_name outputFileName
        /\ blob file = convertToCsv Number_toString displayedData
        /\ blob file <> []
        /\ parse_csv (blob file)
           = headers :: map (row_texts Number_toString) displayedData).
Proof.
  destruct displayedData as [|row data]; cbn [handleDownloadClick].
  - split; [done|]. by intros file.
  - split; [done|]. intros file Hfile. apply (inj Some) in Hfile. rewrite <- Hfile.
    cbn [download blob].
    split; [done|]. split; [done|]. split; [discriminate|].
    assert (exists c more, convertToCsv Number_toString (row :: data) = c :: more)
      as (c & more & Hcsv) by (eexists _, _; reflexivity).
    unfold parse_csv. rewrite Hcsv, <- Hcsv. clear c more Hcsv.
    change (convertToCsv Number_toString (row :: data))
      with (join [COMMA] headers
            ++ LF :: join [LF] (map (csv_row Number_toString) (row :: data))).
    rewrite (read_plain_line headers _ _ ltac:(discriminate) headers_plain
               (record_end_lines Number_toString row data)).
    by rewrite read_data_lines.
Qed.

End DownloadProperties.

(** ** Selecting a file *)

Section Uploader.
Import FileUploader.

Lemma handle_keeps_the_rest (sp : State * AppState) (e : Event) :
  let sp' := handle setInputFile sp e in
  cleanedData (snd sp') = cleanedData (snd sp)
  /\ processingStep (snd sp') = processingStep (snd sp)
  /\ progress (snd sp') = progress (snd sp)
  /\ error (snd sp') = error (snd sp).
Proof.
  destruct sp as [s app], e as [type|files|files]; simpl; [done|..].
  - unfold handleDrop. by destruct (first_file files).
  - unfold handleChange. by destruct (first_file files).
Qed.

Lemma handle_selects (sp : State * AppState) (e : Event) :
  let sp' := handle setInputFile sp e in
  selectedFile (fst sp')
  = match chosen e with Some file => Some file | None => selectedFile (fst sp) end
  /\ inputFile (snd sp')
     = match chosen e with
       | Some file => Some (read file)
       | None => inputFile (snd sp)
       end.
Proof.
  destruct sp as [s app], e as [type|files|files]; cbn [handle chosen fst snd].
  - unfold handleDrag.
    by destruct (bool_decide (type = js "dragenter") || bool_decide (type = js "dragover")),
         (bool_decide (type = js "dragleave")).
  - unfold handleDrop. by destruct (first_file files).
  - unfold handleChange. by destruct (first_file files).
Qed.

(** X23. The file named under the drop zone is the file a run will read:
    after any sequence of drag, drop and change events, starting with no
    file selected, the file the uploader shows is the first file of the last
    drop or change that carried a file, the file [App] holds is that same
    file, and nothing else of the state of [App] has changed; a drop or a
    change without a file selects nothing. *)
Theorem uploader_and_app_agree (events : list Event) (state : AppState) :
  inputFile state = None ->
  let after := fold_left (handle setInputFile) events (initial, state) in
  selectedFile (fst after) = last (omap chosen events)
  /\ inputFile (snd after) = read <$> selectedFile (fst after)
  /\ cleanedData (snd after) = cleanedData state
  /\ processingStep (snd after) = processingStep state
  /\ progress (snd after) = progress state
  /\ error (snd after) = error state.
Proof.
  intros Hnone. induction events as [|e events IH] using rev_ind; [done|].
  rewrite fold_left_app. cbn [fold_left].
  set (before := fold_left (handle setInputFile) events (initial, state)) in *.
  cbv zeta in IH. destruct IH as (Hselected & Hinput & Hdata & Hstep & Hprogress & Herror).
  destruct (handle_keeps_the_rest before e) as (Hdata' & Hstep' & Hprogress' & Herror').
  destruct (handle_selects before e) as [Hselected' Hinput'].
  cbv zeta in *.
  rewrite Hselected', Hinput', Hdata', Hstep', Hprogress', Herror'.
  rewrite omap_app. cbn [omap list_omap].
  destruct (chosen e) as [file|].
  - by rewrite last_snoc.
  - by rewrite app_nil_r.
Qed.

End Uploader.

(** ** The properties on sample data *)

Lemma trailing_comma_is_removed_witness :
  forallb is_space (js " ") = true
  /\ forallb is_space [LF] = true
  /\ repair trailing_comma_file = one_object_array.
Proof.
  split; [reflexivity|]. split; [reflexivity|].
  apply (trailing_comma_is_removed (js " ")
           (js "{" ++ in_quotes "title" ++ js ":" ++ in_quotes "A" ++ js "}")
           (js " ") [LF]); reflexivity.
Defined.

Lemma truncated_array_is_closed_witness :
  trim truncated_file
  = [LBRACKET] ++ (js "{" ++ in_quotes "title" ++ js ":" ++ in_quotes "A")
    ++ [RBRACE] ++ (js ",{" ++ [QUOTE] ++ js "tit")
  /\ repair truncated_file = one_object_array.
Proof.
  split; [reflexivity|].
  apply (truncated_array_is_closed truncated_file
           (js "{" ++ in_quotes "title" ++ js ":" ++ in_quotes "A")
           (js ",{" ++ [QUOTE] ++ js "tit")); reflexivity.
Defined.

Lemma trailing_text_is_dropped_witness :
  trim (one_object_array ++ js " ...")
  = [LBRACKET] ++ (js "{" ++ in_quotes "title" ++ js ":" ++ in_quotes "A" ++ js "}")
    ++ [RBRACKET] ++ js " ..."
  /\ repair (one_object_array ++ js " ...") = one_object_array.
Proof.
  split; [reflexivity|].
  apply (trailing_text_is_dropped (one_object_array ++ js " ...")
           (js "{" ++ in_quotes "title" ++ js ":" ++ in_quotes "A" ++ js "}")
           (js " ...")); reflexivity.
Defined.

(** The two damaged files are ingested as the array they stood for. *)
Example damaged_files_are_ingested :
  sample_JSON_parse trailing_comma_file = None
  /\ sample_JSON_parse truncated_file = None
  /\ processFile sample_JSON_parse sample_parse_fragment sample_fresh_id
       (FileContent trailing_comma_file)
     = Resolved [mkParsed (sample_fresh_id 0) (js "A") [] [] [] 0]
  /\ processFile sample_JSON_parse sample_parse_fragment sample_fresh_id
       (FileContent truncated_file)
     = Resolved [mkParsed (sample_fresh_id 0) (js "A") [] [] [] 0].
Proof. repeat split; reflexivity. Qed.

(** A single object is valid JSON and no array: it is rejected without a
    repair, although the repair would have put it in brackets, as it does
    with two objects in a row. *)
Example single_object_is_rejected :
  processFile sample_JSON_parse sample_parse_fragment sample_fresh_id
    (FileContent (js "{}")) = Rejected not_array_message
  /\ parse_attempts sample_JSON_parse (js "{}") = [js "{}"]
  /\ processFile sample_JSON_parse sample_parse_fragment sample_fresh_id
       (FileContent (js "{}{}"))
     = Resolved [ mkParsed (sample_fresh_id 0) [] [] [] [] 0;
                  mkParsed (sample_fresh_id 1) [] [] [] [] 0 ].
Proof. repeat split; reflexivity. Qed.

Lemma cleaning_is_idempotent_witness :
  cleanHtmlAndNormalize sample_parse_fragment hello_markup = js "Hello world"
  /\ flat_map textContent <$> sample_parse_fragment (js "Hello world")
     = Some (js "Hello world")
  /\ cleanHtmlAndNormalize sample_parse_fragment (js "Hello world") = js "Hello world".
Proof.
  split; [reflexivity|]. split; [reflexivity|].
  apply (cleaning_is_idempotent sample_parse_fragment hello_markup). reflexivity.
Defined.

Lemma record_identifier_is_never_empty_witness :
  (forall position, sample_fresh_id position <> [])
  /\ processFile sample_JSON_parse sample_parse_fragment sample_fresh_id
       (FileContent mixed_file)
     = Resolved [ mkParsed (sample_fresh_id 2) (js "A") [] [] [] 0;
                  mkParsed (sample_fresh_id 4) [] [] [] [] 0 ]
  /\ Forall (fun record : ParsedRecord => _id record <> [])
            [ mkParsed (sample_fresh_id 2) (js "A") [] [] [] 0;
              mkParsed (sample_fresh_id 4) [] [] [] [] 0 ].
Proof.
  assert (forall position, sample_fresh_id position <> []) as Hfresh
    by (intros position; discriminate).
  split; [exact Hfresh|]. split; [reflexivity|].
  apply (record_identifier_is_never_empty sample_JSON_parse sample_parse_fragment
           sample_fresh_id (FileContent mixed_file)); [exact Hfresh|reflexivity].
Defined.

Lemma missing_score_gives_nan_witness :
  [sample_record "a"] !! 0 = Some (sample_record "a")
  /\ resultMap [incomplete_item "a"] !! Some (_id (sample_record "a"))
     = Some (incomplete_item "a")
  /\ dimension Clareza (incomplete_item "a") = None
  /\ exists r : CleanedRecord,
       analyzeQualityBatch [sample_record "a"] (ResponseItems [incomplete_item "a"]) !! 0
       = Some r
       /\ status r = Analisado /\ QualityScore r = Some nan.
Proof.
  split; [reflexivity|]. split; [reflexivity|]. split; [reflexivity|].
  apply (missing_score_gives_nan [sample_record "a"] [incomplete_item "a"] 0
           (sample_record "a") (incomplete_item "a") Clareza); reflexivity.
Defined.

Lemma last_response_item_wins_witness :
  [sample_record "a"] !! 0 = Some (sample_record "a")
  /\ id (sample_item "a") = Some (_id (sample_record "a"))
  /\ (forall other, other ∈ [sample_item "b"] -> id other <> Some (_id (sample_record "a")))
  /\ analyzeQualityBatch [sample_record "a"] (ResponseItems repeated_response) !! 0
     = Some (scored (sample_record "a") (sample_item "a")).
Proof.
  assert (forall other, other ∈ [sample_item "b"]
                        -> id other <> Some (_id (sample_record "a"))) as Hlater.
  { intros other Hother. apply list_elem_of_singleton in Hother as ->. discriminate. }
  split; [reflexivity|]. split; [reflexivity|]. split; [exact Hlater|].
  apply (last_response_item_wins [sample_record "a"] [incomplete_item "a"]
           [sample_item "b"] (sample_item "a") 0 (sample_record "a"));
    [reflexivity|reflexivity|exact Hlater].
Defined.

Example whole_values :
  map whole (seq 0 11) = [0; 1; 2; 3; 4; 5; 6; 7; 8; 9; 10]%float.
Proof. reflexivity. Qed.

Lemma whole_scores_give_exact_hundredths_witness :
  8 <= 10 /\ 7 <= 10 /\ 9 <= 10 /\ 6 <= 10 /\ 8 <= 10 /\ 10 <= 10
  /\ whole_scores 8 7 9 6 8 10 (Some (js "Bom")) = sample_analysis
  /\ toFixed2 (qualityScore sample_analysis) = FixDigits false 790
  /\ QualityScore (scored (sample_record "a") (sample_item "a")) = Some 7.9%float.
Proof.
  destruct (whole_scores_give_exact_hundredths 8 7 9 6 8 10 (Some (js "Bom"))
              (Some (js "a")) no_properties (sample_record "a"))
    as (Hprint & Hscore & _); [lia..|].
  repeat (split; [lia|]). split; [reflexivity|]. split; [exact Hprint|exact Hscore].
Defined.

Lemma scoring_calls_cover_the_records_witness :
  let run := sample_run twelve_ids first_throws_then_answered in
  inputFile (selected twelve_ids) = Some (FileContent (file_of_ids twelve_ids))
  /\ processFile sample_JSON_parse sample_parse_fragment sample_fresh_id
       (FileContent (file_of_ids twelve_ids)) = Resolved (records_of_ids twelve_ids)
  /\ concat (scoring_calls (run_events run))
     = map (fun r : ParsedRecord => (_id r, take 2000 (text_clean r)))
           (records_of_ids twelve_ids)
  /\ length (scoring_calls (run_events run)) = 2
  /\ Forall (fun request => 1 <= length request <= 10) (scoring_calls (run_events run)).
Proof.
  destruct (scoring_calls_cover_the_records sample_JSON_parse sample_parse_fragment
              sample_fresh_id first_throws_then_answered (selected twelve_ids)
              (FileContent (file_of_ids twelve_ids)) (records_of_ids twelve_ids)
              eq_refl eq_refl) as (Hconcat & Hlength & Hsizes & _).
  split; [reflexivity|]. split; [reflexivity|].
  split; [exact Hconcat|]. split; [exact Hlength|exact Hsizes].
Defined.

Lemma pauses_only_between_requests_witness :
  let run := sample_run twelve_ids first_throws_then_answered in
  inputFile (selected twelve_ids) = Some (FileContent (file_of_ids twelve_ids))
  /\ processFile sample_JSON_parse sample_parse_fragment sample_fresh_id
       (FileContent (file_of_ids twelve_ids)) = Resolved (records_of_ids twelve_ids)
  /\ run_events run = paced (scoring_calls (run_events run))
  /\ delays (run_events run) = [5000].
Proof.
  destruct (pauses_only_between_requests sample_JSON_parse sample_parse_fragment
              sample_fresh_id first_throws_then_answered (selected twelve_ids)
              (FileContent (file_of_ids twelve_ids)) (records_of_ids twelve_ids)
              eq_refl eq_refl) as (Hpaced & Hdelays).
  split; [reflexivity|]. split; [reflexivity|]. split; [exact Hpaced|exact Hdelays].
Defined.

Lemma run_ends_with_every_record_counted_witness :
  let run := sample_run eleven_ids first_answered_then_throws in
  inputFile (selected eleven_ids) = Some (FileContent (file_of_ids eleven_ids))
  /\ processFile sample_JSON_parse sample_parse_fragment sample_fresh_id
       (FileContent (file_of_ids eleven_ids)) = Resolved (records_of_ids eleven_ids)
  /\ processingStep (final run) = done
  /\ error (final run) = None
  /\ progress (final run) = mkProgress 11 11
  /\ length (cleanedData (final run)) = 11.
Proof.
  destruct (run_ends_with_every_record_counted sample_JSON_parse sample_parse_fragment
              sample_fresh_id first_answered_then_throws (selected eleven_ids)
              (FileContent (file_of_ids eleven_ids))
              (mkParsed (js "x") [] [] [] [] 0) (records_of_ids (tail eleven_ids))
              eq_refl eq_refl) as (Hstep & Herror & Hprogress & _ & Hlength & _).
  split; [reflexivity|]. split; [reflexivity|]. split; [exact Hstep|].
  split; [exact Herror|]. split; [exact Hprogress|exact Hlength].
Defined.

Lemma every_render_holds_the_records_witness :
  let run := sample_run eleven_ids first_answered_then_throws in
  inputFile (selected eleven_ids) = Some (FileContent (file_of_ids eleven_ids))
  /\ processFile sample_JSON_parse sample_parse_fragment sample_fresh_id
       (FileContent (file_of_ids eleven_ids)) = Resolved (records_of_ids eleven_ids)
  /\ run_renders run !! 0 = Some []
  /\ (forall k render,
        run_renders run !! S k = Some render ->
        (fun x : CleanedRecord => _id x) <$> render
        = (fun r : ParsedRecord => _id r) <$> records_of_ids eleven_ids)
  /\ length (run_renders run) = 4.
Proof.
  destruct (every_render_holds_the_records sample_JSON_parse sample_parse_fragment
              sample_fresh_id first_answered_then_throws (selected eleven_ids)
              (FileContent (file_of_ids eleven_ids))
              (mkParsed (js "x") [] [] [] [] 0) (records_of_ids (tail eleven_ids))
              eq_refl eq_refl) as (Hreset & Hrenders & _ & _).
  split; [reflexivity|]. split; [reflexivity|]. split; [exact Hreset|].
  split; [exact Hrenders|reflexivity].
Defined.

Lemma run_reports_an_error_iff_no_record_witness :
  let state := initial_state (Some (FileContent (js "{"))) in
  let run :=
    handleProcessClick sample_JSON_parse sample_parse_fragment sample_fresh_id
      every_call_throws state in
  inputFile state = Some (FileContent (js "{"))
  /\ processFile sample_JSON_parse sample_parse_fragment sample_fresh_id
       (FileContent (js "{")) = Rejected syntax_error_message
  /\ error (final run) = Some syntax_error_message
  /\ processingStep (final run) = idle
  /\ isProcessing (processingStep (final run)) = false
  /\ run_events run = [].
Proof.
  destruct (run_reports_an_error_iff_no_record sample_JSON_parse sample_parse_fragment
              sample_fresh_id every_call_throws
              (initial_state (Some (FileContent (js "{")))) (FileContent (js "{"))
              eq_refl) as (_ & Hidle & _ & Hprocessing & Herror).
  split; [reflexivity|]. split; [reflexivity|]. split; [reflexivity|].
  split; [apply Hidle; by eexists|]. split; [exact Hprocessing|].
  by destruct (Herror syntax_error_message eq_refl) as (_ & Hevents & _).
Defined.

Lemma pending_records_repeat_an_identifier_witness :
  let run := sample_run eleven_ids first_answered_then_throws in
  let last_one := pending (mkParsed (js "x") [] [] [] [] 0) in
  inputFile (selected eleven_ids) = Some (FileContent (file_of_ids eleven_ids))
  /\ processFile sample_JSON_parse sample_parse_fragment sample_fresh_id
       (FileContent (file_of_ids eleven_ids)) = Resolved (records_of_ids eleven_ids)
  /\ cleanedData (final run) !! 10 = Some last_one
  /\ repeats_an_identifier (records_of_ids eleven_ids) 10
  /\ identifiers_kept first_answered_then_throws (records_of_ids eleven_ids)
  /\ (status last_one = Aguardando_IA
      <-> repeats_an_identifier (records_of_ids eleven_ids) 10).
Proof.
  destruct (pending_records_repeat_an_identifier sample_JSON_parse sample_parse_fragment
              sample_fresh_id first_answered_then_throws (selected eleven_ids)
              (FileContent (file_of_ids eleven_ids))
              (mkParsed (js "x") [] [] [] [] 0) (records_of_ids (tail eleven_ids))
              10 (pending (mkParsed (js "x") [] [] [] [] 0))
              eq_refl eq_refl eq_refl) as (_ & _ & _ & Hiff).
  split; [reflexivity|]. split; [reflexivity|]. split; [reflexivity|].
  split; [exists 0; split; [lia|reflexivity]|].
  split; [apply first_answered_then_throws_keeps|].
  apply Hiff, first_answered_then_throws_keeps.
Defined.

Lemma first_record_takes_the_last_twin_witness :
  let second := mkParsed (js "x") (js "second") [] [] [] 0 in
  inputFile (initial_state (Some (FileContent titled_twins_file)))
  = Some (FileContent titled_twins_file)
  /\ processFile sample_JSON_parse sample_parse_fragment sample_fresh_id
       (FileContent titled_twins_file) = Resolved titled_twins
  /\ ~ repeats_an_identifier titled_twins 0
  /\ titled_twins !! 1 = Some second
  /\ (fun x : ParsedRecord => _id x) <$> titled_twins !! 0 = Some (_id (failed second))
  /\ (forall q (r' : ParsedRecord),
        1 < q -> titled_twins !! q = Some r' ->
        _id (settle (every_call_throws (batch_start q)) r') <> _id (failed second))
  /\ exists item : CleanedRecord,
       cleanedData (final titled_twins_run) !! 0 = Some item
       /\ parsed item = second
       /\ status item = Falha_na_Analise
       /\ QualityScore item = Some 0%float.
Proof.
  assert (~ repeats_an_identifier titled_twins 0) as Hfirst.
  { intros (i & Hi & _). lia. }
  assert (forall q (r' : ParsedRecord),
            1 < q -> titled_twins !! q = Some r'
            -> _id (settle (every_call_throws (batch_start q)) r')
               <> _id (failed (mkParsed (js "x") (js "second") [] [] [] 0))) as Hlast.
  { intros [|[|q]] r' Hq Hlookup; [lia|lia|discriminate]. }
  split; [reflexivity|]. split; [reflexivity|]. split; [exact Hfirst|].
  split; [reflexivity|]. split; [reflexivity|]. split; [exact Hlast|].
  destruct (first_record_takes_the_last_twin sample_JSON_parse sample_parse_fragment
              sample_fresh_id every_call_throws
              (initial_state (Some (FileContent titled_twins_file)))
              (FileContent titled_twins_file)
              (mkParsed (js "x") (js "first") [] [] [] 0)
              [mkParsed (js "x") (js "second") [] [] [] 0]
              0 1 (mkParsed (js "x") (js "second") [] [] [] 0)
              eq_refl eq_refl Hfirst eq_refl eq_refl Hlast)
    as (item & Hitem & Hparsed & _ & Hstatus & Hscore & _).
  exists item. split; [exact Hitem|]. split; [exact Hparsed|].
  split; [exact Hstatus|exact Hscore].
Defined.

(** The titles on the screen after the run over the two twins: the first
    title is lost, the second record still waits. *)
Example titled_twins_on_screen :
  (fun item : CleanedRecord => (title item, status item))
  <$> cleanedData (final titled_twins_run)
  = [(js "second", Falha_na_Analise); (js "second", Aguardando_IA)].
Proof. reflexivity. Qed.

Lemma narrower_filter_shows_fewer_witness :
  let old := Filters.mk (js "A") [] [] in
  let new := Filters.mk (js "aV") [] (js "ana") in
  occurs_in (ascii_toLowerCase (js "A")) (ascii_toLowerCase (js "aV"))
  /\ occurs_in (ascii_toLowerCase []) (ascii_toLowerCase [])
  /\ occurs_in (ascii_toLowerCase []) (ascii_toLowerCase (js "ana"))
  /\ displayedData ascii_toLowerCase old sample_records = sample_records
  /\ displayedData ascii_toLowerCase new sample_records = [failed (sample_record "a")]
  /\ sublist (displayedData ascii_toLowerCase new sample_records)
             (displayedData ascii_toLowerCase old sample_records).
Proof.
  assert (occurs_in (ascii_toLowerCase (js "A")) (ascii_toLowerCase (js "aV"))) as Ht
    by (exists [], (js "v"); reflexivity).
  assert (occurs_in (ascii_toLowerCase []) (ascii_toLowerCase [])) as Hc
    by (exists [], []; reflexivity).
  assert (occurs_in (ascii_toLowerCase []) (ascii_toLowerCase (js "ana"))) as Ha
    by (exists [], (js "ana"); reflexivity).
  split; [exact Ht|]. split; [exact Hc|]. split; [exact Ha|].
  split; [reflexivity|]. split; [reflexivity|].
  exact (proj1 (narrower_filter_shows_fewer ascii_toLowerCase
                  (Filters.mk (js "A") [] []) (Filters.mk (js "aV") [] (js "ana"))
                  sample_records Ht Hc Ha)).
Defined.

Lemma uploader_and_app_agree_witness :
  let after :=
    fold_left (FileUploader.handle setInputFile) sample_events
              (FileUploader.initial, initial_state None) in
  inputFile (initial_state None) = None
  /\ FileUploader.selectedFile (fst after) = Some report_file
  /\ inputFile (snd after) = Some (FileContent one_object_array)
  /\ FileUploader.selectedFile (fst after)
     = last (omap FileUploader.chosen sample_events).
Proof.
  destruct (uploader_and_app_agree sample_events (initial_state None) eq_refl)
    as (Hselected & _).
  split; [reflexivity|]. split; [reflexivity|]. split; [reflexivity|exact Hselected].
Defined.

(** The filters after some typing, and what is displayed under them. *)
Example filters_after_typing :
  fold_left (fun prev change => handleFilterChange (fst change) (snd change) prev)
            [ (js "title", js "f"); (js "author", js "z"); (js "title", js "fe");
              (js "sort", js "x"); (js "author", []) ]
            no_filters
  = Filters.mk (js "fe") [] []
  /\ (fun item : CleanedRecord => title item)
     <$> displayedData ascii_toLowerCase (Filters.mk (js "fe") [] []) sample_records
     = [js "Festa"].
Proof. split; reflexivity. Qed.

Example download_of_sample_records :
  download
  <$> handleDownloadClick (fun _ => js "0") sample_records (js "comunicados_avaliados.csv")
  = Some (js "comunicados_avaliados.csv")
  /\ download <$> handleDownloadClick (fun _ => js "0") sample_records (js "saida")
     = Some (js "saida.csv")
  /\ handleDownloadClick (fun _ => js "0") [] (js "saida") = None.
Proof. repeat split; reflexivity. Qed.
